(** * webdb indexer: a shallow embedding of [src/lib/indexer.js]

    The indexer keeps table-shaped indexes over versioned archives.  This
    development embeds the functions of [lib/indexer.js] as executable Rocq
    functions over an explicit database state and proves the properties the
    specification states about them.

    Modelling conventions.
    - An [async function] is a computation in the monad [Eff]: it reads and
      updates the database [State], may end in a thrown JavaScript error
      (a rejected promise), and produces the list of externally visible
      [Event]s (store writes, emitted signals, timer waits) in the order they
      happen.
    - Everything the indexer consumes from outside (the archive's answers, the
      stores' failures, the clock) is a field of [World]; the tables with their
      predicates, validators and preprocessors are the fields of [Db].
    - A validator or preprocessor is handed the parsed record by reference.
      Its call is given by the value it returns together with the record as
      the call leaves it, so that an edit in place reaches the store as it
      does in the code.
    - [Promise.all (xs.map (async ...))] is run in array order.  The tasks of
      one batch touch pairwise different store keys ([archive.url + path] for
      pairwise different paths), so the stores they leave do not depend on how
      their suspension points interleave.
    - The named lock [lock (`index:${archive.url}`)] serialises the passes on
      one archive; a pass is therefore one uninterrupted computation here. *)

From stdpp Require Import gmap strings list fin_maps.
From Stdlib Require Import ZArith.

Set Warnings "-register-all".

Local Open Scope string_scope.
Local Open Scope Z_scope.
Local Open Scope list_scope.

(** ** JavaScript values and errors *)

Module Js.

(** The values that [JSON.parse], a validator or a preprocessor can hand to
    the indexer ([number] is restricted to integers; nothing below depends
    on fractions). *)
Inductive value : Type :=
| undefined : value
| null : value
| boolean : bool -> value
| number : Z -> value
| str : string -> value
| array : list value -> value
| object : list (string * value) -> value.

(** [if (v)]: every value is truthy except [undefined], [null], [false],
    [0] and the empty string. *)
Definition truthy (v : value) : bool :=
  match v with
  | undefined => false
  | null => false
  | boolean b => b
  | number z => negb (Z.eqb z 0)
  | str s => negb (String.eqb s "")
  | array _ => true
  | object _ => true
  end.

(** The value of a variable bound to [record] after [record] was the
    argument of a call that left [after] in its place. An object or an array
    is handed over by reference: the callee can edit it in place, and it
    stays an object or an array. Any other value is out of the callee's
    reach. *)
Definition edited (record after : value) : value :=
  match record, after with
  | object _, object _ => after
  | array _, array _ => after
  | _, _ => record
  end.

(** A thrown error object; the indexer only ever looks at [e.name]. *)
Record error : Type := Error { name : string; message : string }.

(** [e.name === 'TimeoutError'] *)
Definition isTimeout (e : error) : bool := String.eqb (name e) "TimeoutError".

End Js.

(** The outcome of awaiting a promise: resolved with a value or rejected. *)
Inductive Res (A : Type) : Type :=
| Ok : A -> Res A
| Throw : Js.error -> Res A.
Arguments Ok {A} _.
Arguments Throw {A} _.

(** ** Data model *)

(** One entry of [archive.history ()]. *)
Record Update : Type := mkUpdate {
  path : string;
  type : string;
  version : Z
}.

(** The result of [archive.getInfo ()]. *)
Record ArchiveInfo : Type := mkInfo {
  info_version : Z;
  isOwner : bool
}.

(** The archive handle: its identity. What the archive answers is in [World]. *)
Record Archive : Type := mkArchive {
  url : string;
  localPath : option string
}.

(** The value stored under [archive.url + filepath] in a table's store. *)
Record IndexedRecord : Type := mkIndexed {
  rec_url : string;
  origin : string;
  indexedAt : Z;
  record : Js.value
}.

(** The value stored under [archive.url] in [db._indexMetaLevel]. *)
Record IndexMeta : Type := mkMeta {
  meta_url : string;
  meta_version : Z;
  isWritable : option bool;
  meta_localPath : option string
}.

(** A call [f (record)] of a schema function that returns: the value it
    returns, and the argument as the call leaves it. *)
Record Call : Type := mkCall {
  returned : Js.value;
  argument_after : Js.value
}.

(** A table: [table.name], [table.isRecordFile], [table.schema.validator] and
    [table.schema.preprocess] (both optional, both may throw, both may edit
    the record they are handed). *)
Record Table : Type := mkTable {
  name : string;
  isRecordFile : string -> bool;
  validator : option (Js.value -> Res Call);
  preprocess : option (Js.value -> Res Call)
}.

(** The static part of [db]: [db.tables] in registration order, and
    [anymatch (db._tableFilePatterns, path)] as a predicate on paths. *)
Record Db : Type := mkDb {
  tables : list Table;
  tableFilePatterns : string -> bool
}.

(** The mutable part of [db] and of the archive handles. *)
Record State : Type := mkState {
  levels : list (gmap string IndexedRecord); (* [db.tables[i].level] *)
  indexMetaLevel : gmap string IndexMeta;     (* [db._indexMetaLevel] *)
  archives : gset string;                     (* the keys of [db._archives] *)
  fileEvents : gset string;                   (* archives whose [fileEvents] is set *)
  isOpen : bool;                              (* [db.isOpen] *)
  isBeingOpened : bool;                       (* [db.isBeingOpened] *)
  hasLevel : bool                             (* [db.level] is present *)
}.

(** The signals the indexer emits on [db] and on the tables. *)
Inductive Signal : Type :=
| index_updated (table : string) (archive : string) (v : Z)
| indexes_updated (archive : string) (v : Z)
| index_error (fileUrl : string) (e : Js.error)
| source_missing (archive : string)
| source_found (archive : string)
| source_error (archive : string) (e : Js.error).

(** What a computation does to the outside, in order. *)
Inductive Event : Type :=
| TablePut (i : nat) (key : string) (v : IndexedRecord)
| TableDel (i : nat) (key : string)
| MetaPut (key : string) (m : IndexMeta)
| MetaDel (key : string)
| Emit (sg : Signal)
| Sleep (ms : Z).

(** What the outside answers while one call runs. A store operation with a
    fault rejects and leaves the store as it was. The clock is read once for
    each record that is put: [now w filepath] is the reading taken when the
    record of [filepath] is put. *)
Record World : Type := mkWorld {
  getInfo : Res ArchiveInfo;
  history : Z -> Z -> Res (list Update);
  readFile : string -> Res string;
  listRecordFiles : nat -> Res (list string); (* record URLs of [db.tables[i]] *)
  putFault : nat -> string -> option Js.error;
  delFault : nat -> string -> option Js.error;
  metaGetFault : string -> option Js.error;
  metaPutFault : string -> option Js.error;
  metaDelFault : string -> option Js.error;
  now : string -> Z                           (* [Date.now ()] *)
}.

(** ** The monad of asynchronous computations *)

Definition Eff (A : Type) : Type := State -> Res A * State * list Event.

Definition ret {A} (a : A) : Eff A := fun s => (Ok a, s, []).

Definition bind {A B} (m : Eff A) (k : A -> Eff B) : Eff B :=
  fun s =>
    match m s with
    | (Ok a, s1, t1) =>
        match k a s1 with
        | (r, s2, t2) => (r, s2, t1 ++ t2)
        end
    | (Throw e, s1, t1) => (Throw e, s1, t1)
    end.

(** [try { m } catch (e) { h e }] *)
Definition try_catch {A} (m : Eff A) (h : Js.error -> Eff A) : Eff A :=
  fun s =>
    match m s with
    | (Ok a, s1, t1) => (Ok a, s1, t1)
    | (Throw e, s1, t1) =>
        match h e s1 with
        | (r, s2, t2) => (r, s2, t1 ++ t2)
        end
    end.

(** Awaiting a promise of the outside. *)
Definition await {A} (r : Res A) : Eff A := fun s => (r, s, []).

Definition get_state : Eff State := fun s => (Ok s, s, []).

Definition modify (f : State -> State) : Eff unit := fun s => (Ok tt, f s, []).

Definition tell (ev : Event) : Eff unit := fun s => (Ok tt, s, [ev]).

Definition emit (sg : Signal) : Eff unit := tell (Emit sg).

Notation "'let*' x ':=' m 'in' k" := (bind m (fun x => k))
  (at level 10, x name, m at level 100, k at level 200).
Notation "m ';;' k" := (bind m (fun _ => k))
  (at level 100, k at level 200, right associativity).

(** Projections of a run. *)
Definition result_of {A} (x : Res A * State * list Event) : Res A := x.1.1.
Definition state_of {A} (x : Res A * State * list Event) : State := x.1.2.
Definition trace_of {A} (x : Res A * State * list Event) : list Event := x.2.

(** ** The stores *)

Definition set_levels (f : list (gmap string IndexedRecord) -> list (gmap string IndexedRecord))
    (s : State) : State :=
  mkState (f (levels s)) (indexMetaLevel s) (archives s) (fileEvents s)
          (isOpen s) (isBeingOpened s) (hasLevel s).

Definition set_indexMetaLevel (f : gmap string IndexMeta -> gmap string IndexMeta)
    (s : State) : State :=
  mkState (levels s) (f (indexMetaLevel s)) (archives s) (fileEvents s)
          (isOpen s) (isBeingOpened s) (hasLevel s).

Definition set_fileEvents (f : gset string -> gset string) (s : State) : State :=
  mkState (levels s) (indexMetaLevel s) (archives s) (f (fileEvents s))
          (isOpen s) (isBeingOpened s) (hasLevel s).

(** [await db.tables[i].level.put (key, v)] *)
Definition level_put (w : World) (i : nat) (key : string) (v : IndexedRecord) : Eff unit :=
  fun s =>
    match putFault w i key with
    | Some e => (Throw e, s, [])
    | None => (Ok tt, set_levels (alter (insert key v) i) s, [TablePut i key v])
    end.

(** [await db.tables[i].level.del (key)] *)
Definition level_del (w : World) (i : nat) (key : string) : Eff unit :=
  fun s =>
    match delFault w i key with
    | Some e => (Throw e, s, [])
    | None => (Ok tt, set_levels (alter (delete key) i) s, [TableDel i key])
    end.

(** [await db._indexMetaLevel.get (key)]: rejects when the store cannot be
    read, and with a [NotFoundError] when it holds no such key. *)
Definition meta_get (w : World) (key : string) : Eff IndexMeta :=
  fun s =>
    match metaGetFault w key with
    | Some e => (Throw e, s, [])
    | None =>
        match indexMetaLevel s !! key with
        | Some m => (Ok m, s, [])
        | None => (Throw (Js.Error "NotFoundError" "Key not found in database"), s, [])
        end
    end.

(** [await db._indexMetaLevel.put (key, m)] *)
Definition meta_put (w : World) (key : string) (m : IndexMeta) : Eff unit :=
  fun s =>
    match metaPutFault w key with
    | Some e => (Throw e, s, [])
    | None => (Ok tt, set_indexMetaLevel (insert key m) s, [MetaPut key m])
    end.

(** [await db._indexMetaLevel.del (key)] *)
Definition meta_del (w : World) (key : string) : Eff unit :=
  fun s =>
    match metaDelFault w key with
    | Some e => (Throw e, s, [])
    | None => (Ok tt, set_indexMetaLevel (delete key) s, [MetaDel key])
    end.

(** The record stored for an archive in table [i], if any. *)
Definition stored (s : State) (i : nat) (key : string) : option IndexedRecord :=
  levels s !! i ≫= fun m => m !! key.

(** ** The indexer *)

Section Indexer.

(** [JSON.parse] of the runtime. *)
Variable JSON_parse : string -> Res Js.value.

Variable db : Db.
Variable archive : Archive.

(** *** Record dispatcher *)

(** The [for] loop of [readAndIndexFile] from index [i] on, over the tables
    not yet visited. *)
Fixpoint indexOnFirstMatch (w : World) (filepath : string) (record : Js.value)
    (ts : list Table) (i : nat) : Eff (option string) :=
  match ts with
  | [] => ret None
  | table :: rest =>
      if isRecordFile table filepath then
        (* validate *)
        let* checked :=
          match validator table with
          | None => ret (true, record)
          | Some v =>
              let* call := await (v record) in
              ret (Js.truthy (returned call), Js.edited record (argument_after call))
          end in
        let isValid : bool := checked.1 in
        let record := checked.2 in
        if isValid then
          (* run preprocessor *)
          let* record :=
            match preprocess table with
            | Some p =>
                let* call := await (p record) in
                let newRecord := returned call in
                ret (if Js.truthy newRecord then newRecord
                     else Js.edited record (argument_after call))
            | None => ret record
            end in
          (* save *)
          level_put w i (url archive +:+ filepath)
            (mkIndexed (url archive +:+ filepath) (url archive) (now w filepath) record) ;;
          ret (Some (name table))
        else
          (* delete *)
          level_del w i (url archive +:+ filepath) ;;
          ret (Some (name table))
      else indexOnFirstMatch w filepath record rest (S i)
  end.

(** [readAndIndexFile (db, archive, archiveMeta, filepath)]; the result is
    [Some table.name], or [None] for [false]. *)
Definition readAndIndexFile (w : World) (filepath : string) : Eff (option string) :=
  try_catch
    (let* content := await (readFile w filepath) in
     let* record := await (JSON_parse content) in
     indexOnFirstMatch w filepath record (tables db) 0)
    (fun e => emit (index_error (url archive +:+ filepath) e) ;; ret None).

(** The [for] loop of [unindexFile]. *)
Fixpoint unindexOnFirstMatch (w : World) (filepath : string) (ts : list Table) (i : nat)
    : Eff (option string) :=
  match ts with
  | [] => ret None
  | table :: rest =>
      if isRecordFile table filepath then
        level_del w i (url archive +:+ filepath) ;;
        ret (Some (name table))
      else unindexOnFirstMatch w filepath rest (S i)
  end.

(** [unindexFile (db, archive, filepath)]; its [catch] only writes to the
    console. *)
Definition unindexFile (w : World) (filepath : string) : Eff (option string) :=
  try_catch
    (unindexOnFirstMatch w filepath (tables db) 0)
    (fun e => ret None).

(** *** History scan *)

(** [o[k] = v] on an object whose keys are not array indices: an existing
    key keeps its place in the enumeration order, a new one goes last. *)
Fixpoint obj_set (o : list (string * Update)) (k : string) (v : Update)
    : list (string * Update) :=
  match o with
  | [] => [(k, v)]
  | (k', v') :: rest =>
      if String.eqb k' k then (k', v) :: rest else (k', v') :: obj_set rest k v
  end.

(** [updates[update.path] = update] on the object literal [updates = {}].
    Assigning an object to the key [__proto__] sets the prototype and adds no
    own property, so [Object.keys] never lists that key. *)
Definition assign (o : list (string * Update)) (k : string) (v : Update)
    : list (string * Update) :=
  if String.eqb k "__proto__" then o else obj_set o k v.

(** The callback of [history.forEach]. *)
Definition keepUpdate (updates : list (string * Update)) (update : Update)
    : list (string * Update) :=
  if tableFilePatterns db (path update) then assign updates (path update) update
  else updates.

(** [scanArchiveHistoryForUpdates (db, archive, {start, end})]; the object it
    returns is given by its own entries in the order of [Object.keys]
    (archive paths begin with a slash, so none of them is an array index). *)
Definition scanArchiveHistoryForUpdates (w : World) (start end_ : Z)
    : Eff (list (string * Update)) :=
  let* history := await (history w start end_) in
  ret (fold_left keepUpdate history []).

(** *** Applying the updates *)

(** [Promise.all (xs.map (f))]: every task is started, so every task runs;
    the result rejects with the first rejection. *)
Fixpoint promise_all {A B} (f : A -> Eff B) (xs : list A) : Eff (list B) :=
  match xs with
  | [] => ret []
  | x :: rest =>
      fun s =>
        match f x s with
        | (Ok b, s1, t1) =>
            match promise_all f rest s1 with
            | (Ok bs, s2, t2) => (Ok (b :: bs), s2, t1 ++ t2)
            | (Throw e, s2, t2) => (Throw e, s2, t1 ++ t2)
            end
        | (Throw e, s1, t1) =>
            match promise_all f rest s1 with
            | (_, s2, t2) => (Throw e, s2, t1 ++ t2)
            end
        end
  end.

(** The callback of [Object.keys (updates).map] in [applyUpdates]. *)
Definition applyUpdate (w : World) (entry : string * Update) : Eff (option string) :=
  let update := entry.2 in
  if String.eqb (type update) "del" then unindexFile w (path update)
  else readAndIndexFile w (path update).

(** [applyUpdates (db, archive, archiveMeta, updates)] *)
Definition applyUpdates (w : World) (updates : list (string * Update))
    : Eff (list (option string)) :=
  promise_all (applyUpdate w) updates.

(** *** One indexing pass *)

(** Modelled from the spec: [LevelUtil.update] of [lib/util-level.js], which is
    not among the sources. The specification has the pass persist the new
    watermark in the archive's IndexMeta record [{url, version, isWritable,
    localPath}]: the fields given are written, the others are kept. How it
    reads the record is not in the sources; its read is taken to succeed. *)
Definition LevelUtil_update (w : World) (key : string) (u : string) (v : Z) : Eff unit :=
  let* s := get_state in
  meta_put w key
    (mkMeta u v (indexMetaLevel s !! key ≫= isWritable)
                (indexMetaLevel s !! key ≫= meta_localPath)).

(** The distinct members of [results] in the order of first occurrence:
    the iteration order of [new Set (results)]. *)
Fixpoint set_of (seen : list (option string)) (results : list (option string))
    : list (option string) :=
  match results with
  | [] => []
  | r :: rest =>
      if bool_decide (r ∈ seen) then set_of seen rest
      else r :: set_of (r :: seen) rest
  end.

(** The [for ... of updatedTables] loop; [if (!tableName) continue] skips
    [false] and the empty string. *)
Fixpoint emitIndexUpdated (updatedTables : list (option string)) (v : Z) : Eff unit :=
  match updatedTables with
  | [] => ret tt
  | None :: rest => emitIndexUpdated rest v
  | Some tableName :: rest =>
      if String.eqb tableName "" then emitIndexUpdated rest v
      else emit (index_updated tableName (url archive) v) ;; emitIndexUpdated rest v
  end.

(** [db._indexMetaLevel.get (archive.url).catch (e => null)] *)
Definition getIndexMeta (w : World) : Eff (option IndexMeta) :=
  try_catch (let* indexMeta := meta_get w (url archive) in ret (Some indexMeta))
            (fun e => ret None).

(** [indexArchive (db, archive, needsRebuild)]; [needsRebuild] is only
    logged. *)
Definition indexArchive (w : World) : Eff unit :=
  let* s := get_state in
  (* sanity check *)
  if negb (isOpen s) && negb (isBeingOpened s) then ret tt
  else if negb (hasLevel s) then ret tt
  else
    (* fetch the current state of the archive's index *)
    let* indexMeta := getIndexMeta w in
    let* archiveMeta := await (getInfo w) in
    let indexMeta_version :=
      match indexMeta with
      | Some m => meta_version m
      | None => 0 (* [indexMeta || {version: 0}] *)
      end in
    (* has this version of the archive been processed? *)
    if indexMeta_version >=? info_version archiveMeta then ret tt
    else
      (* find and apply all changes which haven't yet been processed *)
      let* updates :=
        scanArchiveHistoryForUpdates w (indexMeta_version + 1)
                                       (info_version archiveMeta + 1) in
      let* results := applyUpdates w updates in
      (* update meta *)
      LevelUtil_update w (url archive) (url archive) (info_version archiveMeta) ;;
      (* emit *)
      emitIndexUpdated (set_of [] results) (info_version archiveMeta) ;;
      emit (indexes_updated (url archive) (info_version archiveMeta)).

(** *** Watching *)

(** [watchArchive (db, archive)]: attaches the activity stream unless one is
    attached already. The listeners it registers run later, as calls of
    [archive.download] and [indexArchive] of their own. *)
Definition watchArchive : Eff unit :=
  let* s := get_state in
  if bool_decide (url archive ∈ fileEvents s) then ret tt
  else modify (set_fileEvents (fun fe => {[url archive]} ∪ fe)).

(** [unwatchArchive (db, archive)] *)
Definition unwatchArchive : Eff unit :=
  modify (set_fileEvents (fun fe => fe ∖ {[url archive]})).

(** *** Removing an archive *)

(** [table.listRecordFiles (archive)] for the table at index [i]: its
    matches [{table, recordUrl}], where [table] is the table asked. *)
Definition listTable (w : World) (i : nat) : Eff (list (nat * string)) :=
  let* urls := await (listRecordFiles w i) in
  ret (map (pair i) urls).

(** [scanArchiveForRecords (db, archive)]: the matches [{table, recordUrl}]
    of all tables, flattened; a table is given by its index. *)
Definition scanArchiveForRecords (w : World) : Eff (list (nat * string)) :=
  let* recordFiles := promise_all (listTable w) (seq 0 (length (tables db))) in
  ret (concat recordFiles).

(** [unindexArchive (db, archive)] *)
Definition unindexArchive (w : World) : Eff unit :=
  (* find any relevant records and delete them from the indexes *)
  let* recordMatches := scanArchiveForRecords w in
  promise_all (fun m => level_del w m.1 m.2) recordMatches ;;
  meta_del w (url archive).

(** [removeArchive (db, archive)] *)
Definition removeArchive (w : World) : Eff unit :=
  unindexArchive w ;;
  unwatchArchive.

(** *** Resilience loop *)

(** One wake-up of the retry loop: what the rest of the system did to [db]
    while the loop slept, and what the outside answers to the retry. *)
Record Tick : Type := mkTick {
  interference : State -> State;
  world : World
}.

(** How the [while (true)] loop is left; [Asleep] when the wake-ups given
    are used up and the loop is still waiting. *)
Inductive LoopExit : Type := Made | Stopped | Aborted | Asleep.

(** The [while (true)] loop of [onFailInitialIndex]. *)
Fixpoint retryLoop (ticks : list Tick) : Eff LoopExit :=
  match ticks with
  | [] => ret Asleep
  | t :: rest =>
      (* try again every 30 seconds *)
      tell (Sleep 30000) ;;
      modify (interference t) ;;
      (* still a source? *)
      let* s := get_state in
      if negb (isOpen s) || negb (bool_decide (url archive ∈ archives s)) then ret Stopped
      else
        (* re-attempt the index *)
        let* failure :=
          try_catch (indexArchive (world t) ;; ret None) (fun e => ret (Some e)) in
        match failure with
        | None => ret Made
        | Some e =>
            (* abort if we get a non-timeout error *)
            if negb (Js.isTimeout e) then ret Aborted else retryLoop rest
        end
  end.

(** [onFailInitialIndex (e, db, archive)] *)
Definition onFailInitialIndex (e : Js.error) (ticks : list Tick) : Eff unit :=
  if Js.isTimeout e then
    emit (source_missing (url archive)) ;;
    let* exit := retryLoop ticks in
    match exit with
    | Made =>
        (* success *)
        emit (source_found (url archive)) ;;
        watchArchive
    | _ => ret tt
    end
  else emit (source_error (url archive) e).

(** *** Adding an archive *)

(** [addArchive (db, archive)]; [ticks] are the wake-ups of the retry loop
    should the first pass fail. *)
Definition addArchive (w : World) (ticks : list Tick) : Eff unit :=
  (* store entry in the meta db *)
  let* info := await (getInfo w) in
  meta_put w (url archive)
    (mkMeta (url archive) 0 (Some (isOwner info)) (localPath archive)) ;;
  (* process the archive *)
  try_catch
    (indexArchive w ;; watchArchive)
    (fun e => onFailInitialIndex e ticks).

End Indexer.

(** ** Specification vocabulary *)

(** [table] is the first table of [db.tables] that owns [filepath], and [i]
    is its index. *)
Definition first_match (db : Db) (filepath : string) (i : nat) (table : Table) : Prop :=
  exists before after,
    tables db = before ++ table :: after /\
    i = length before /\
    Forall (fun t => isRecordFile t filepath = false) before /\
    isRecordFile table filepath = true.

(** No table owns [filepath]. *)
Definition no_match (db : Db) (filepath : string) : Prop :=
  Forall (fun t => isRecordFile t filepath = false) (tables db).

(** The watermark of the archive [u]: the version of its persisted IndexMeta
    record, 0 when it has none. *)
Definition watermark (s : State) (u : string) : Z :=
  match indexMetaLevel s !! u with
  | Some m => meta_version m
  | None => 0
  end.

(** The watermark as a pass reads it: the stored one, or 0 when the store
    rejects the read ([get (...).catch (e => null)] takes every rejection for
    a missing record). *)
Definition read_watermark (w : World) (s : State) (u : string) : Z :=
  match metaGetFault w u with
  | Some _ => 0
  | None => watermark s u
  end.

(** The validator of [table], when declared, returns a falsy value. *)
Definition rejects (table : Table) (r : Js.value) : Prop :=
  exists v call, validator table = Some v /\ v r = Ok call /\
    Js.truthy (returned call) = false.

(** [table] declares no validator, or its validator returns a truthy value. *)
Definition accepts (table : Table) (r : Js.value) : Prop :=
  validator table = None \/
  exists v call, validator table = Some v /\ v r = Ok call /\
    Js.truthy (returned call) = true.

(** The record [r] as the validator of [table] leaves it. *)
Definition validated (table : Table) (r : Js.value) : Js.value :=
  match validator table with
  | Some v =>
      match v r with
      | Ok call => Js.edited r (argument_after call)
      | Throw _ => r
      end
  | None => r
  end.

(** [r'] is the record to store for [r]: the preprocessor's result when a
    preprocessor is declared and returns a truthy value; in the other cases
    [r] itself, as the validator and the preprocessor leave it. *)
Definition preprocessed (table : Table) (r r' : Js.value) : Prop :=
  (preprocess table = None /\ r' = validated table r) \/
  exists p call, preprocess table = Some p /\ p (validated table r) = Ok call /\
    r' = if Js.truthy (returned call) then returned call
         else Js.edited (validated table r) (argument_after call).

(** What one call of the dispatcher can do: nothing, report an error,
    store one record, or delete one key. *)
Inductive dispatch_outcome (fileUrl : string) (s : State)
  : Res (option string) * State * list Event -> Prop :=
| dispatch_nothing :
    dispatch_outcome fileUrl s (Ok None, s, [])
| dispatch_error e :
    dispatch_outcome fileUrl s (Ok None, s, [Emit (index_error fileUrl e)])
| dispatch_put i v n :
    dispatch_outcome fileUrl s
      (Ok (Some n), set_levels (alter (insert fileUrl v) i) s, [TablePut i fileUrl v])
| dispatch_del i n :
    dispatch_outcome fileUrl s
      (Ok (Some n), set_levels (alter (delete fileUrl) i) s, [TableDel i fileUrl]).

Definition is_table_write (ev : Event) : bool :=
  match ev with
  | TablePut _ _ _ | TableDel _ _ => true
  | _ => false
  end.

Definition is_meta_write (ev : Event) : bool :=
  match ev with
  | MetaPut _ _ | MetaDel _ => true
  | _ => false
  end.

Definition is_store_write (ev : Event) : bool := is_table_write ev || is_meta_write ev.

(** The signals of the resilience loop. *)
Definition is_source_signal (ev : Event) : bool :=
  match ev with
  | Emit (source_missing _) | Emit (source_found _) | Emit (source_error _ _) => true
  | _ => false
  end.

(** Everything of the state but the table stores. *)
Definition same_bookkeeping (s s' : State) : Prop :=
  indexMetaLevel s' = indexMetaLevel s /\
  archives s' = archives s /\
  fileEvents s' = fileEvents s /\
  isOpen s' = isOpen s /\
  isBeingOpened s' = isBeingOpened s /\
  hasLevel s' = hasLevel s.

(** An event of the dispatcher working on the file stored under [fileUrl]:
    an [index-error] signal for it, or a write to that key. *)
Definition dispatch_event (fileUrl : string) (ev : Event) : Prop :=
  (exists e, ev = Emit (index_error fileUrl e)) \/
  (exists i v, ev = TablePut i fileUrl v) \/
  (exists i, ev = TableDel i fileUrl).

(** An event of a batch: an event of the dispatcher working on one of the
    retained updates. *)
Definition batch_event (archive : Archive) (updates : list (string * Update))
    (ev : Event) : Prop :=
  exists entry, entry ∈ updates /\ dispatch_event (url archive +:+ path entry.2) ev.

(** [u] is the latest change to its path in the history slice [h]. *)
Definition latest_in (h : list Update) (u : Update) : Prop :=
  exists earlier later,
    h = earlier ++ u :: later /\
    Forall (fun u' => path u' <> path u) later.

(** What the scan has retained after reading the slice [h]. *)
Definition retained (db : Db) (h : list Update) (updates : list (string * Update)) : Prop :=
  NoDup updates.*1 /\
  (forall k u, (k, u) ∈ updates ->
     k = path u /\ tableFilePatterns db (path u) = true /\
     k <> "__proto__" /\ latest_in h u) /\
  (forall u, u ∈ h -> tableFilePatterns db (path u) = true ->
     path u <> "__proto__" -> path u ∈ updates.*1).

(** The record [LevelUtil.update] leaves for the archive. *)
Definition advanced_meta (archive : Archive) (s : State) (v : Z) : IndexMeta :=
  mkMeta (url archive) v
    (indexMetaLevel s !! url archive ≫= isWritable)
    (indexMetaLevel s !! url archive ≫= meta_localPath).

(** The ways a pass can go. *)
Inductive pass_outcome (JSON_parse : string -> Res Js.value) (db : Db)
    (archive : Archive) (w : World) (s : State)
  : Res unit * State * list Event -> Prop :=
| pass_not_open :
    isOpen s = false -> isBeingOpened s = false ->
    pass_outcome JSON_parse db archive w s (Ok tt, s, [])
| pass_corrupted :
    hasLevel s = false ->
    pass_outcome JSON_parse db archive w s (Ok tt, s, [])
| pass_info_failed e :
    getInfo w = Throw e ->
    pass_outcome JSON_parse db archive w s (Throw e, s, [])
| pass_up_to_date info :
    getInfo w = Ok info ->
    info_version info <= read_watermark w s (url archive) ->
    pass_outcome JSON_parse db archive w s (Ok tt, s, [])
| pass_history_failed info e :
    getInfo w = Ok info ->
    read_watermark w s (url archive) < info_version info ->
    history w (read_watermark w s (url archive) + 1) (info_version info + 1) = Throw e ->
    pass_outcome JSON_parse db archive w s (Throw e, s, [])
| pass_meta_failed info h rs s1 t1 e :
    getInfo w = Ok info ->
    read_watermark w s (url archive) < info_version info ->
    history w (read_watermark w s (url archive) + 1) (info_version info + 1) = Ok h ->
    applyUpdates JSON_parse db archive w (fold_left (keepUpdate db) h []) s = (Ok rs, s1, t1) ->
    metaPutFault w (url archive) = Some e ->
    pass_outcome JSON_parse db archive w s (Throw e, s1, t1)
| pass_advanced info h rs s1 t1 t3 :
    (isOpen s || isBeingOpened s) = true ->
    hasLevel s = true ->
    getInfo w = Ok info ->
    read_watermark w s (url archive) < info_version info ->
    history w (read_watermark w s (url archive) + 1) (info_version info + 1) = Ok h ->
    applyUpdates JSON_parse db archive w (fold_left (keepUpdate db) h []) s = (Ok rs, s1, t1) ->
    metaPutFault w (url archive) = None ->
    Forall (fun ev => exists n, ev = Emit (index_updated n (url archive) (info_version info))) t3 ->
    pass_outcome JSON_parse db archive w s
      (Ok tt,
       set_indexMetaLevel (insert (url archive) (advanced_meta archive s (info_version info))) s1,
       t1 ++ MetaPut (url archive) (advanced_meta archive s (info_version info))
          :: t3 ++ [Emit (indexes_updated (url archive) (info_version info))]).

(** The versions the archive reports along [ws] start at or above [v] and
    never go back. *)
Fixpoint versions_ascend (v : Z) (ws : list World) : Prop :=
  match ws with
  | [] => True
  | w :: rest =>
      match getInfo w with
      | Ok info => v <= info_version info /\ versions_ascend (info_version info) rest
      | Throw _ => versions_ascend v rest
      end
  end.

(** A sequence of passes on one archive, one [World] for each. *)
Fixpoint passes (JSON_parse : string -> Res Js.value) (db : Db) (archive : Archive)
    (ws : list World) (s : State) : State :=
  match ws with
  | [] => s
  | w :: rest =>
      passes JSON_parse db archive rest (state_of (indexArchive JSON_parse db archive w s))
  end.

(** ** A concrete database

    One table [foo] over the files under [/tables/foo/], whose validator
    accepts objects, and one archive with the file [/tables/foo/1.json]. *)

Module Scenario.

(** A runtime that parses the empty object and the number one, and nothing
    else. *)
Definition JSON_parse (text : string) : Res Js.value :=
  if String.eqb text "{}" then Ok (Js.object [])
  else if String.eqb text "1" then Ok (Js.number 1)
  else Throw (Js.Error "SyntaxError" "Unexpected token").

(** A validator that looks at its argument and leaves it alone. *)
Definition is_object (v : Js.value) : Res Call :=
  Ok (mkCall (Js.boolean match v with Js.object _ => true | _ => false end) v).

Definition foo : Table :=
  mkTable "foo" (String.prefix "/tables/foo/") (Some is_object) None.

Definition db : Db := mkDb [foo] (String.prefix "/tables/").

Definition archive : Archive := mkArchive "dat://a" None.

Definition file : string := "/tables/foo/1.json".

Definition key : string := "dat://a/tables/foo/1.json".

Definition put1 : Update := mkUpdate file "put" 1.

Definition timeout : Js.error := Js.Error "TimeoutError" "timed out".

Definition not_found : Js.error := Js.Error "NotFoundError" "not found".

(** The archive holds [file] and reports version [v]; its history is the
    single put of [file] at version 1. *)
Definition online (v : Z) : World :=
  mkWorld
    (Ok (mkInfo v true))
    (fun start end_ =>
       Ok (List.filter (fun u => (start <=? version u) && (version u <? end_))
             [put1]))
    (fun p => if String.eqb p file then Ok "{}" else Throw not_found)
    (fun i => Ok [key])
    (fun _ _ => None) (fun _ _ => None) (fun _ => None) (fun _ => None) (fun _ => None)
    (fun _ => 1000).

(** The same archive out of reach. *)
Definition unreachable : World :=
  mkWorld
    (Throw timeout) (fun _ _ => Throw timeout) (fun _ => Throw timeout)
    (fun _ => Throw timeout)
    (fun _ _ => None) (fun _ _ => None) (fun _ => None) (fun _ => None) (fun _ => None)
    (fun _ => 1000).

(** The archive at version 2, after [file] was deleted, with the change
    typed as the specification's contract words it, and the file gone. *)
Definition world_deleted (ty : string) : World :=
  mkWorld
    (Ok (mkInfo 2 true))
    (fun start end_ =>
       Ok (List.filter (fun u => (start <=? version u) && (version u <? end_))
             [put1; mkUpdate file ty 2]))
    (fun p => Throw not_found)
    (fun i => Ok [])
    (fun _ _ => None) (fun _ _ => None) (fun _ => None) (fun _ => None) (fun _ => None)
    (fun _ => 2000).

(** The archive at version 2, after [file] was overwritten with a number,
    which [foo] does not accept. *)
Definition world_edited : World :=
  mkWorld
    (Ok (mkInfo 2 true))
    (fun start end_ =>
       Ok (List.filter (fun u => (start <=? version u) && (version u <? end_))
             [put1; mkUpdate file "put" 2]))
    (fun p => if String.eqb p file then Ok "1" else Throw not_found)
    (fun i => Ok [key])
    (fun _ _ => None) (fun _ _ => None) (fun _ => None) (fun _ => None) (fun _ => None)
    (fun _ => 2000).

Definition read_error : Js.error := Js.Error "ReadError" "store rejects the read".

(** The archive as [online 1] has it, at a later time, with a meta store
    that cannot be read. *)
Definition read_down : World :=
  mkWorld
    (getInfo (online 1)) (history (online 1)) (readFile (online 1))
    (listRecordFiles (online 1))
    (fun _ _ => None) (fun _ _ => None)
    (fun _ => Some read_error) (fun _ => None) (fun _ => None)
    (fun _ => 5000).

(** The archive at version 3, with a meta store that cannot be read. *)
Definition read_down_later : World :=
  mkWorld
    (Ok (mkInfo 3 true)) (history (online 1)) (readFile (online 1))
    (listRecordFiles (online 1))
    (fun _ _ => None) (fun _ _ => None)
    (fun _ => Some read_error) (fun _ => None) (fun _ => None)
    (fun _ => 5000).

(** A validator that accepts objects and marks them as checked, in place. *)
Definition marks_checked (v : Js.value) : Res Call :=
  match v with
  | Js.object o =>
      Ok (mkCall (Js.boolean true) (Js.object (("checked", Js.boolean true) :: o)))
  | _ => Ok (mkCall (Js.boolean false) v)
  end.

(** Preprocessors that leave their argument alone and return nothing, the
    empty object, and zero. *)
Definition returns_nothing (v : Js.value) : Res Call := Ok (mkCall Js.undefined v).

Definition returns_empty (v : Js.value) : Res Call := Ok (mkCall (Js.object []) v).

Definition returns_zero (v : Js.value) : Res Call := Ok (mkCall (Js.number 0) v).

(** Databases with one table over the same files as [foo]. *)
Definition marking : Table :=
  mkTable "foo" (String.prefix "/tables/foo/") (Some marks_checked) (Some returns_nothing).

Definition emptying : Table :=
  mkTable "foo" (String.prefix "/tables/foo/") None (Some returns_empty).

Definition zeroing : Table :=
  mkTable "foo" (String.prefix "/tables/foo/") None (Some returns_zero).

Definition db_of (table : Table) : Db := mkDb [table] (String.prefix "/tables/").

(** The test of a preprocessor's result as the specification words it: the
    result is defined and not empty. *)
Definition spec_defined_nonempty (v : Js.value) : bool :=
  match v with
  | Js.undefined => false
  | Js.null => false
  | Js.str s => negb (String.eqb s "")
  | Js.array l => match l with [] => false | _ => true end
  | Js.object o => match o with [] => false | _ => true end
  | Js.boolean _ => true
  | Js.number _ => true
  end.

(** An open database with an empty [foo] and the archive managed. *)
Definition fresh : State :=
  mkState [∅] ∅ {["dat://a"]} ∅ true false true.

Definition entry : IndexedRecord := mkIndexed key "dat://a" 1000 (Js.object []).

(** The database after the archive was indexed at version 1. *)
Definition indexed : State :=
  mkState [{[key := entry]}] {["dat://a" := mkMeta "dat://a" 1 (Some true) None]}
          {["dat://a"]} {["dat://a"]} true false true.

(** The surrounding system drops the archive from [db._archives]. *)
Definition drop_source (s : State) : State :=
  mkState (levels s) (indexMetaLevel s) (archives s ∖ {["dat://a"]}) (fileEvents s)
          (isOpen s) (isBeingOpened s) (hasLevel s).

End Scenario.

(** ** The watcher's listener and the rebuild reset *)

Section Listeners.

Variable JSON_parse : string -> Res Js.value.
Variable db : Db.
Variable archive : Archive.

(** The listener of ['changed'] that [watchArchive] registers:
    [indexArchive (db, archive).catch (err => db.emit ('source-error', ...))]. *)
Definition onChanged (w : World) : Eff unit :=
  try_catch
    (indexArchive JSON_parse db archive w)
    (fun err => emit (source_error (url archive) err)).

(** A run of ['changed'] events, one [World] for each; the lock runs their
    passes one after the other. *)
Fixpoint onChangedAll (ws : list World) : Eff unit :=
  match ws with
  | [] => ret tt
  | w :: rest => onChanged w ;; onChangedAll rest
  end.

End Listeners.

(** Modelled from the spec: [LevelUtil.clear] of [lib/util-level.js], which is
    not among the sources. The specification has it clear a table's entire
    store; the trace shows the deletion of every key. *)
Definition LevelUtil_clear (clearFault : nat -> option Js.error) (i : nat) : Eff unit :=
  fun s =>
    match clearFault i with
    | Some e => (Throw e, s, [])
    | None =>
        (Ok tt, set_levels (alter (fun _ => ∅) i) s,
         match levels s !! i with
         | Some m => TableDel i <$> (map_to_list m).*1
         | None => []
         end)
    end.

(** The [for] loop of [resetOutdatedIndexes] over [db.tables], from index
    [i] on. *)
Fixpoint clearTables (clearFault : nat -> option Js.error) (ts : list Table) (i : nat)
    : Eff unit :=
  match ts with
  | [] => ret tt
  | table :: rest =>
      (* clear indexed data *)
      LevelUtil_clear clearFault i ;;
      clearTables clearFault rest (S i)
  end.

(** [indexMeta.version = 0] *)
Definition resetMeta (m : IndexMeta) : IndexMeta :=
  mkMeta (meta_url m) 0 (isWritable m) (meta_localPath m).

(** [resetOutdatedIndexes (db, neededRebuilds)].
    Modelled from the spec: [LevelUtil.each] of [lib/util-level.js], which is
    not among the sources, calls its function on every record of the store;
    the records are taken from the store as it is when the loop is over. *)
Definition resetOutdatedIndexes (db : Db) (w : World) (clearFault : nat -> option Js.error)
    (neededRebuilds : list string) : Eff bool :=
  if Nat.eqb (length neededRebuilds) 0 then ret false
  else
    (* clear tables *)
    clearTables clearFault (tables db) 0 ;;
    (* reset meta records *)
    let* s := get_state in
    promise_all
      (fun indexMeta => meta_put w (meta_url indexMeta) (resetMeta indexMeta))
      (map_to_list (indexMetaLevel s)).*2 ;;
    ret true.

(** ** Further vocabulary *)

(** What a store event does to the table stores. *)
Definition replay_event (ev : Event) (l : list (gmap string IndexedRecord))
    : list (gmap string IndexedRecord) :=
  match ev with
  | TablePut i key v => alter (insert key v) i l
  | TableDel i key => alter (delete key) i l
  | _ => l
  end.

(** The table stores after the events of a trace, in order. *)
Fixpoint replay (t : list Event) (l : list (gmap string IndexedRecord))
    : list (gmap string IndexedRecord) :=
  match t with
  | [] => l
  | ev :: rest => replay rest (replay_event ev l)
  end.

(** The content of key [key] of table [i]: [None] when there is no such
    table, [Some None] when the table has no such key. *)
Definition cell (l : list (gmap string IndexedRecord)) (i : nat) (key : string)
    : option (option IndexedRecord) :=
  (fun m => m !! key) <$> l !! i.

(** What an event writes to key [key] of table [i], if it writes there. *)
Definition write_of (ev : Event) (i : nat) (key : string) : option (option IndexedRecord) :=
  match ev with
  | TablePut j k v => if Nat.eqb j i && String.eqb k key then Some (Some v) else None
  | TableDel j k => if Nat.eqb j i && String.eqb k key then Some None else None
  | _ => None
  end.

(** The last write of a trace to key [key] of table [i]. *)
Fixpoint last_write (t : list Event) (i : nat) (key : string)
    : option (option IndexedRecord) :=
  match t with
  | [] => None
  | ev :: rest =>
      match last_write rest i key with
      | Some x => Some x
      | None => write_of ev i key
      end
  end.

(** Every stored record carries the key it is stored under as its [url]. *)
Definition records_keyed (s : State) : Prop :=
  forall i key r, stored s i key = Some r -> rec_url r = key.

(** Every IndexMeta record is stored under its own [url]. *)
Definition well_keyed (s : State) : Prop :=
  forall key m, indexMetaLevel s !! key = Some m -> meta_url m = key.

(** The same outside at other clock readings. *)
Definition at_clock (w : World) (clock : string -> Z) : World :=
  mkWorld (getInfo w) (history w) (readFile w) (listRecordFiles w)
          (putFault w) (delFault w) (metaGetFault w) (metaPutFault w) (metaDelFault w)
          clock.

(** The same outside later on, at the clock readings [clock], with a meta
    store that takes every write. *)
Definition repaired (w : World) (clock : string -> Z) : World :=
  mkWorld (getInfo w) (history w) (readFile w) (listRecordFiles w)
          (putFault w) (delFault w) (metaGetFault w) (fun _ => None) (metaDelFault w)
          clock.

(** The members of [updatedTables] that get an [index-updated] signal. *)
Definition names_of (updatedTables : list (option string)) : list string :=
  omap (fun r => match r with
                 | Some n => if String.eqb n "" then None else Some n
                 | None => None
                 end) updatedTables.

(** The number of timer waits in a trace. *)
Definition sleeps (t : list Event) : nat :=
  length (List.filter (fun ev => match ev with Sleep _ => true | _ => false end) t).

(** The ways a call of the dispatcher for [filepath] goes, whatever the
    state it starts in and whatever the clock shows: [run clock] is the call
    at the clock readings [clock]. *)
Inductive dispatch_case (db : Db) (archive : Archive) (filepath : string)
    (run : (string -> Z) -> Eff (option string)) : Prop :=
| case_nothing :
    (forall clock s, run clock s = (Ok None, s, [])) ->
    dispatch_case db archive filepath run
| case_error e :
    (forall clock s,
       run clock s = (Ok None, s, [Emit (index_error (url archive +:+ filepath) e)])) ->
    dispatch_case db archive filepath run
| case_put i table r' :
    first_match db filepath i table ->
    (forall clock s, run clock s =
       (Ok (Some (name table)),
        set_levels
          (alter (insert (url archive +:+ filepath)
                    (mkIndexed (url archive +:+ filepath) (url archive)
                       (clock filepath) r')) i) s,
        [TablePut i (url archive +:+ filepath)
           (mkIndexed (url archive +:+ filepath) (url archive) (clock filepath) r')])) ->
    dispatch_case db archive filepath run
| case_del i table :
    first_match db filepath i table ->
    (forall clock s, run clock s =
       (Ok (Some (name table)),
        set_levels (alter (delete (url archive +:+ filepath)) i) s,
        [TableDel i (url archive +:+ filepath)])) ->
    dispatch_case db archive filepath run.

(** [s'] differs from [s] at most in key [key] of table [i]. *)
Definition touches_only (i : nat) (key : string) (s s' : State) : Prop :=
  same_bookkeeping s s' /\
  length (levels s') = length (levels s) /\
  forall j k, j <> i \/ k <> key -> stored s' j k = stored s j k.

(** A table event of a pass on [archive] at the clock readings [clock]: it
    goes to a key of the archive, and a record it stores says so and carries
    the reading of its file. *)
Definition own_event (archive : Archive) (clock : string -> Z) (ev : Event) : Prop :=
  match ev with
  | TablePut i key v =>
      (exists filepath, key = url archive +:+ filepath /\ indexedAt v = clock filepath) /\
      rec_url v = key /\ origin v = url archive
  | TableDel i key => exists filepath, key = url archive +:+ filepath
  | Emit (index_error _ _) => True
  | _ => False
  end.

(** What a stored record says apart from its timestamp. *)
Definition content_of (v : IndexedRecord) : string * string * Js.value :=
  (rec_url v, origin v, record v).

(** A stored record, and an event, without the timestamp. *)
Definition untimed_record (v : IndexedRecord) : IndexedRecord :=
  mkIndexed (rec_url v) (origin v) 0 (record v).

Definition untimed (ev : Event) : Event :=
  match ev with
  | TablePut i key v => TablePut i key (untimed_record v)
  | _ => ev
  end.

(** Every IndexMeta record of [s'] is keyed by its [url] or was in [s]
    under the same key. *)
Definition meta_step (s s' : State) : Prop :=
  forall key m, indexMetaLevel s' !! key = Some m ->
    meta_url m = key \/ indexMetaLevel s !! key = Some m.

(** ** Further concrete cases *)

Module Cases.

Import Scenario.

Definition store_error : Js.error := Js.Error "WriteError" "store rejects the write".

(** The archive at version 1 with a table store that rejects every put. *)
Definition put_down : World :=
  mkWorld (getInfo (online 1)) (history (online 1)) (readFile (online 1))
          (listRecordFiles (online 1))
          (fun _ _ => Some store_error) (fun _ _ => None)
          (fun _ => None) (fun _ => None) (fun _ => None)
          (fun _ => 1000).

(** The same with a table store that rejects every delete. *)
Definition del_down : World :=
  mkWorld (getInfo (online 1)) (history (online 1)) (readFile (online 1))
          (listRecordFiles (online 1))
          (fun _ _ => None) (fun _ _ => Some store_error)
          (fun _ => None) (fun _ => None) (fun _ => None)
          (fun _ => 1000).

(** The same with a meta store that rejects every put. *)
Definition meta_down : World :=
  mkWorld (getInfo (online 1)) (history (online 1)) (readFile (online 1))
          (listRecordFiles (online 1))
          (fun _ _ => None) (fun _ _ => None)
          (fun _ => None) (fun _ => Some store_error) (fun _ => None)
          (fun _ => 1000).

(** The same with tables that cannot list their record files. *)
Definition no_listing : World :=
  mkWorld (getInfo (online 1)) (history (online 1)) (readFile (online 1))
          (fun _ => Throw store_error)
          (fun _ _ => None) (fun _ _ => None) (fun _ => None) (fun _ => None) (fun _ => None)
          (fun _ => 1000).

(** An archive at version 1 whose only change is to a file outside the
    tables. *)
Definition elsewhere : World :=
  mkWorld (Ok (mkInfo 1 true))
          (fun start end_ =>
             Ok (List.filter (fun u => (start <=? version u) && (version u <? end_))
                   [mkUpdate "/dat.json" "put" 1]))
          (fun p => Throw not_found)
          (fun _ => Ok [])
          (fun _ _ => None) (fun _ _ => None) (fun _ => None) (fun _ => None) (fun _ => None)
          (fun _ => 1000).

(** An archive that reports version 1 and whose history cannot be read. *)
Definition no_history : World :=
  mkWorld (Ok (mkInfo 1 true)) (fun _ _ => Throw not_found) (readFile (online 1))
          (listRecordFiles (online 1))
          (fun _ _ => None) (fun _ _ => None) (fun _ => None) (fun _ => None) (fun _ => None)
          (fun _ => 1000).

(** The archive at version 2, after a second file was added. *)
Definition second_file : World :=
  mkWorld (Ok (mkInfo 2 true))
          (fun start end_ =>
             Ok (List.filter (fun u => (start <=? version u) && (version u <? end_))
                   [put1; mkUpdate "/tables/foo/2.json" "put" 2]))
          (fun p => Ok "{}")
          (fun _ => Ok [])
          (fun _ _ => None) (fun _ _ => None) (fun _ => None) (fun _ => None) (fun _ => None)
          (fun _ => 2000).

Definition other_key : string := "dat://b/tables/foo/9.json".

Definition other_entry : IndexedRecord := mkIndexed other_key "dat://b" 500 (Js.object []).

Definition other_meta : IndexMeta := mkMeta "dat://b" 7 (Some false) None.

(** An open database that holds a record and the IndexMeta record of another
    archive. *)
Definition shared : State :=
  mkState [{[other_key := other_entry]}] {["dat://b" := other_meta]}
          {["dat://a"; "dat://b"]} ∅ true false true.

End Cases.

(** * Proofs *)

(** ** Properties of the dispatcher *)

Lemma append_inj_r (a b c : string) : a +:+ b = a +:+ c -> b = c.
Proof.
  induction a as [|ch a IH]; simpl; [done|].
  intros H. injection H as H. auto.
Qed.

Section DispatcherFacts.

Context (JSON_parse : string -> Res Js.value) (db : Db) (archive : Archive).

Lemma indexOnFirstMatch_outcome w filepath r ts i s :
  (exists e, indexOnFirstMatch archive w filepath r ts i s = (Throw e, s, [])) \/
  dispatch_outcome (url archive +:+ filepath) s
    (indexOnFirstMatch archive w filepath r ts i s).
Proof.
  revert i. induction ts as [|table rest IH]; intros i; simpl.
  - right. constructor.
  - destruct (isRecordFile table filepath); [|apply IH].
    unfold bind, await, ret, level_put, level_del.
    destruct (validator table) as [v|].
    + destruct (v r) as [call|e]; [|left; eauto]. simpl.
      destruct (Js.truthy (returned call)).
      * destruct (preprocess table) as [p|].
        -- destruct (p _) as [call'|e]; [|left; eauto].
           destruct (putFault w i _) as [e|]; [left; eauto|].
           right. apply dispatch_put.
        -- destruct (putFault w i _) as [e|]; [left; eauto|].
           right. apply dispatch_put.
      * destruct (delFault w i _) as [e|]; [left; eauto|].
        right. apply dispatch_del.
    + simpl. destruct (preprocess table) as [p|].
      * destruct (p r) as [call'|e]; [|left; eauto].
        destruct (putFault w i _) as [e|]; [left; eauto|].
        right. apply dispatch_put.
      * destruct (putFault w i _) as [e|]; [left; eauto|].
        right. apply dispatch_put.
Qed.

Lemma readAndIndexFile_outcome w filepath s :
  dispatch_outcome (url archive +:+ filepath) s
    (readAndIndexFile JSON_parse db archive w filepath s).
Proof.
  unfold readAndIndexFile, try_catch, bind, await, emit, tell, ret.
  destruct (readFile w filepath) as [content|e]; [|apply dispatch_error].
  destruct (JSON_parse content) as [r|e]; [|apply dispatch_error].
  destruct (indexOnFirstMatch_outcome w filepath r (tables db) 0%nat s) as [[e He]|H].
  - rewrite He. apply dispatch_error.
  - inversion H as [Heq|e Heq|i v n Heq|i n Heq]; constructor.
Qed.

Lemma unindexOnFirstMatch_outcome w filepath ts i s :
  (exists e, unindexOnFirstMatch archive w filepath ts i s = (Throw e, s, [])) \/
  dispatch_outcome (url archive +:+ filepath) s
    (unindexOnFirstMatch archive w filepath ts i s).
Proof.
  revert i. induction ts as [|table rest IH]; intros i; simpl.
  - right. constructor.
  - destruct (isRecordFile table filepath); [|apply IH].
    unfold bind, ret, level_del.
    destruct (delFault w i _) as [e|]; [left; eauto|].
    right. apply dispatch_del.
Qed.

Lemma unindexFile_outcome w filepath s :
  dispatch_outcome (url archive +:+ filepath) s (unindexFile db archive w filepath s).
Proof.
  unfold unindexFile, try_catch, ret.
  destruct (unindexOnFirstMatch_outcome w filepath (tables db) 0%nat s) as [[e He]|H].
  - rewrite He. apply dispatch_nothing.
  - inversion H as [Heq|e Heq|i v n Heq|i n Heq]; constructor.
Qed.

End DispatcherFacts.

Section DispatchTheorems.

Context (JSON_parse : string -> Res Js.value) (db : Db) (archive : Archive).

Lemma indexOnFirstMatch_skip w filepath r before ts i :
  Forall (fun t => isRecordFile t filepath = false) before ->
  indexOnFirstMatch archive w filepath r (before ++ ts) i =
  indexOnFirstMatch archive w filepath r ts (length before + i).
Proof.
  intros H. revert i. induction H as [|t before Ht _ IH]; intros i; simpl; [done|].
  rewrite Ht, IH. f_equal. lia.
Qed.

Lemma unindexOnFirstMatch_skip w filepath before ts i :
  Forall (fun t => isRecordFile t filepath = false) before ->
  unindexOnFirstMatch archive w filepath (before ++ ts) i =
  unindexOnFirstMatch archive w filepath ts (length before + i).
Proof.
  intros H. revert i. induction H as [|t before Ht _ IH]; intros i; simpl; [done|].
  rewrite Ht, IH. f_equal. lia.
Qed.

Lemma stored_alter f i key s :
  stored (set_levels (alter f i) s) i key = levels s !! i ≫= fun m => f m !! key.
Proof.
  unfold stored, set_levels; simpl.
  rewrite list_lookup_alter_eq. by destruct (levels s !! i).
Qed.

Lemma stored_alter_delete i key s :
  stored (set_levels (alter (delete key) i) s) i key = None.
Proof.
  rewrite stored_alter. destruct (levels s !! i); simpl; [|done].
  apply lookup_delete_eq.
Qed.

Lemma stored_alter_insert i key v s :
  is_Some (levels s !! i) ->
  stored (set_levels (alter (insert key v) i) s) i key = Some v.
Proof.
  intros [m Hm]. rewrite stored_alter, Hm. simpl. apply lookup_insert_eq.
Qed.

Lemma unindexFile_first_match w filepath i table s :
  first_match db filepath i table ->
  delFault w i (url archive +:+ filepath) = None ->
  unindexFile db archive w filepath s =
    (Ok (Some (name table)),
     set_levels (alter (delete (url archive +:+ filepath)) i) s,
     [TableDel i (url archive +:+ filepath)]).
Proof.
  intros (before & after & Htables & -> & Hbefore & Hmatch) Hdel.
  unfold unindexFile, try_catch. rewrite Htables.
  rewrite unindexOnFirstMatch_skip by done. simpl.
  rewrite Hmatch. unfold bind, ret, level_del.
  replace (length before + 0)%nat with (length before) by lia.
  by rewrite Hdel.
Qed.

(** C10. [readAndIndexFile] and [unindexFile] never reject: whatever the file
    read, [JSON.parse], the validator, the preprocessor and the table store
    do, each call resolves with a table name or with [false]; and for a path
    that no table owns both resolve with [false], leave the database as it
    was and write to no store. *)
Theorem dispatch_total w filepath s :
  (exists r, result_of (readAndIndexFile JSON_parse db archive w filepath s) = Ok r) /\
  (exists r, result_of (unindexFile db archive w filepath s) = Ok r) /\
  (no_match db filepath ->
     result_of (readAndIndexFile JSON_parse db archive w filepath s) = Ok None /\
     state_of (readAndIndexFile JSON_parse db archive w filepath s) = s /\
     Forall (fun ev => is_store_write ev = false)
       (trace_of (readAndIndexFile JSON_parse db archive w filepath s)) /\
     unindexFile db archive w filepath s = (Ok None, s, [])).
Proof.
  split; [|split].
  - destruct (readAndIndexFile_outcome JSON_parse db archive w filepath s); simpl; eauto.
  - destruct (unindexFile_outcome db archive w filepath s); simpl; eauto.
  - intros Hno. unfold no_match in Hno.
    assert (Hloop : forall r,
      indexOnFirstMatch archive w filepath r (tables db) 0 s = (Ok None, s, [])).
    { intros r. rewrite <- (app_nil_r (tables db)).
      by rewrite indexOnFirstMatch_skip. }
    assert (Hun : unindexOnFirstMatch archive w filepath (tables db) 0 s = (Ok None, s, [])).
    { rewrite <- (app_nil_r (tables db)). by rewrite unindexOnFirstMatch_skip. }
    unfold unindexFile, readAndIndexFile, try_catch, bind, await, emit, tell, ret.
    rewrite Hun.
    destruct (readFile w filepath) as [content|e]; simpl.
    + destruct (JSON_parse content) as [r|e]; simpl.
      * rewrite Hloop. simpl. repeat split; auto.
      * repeat split; auto.
    + repeat split; auto.
Qed.

Lemma readAndIndexFile_first_match w filepath s content r before table after :
  readFile w filepath = Ok content ->
  JSON_parse content = Ok r ->
  tables db = before ++ table :: after ->
  Forall (fun t => isRecordFile t filepath = false) before ->
  readAndIndexFile JSON_parse db archive w filepath s =
    try_catch
      (indexOnFirstMatch archive w filepath r (table :: after) (length before))
      (fun e => emit (index_error (url archive +:+ filepath) e) ;; ret None) s.
Proof.
  intros Hread Hparse Htables Hbefore.
  unfold readAndIndexFile, try_catch, bind, await.
  rewrite Hread, Hparse, Htables.
  rewrite indexOnFirstMatch_skip by done.
  replace (length before + 0)%nat with (length before) by lia.
  by destruct (indexOnFirstMatch _ _ _ _ _ _ _) as [[[]]].
Qed.

Lemma readAndIndexFile_del w filepath s content r i table :
  readFile w filepath = Ok content ->
  JSON_parse content = Ok r ->
  first_match db filepath i table ->
  rejects table r ->
  delFault w i (url archive +:+ filepath) = None ->
  readAndIndexFile JSON_parse db archive w filepath s =
    (Ok (Some (name table)),
     set_levels (alter (delete (url archive +:+ filepath)) i) s,
     [TableDel i (url archive +:+ filepath)]).
Proof.
  intros Hread Hparse (before & after & Htables & -> & Hbefore & Hmatch).
  intros (v & out & Hv & Hout & Hfalsy) Hdel.
  rewrite (readAndIndexFile_first_match _ _ _ _ _ _ _ _ Hread Hparse Htables Hbefore).
  unfold try_catch. simpl. rewrite Hmatch.
  unfold bind, await, ret, level_del. by rewrite Hv, Hout, Hfalsy, Hdel.
Qed.

Lemma readAndIndexFile_put w filepath s content r r' i table :
  readFile w filepath = Ok content ->
  JSON_parse content = Ok r ->
  first_match db filepath i table ->
  accepts table r ->
  preprocessed table r r' ->
  putFault w i (url archive +:+ filepath) = None ->
  readAndIndexFile JSON_parse db archive w filepath s =
    (Ok (Some (name table)),
     set_levels
       (alter (insert (url archive +:+ filepath)
                 (mkIndexed (url archive +:+ filepath) (url archive) (now w filepath) r')) i) s,
     [TablePut i (url archive +:+ filepath)
        (mkIndexed (url archive +:+ filepath) (url archive) (now w filepath) r')]).
Proof.
  intros Hread Hparse (before & after & Htables & -> & Hbefore & Hmatch).
  intros Hacc Hpre Hput.
  rewrite (readAndIndexFile_first_match _ _ _ _ _ _ _ _ Hread Hparse Htables Hbefore).
  unfold try_catch. simpl. rewrite Hmatch.
  unfold preprocessed, validated in Hpre.
  unfold bind, await, ret, level_put.
  destruct Hacc as [Hv|(v & call & Hv & Hcall & Htruthy)];
    rewrite Hv in Hpre |- *; rewrite ?Hcall in Hpre |- *; simpl; rewrite ?Htruthy;
    destruct Hpre as [[Hp ->]|(p & call' & Hp & Hcall' & ->)];
    rewrite Hp, ?Hcall'; simpl; by rewrite Hput.
Qed.

(** C4. A file whose content parses and whose path is owned by some table is
    dispatched to the first such table. When that table's validator rejects
    the record, the entry at [archive.url + filepath] is deleted from the
    table's store. When it accepts, or none is declared, a record is stored
    there as [{url, origin, indexedAt, record}]: the preprocessor's result
    when a preprocessor is declared and its result is truthy, and in the
    other cases the parsed record as the validator and the preprocessor
    leave it. Both ways the call returns the table's name. *)
Theorem readAndIndexFile_dispatch w filepath s content r i table :
  readFile w filepath = Ok content ->
  JSON_parse content = Ok r ->
  first_match db filepath i table ->
  (rejects table r ->
   delFault w i (url archive +:+ filepath) = None ->
     readAndIndexFile JSON_parse db archive w filepath s =
       (Ok (Some (name table)),
        set_levels (alter (delete (url archive +:+ filepath)) i) s,
        [TableDel i (url archive +:+ filepath)]) /\
     stored (state_of (readAndIndexFile JSON_parse db archive w filepath s))
            i (url archive +:+ filepath) = None) /\
  (forall r',
   accepts table r ->
   preprocessed table r r' ->
   putFault w i (url archive +:+ filepath) = None ->
     let entry :=
       mkIndexed (url archive +:+ filepath) (url archive) (now w filepath) r' in
     readAndIndexFile JSON_parse db archive w filepath s =
       (Ok (Some (name table)),
        set_levels (alter (insert (url archive +:+ filepath) entry) i) s,
        [TablePut i (url archive +:+ filepath) entry]) /\
     (is_Some (levels s !! i) ->
      stored (state_of (readAndIndexFile JSON_parse db archive w filepath s))
             i (url archive +:+ filepath) = Some entry)).
Proof.
  intros Hread Hparse Hfirst. split.
  - intros Hrej Hdel.
    rewrite (readAndIndexFile_del w filepath s content r i table) by done.
    split; [done|]. apply stored_alter_delete.
  - intros r' Hacc Hpre Hput entry.
    rewrite (readAndIndexFile_put w filepath s content r r' i table) by done.
    split; [done|]. intros Hi. by apply stored_alter_insert.
Qed.

End DispatchTheorems.

(** ** Properties of a batch *)

Lemma same_bookkeeping_refl s : same_bookkeeping s s.
Proof. by repeat split. Qed.

Lemma same_bookkeeping_trans s1 s2 s3 :
  same_bookkeeping s1 s2 -> same_bookkeeping s2 s3 -> same_bookkeeping s1 s3.
Proof.
  unfold same_bookkeeping. intros (?&?&?&?&?&?) (?&?&?&?&?&?).
  repeat split; congruence.
Qed.

Lemma same_bookkeeping_levels f s : same_bookkeeping s (set_levels f s).
Proof. by repeat split. Qed.

Lemma dispatch_outcome_inv fileUrl s x :
  dispatch_outcome fileUrl s x ->
  exists r s' t, x = (Ok r, s', t) /\ same_bookkeeping s s' /\
    Forall (dispatch_event fileUrl) t.
Proof.
  intros [|e|i v n|i n]; eexists _, _, _; (split; [reflexivity|]).
  - split; [apply same_bookkeeping_refl|constructor].
  - split; [apply same_bookkeeping_refl|].
    apply Forall_cons. split; [left; eauto|constructor].
  - split; [apply same_bookkeeping_levels|].
    apply Forall_cons. split; [right; left; eauto|constructor].
  - split; [apply same_bookkeeping_levels|].
    apply Forall_cons. split; [right; right; eauto|constructor].
Qed.

Section BatchTheorems.

Context (JSON_parse : string -> Res Js.value) (db : Db) (archive : Archive).

Lemma applyUpdate_outcome w entry s :
  dispatch_outcome (url archive +:+ path entry.2) s
    (applyUpdate JSON_parse db archive w entry s).
Proof.
  unfold applyUpdate. destruct (String.eqb _ _).
  - apply unindexFile_outcome.
  - apply readAndIndexFile_outcome.
Qed.

Lemma applyUpdates_cons w entry rest s r s1 t1 rs s2 t2 :
  applyUpdate JSON_parse db archive w entry s = (Ok r, s1, t1) ->
  applyUpdates JSON_parse db archive w rest s1 = (Ok rs, s2, t2) ->
  applyUpdates JSON_parse db archive w (entry :: rest) s = (Ok (r :: rs), s2, t1 ++ t2).
Proof.
  intros H1 H2. unfold applyUpdates in *. simpl. by rewrite H1, H2.
Qed.

Lemma applyUpdates_run w updates s :
  exists rs s' t,
    applyUpdates JSON_parse db archive w updates s = (Ok rs, s', t) /\
    same_bookkeeping s s' /\
    Forall (batch_event archive updates) t.
Proof.
  revert s. induction updates as [|entry rest IH]; intros s.
  - exists [], s, []. split; [done|]. split; [apply same_bookkeeping_refl|constructor].
  - destruct (dispatch_outcome_inv _ _ _ (applyUpdate_outcome w entry s))
      as (r & s1 & t1 & H1 & Hb1 & Ht1).
    destruct (IH s1) as (rs & s2 & t2 & H2 & Hb2 & Ht2).
    exists (r :: rs), s2, (t1 ++ t2). split; [exact (applyUpdates_cons _ _ _ _ _ _ _ _ _ _ H1 H2)|].
    split; [exact (same_bookkeeping_trans _ _ _ Hb1 Hb2)|].
    apply Forall_app. split.
    + eapply Forall_impl; [exact Ht1|]. intros ev Hev. exists entry. split; [apply elem_of_cons; by left|done].
    + eapply Forall_impl; [exact Ht2|]. intros ev (en & Hen & Hev). exists en.
      split; [apply elem_of_cons; by right|done].
Qed.

Lemma applyUpdates_app w l1 l2 s rs1 s1 t1 rs2 s2 t2 :
  applyUpdates JSON_parse db archive w l1 s = (Ok rs1, s1, t1) ->
  applyUpdates JSON_parse db archive w l2 s1 = (Ok rs2, s2, t2) ->
  applyUpdates JSON_parse db archive w (l1 ++ l2) s = (Ok (rs1 ++ rs2), s2, t1 ++ t2).
Proof.
  revert s rs1 t1. induction l1 as [|entry rest IH]; intros s rs1 t1 H1 H2.
  - injection H1 as <- <- <-. done.
  - destruct (dispatch_outcome_inv _ _ _ (applyUpdate_outcome w entry s))
      as (r & sa & ta & Ha & _ & _).
    destruct (applyUpdates_run w rest sa) as (rsb & sb & tb & Hb & _ & _).
    rewrite (applyUpdates_cons _ _ _ _ _ _ _ _ _ _ Ha Hb) in H1.
    injection H1 as <- <- <-.
    simpl. rewrite <- app_assoc.
    eapply (applyUpdates_cons _ _ _ _ _ _ _ _ _ _ Ha).
    by eapply IH.
Qed.

(** C3. An update is dispatched by comparing its type with the string
    ["del"]: an update of that type goes to [unindexFile], which deletes the
    entry at [archive.url + path] from the first table that owns the path;
    an update of any other type - ["put"], and also ["delete"] - goes to
    [readAndIndexFile], which creates or overwrites the entry at that key:
    when the file's content parses and the first table that owns the path
    accepts the record, the new entry is what is stored there afterwards,
    whatever was stored before. *)
Theorem applyUpdate_by_type w entry s :
  (type entry.2 = "del" ->
     applyUpdate JSON_parse db archive w entry s = unindexFile db archive w (path entry.2) s /\
     forall i table,
       first_match db (path entry.2) i table ->
       delFault w i (url archive +:+ path entry.2) = None ->
       applyUpdate JSON_parse db archive w entry s =
         (Ok (Some (name table)),
          set_levels (alter (delete (url archive +:+ path entry.2)) i) s,
          [TableDel i (url archive +:+ path entry.2)]) /\
       stored (state_of (applyUpdate JSON_parse db archive w entry s))
              i (url archive +:+ path entry.2) = None) /\
  (type entry.2 <> "del" ->
     applyUpdate JSON_parse db archive w entry s =
       readAndIndexFile JSON_parse db archive w (path entry.2) s /\
     forall content r r' i table,
       readFile w (path entry.2) = Ok content ->
       JSON_parse content = Ok r ->
       first_match db (path entry.2) i table ->
       accepts table r ->
       preprocessed table r r' ->
       putFault w i (url archive +:+ path entry.2) = None ->
       let fileUrl := url archive +:+ path entry.2 in
       let value := mkIndexed fileUrl (url archive) (now w (path entry.2)) r' in
       applyUpdate JSON_parse db archive w entry s =
         (Ok (Some (name table)),
          set_levels (alter (insert fileUrl value) i) s,
          [TablePut i fileUrl value]) /\
       (is_Some (levels s !! i) ->
        stored (state_of (applyUpdate JSON_parse db archive w entry s)) i fileUrl
          = Some value)).
Proof.
  unfold applyUpdate. split.
  - intros ->. simpl. split; [done|]. intros i table Hfirst Hdel.
    rewrite (unindexFile_first_match db archive w _ i table s Hfirst Hdel).
    split; [done|]. apply stored_alter_delete.
  - intros Hne. apply String.eqb_neq in Hne. rewrite Hne. split; [done|].
    intros content r r' i table Hread Hparse Hfirst Hacc Hpre Hput.
    rewrite (readAndIndexFile_put JSON_parse db archive w (path entry.2) s content r r' i table)
      by done.
    split; [done|]. intros Hi. by apply stored_alter_insert.
Qed.

(** C6. A file of a batch whose read or parse fails is caught inside
    [readAndIndexFile]: the call resolves with [false], changes nothing and
    emits one [index-error] signal carrying the file's URL and the error.
    The batch goes on: the files before and after it are applied exactly as
    in the batch without the failing file, and the failing file adds nothing
    but its own signal. *)
Theorem failing_file_isolated w before after entry e s :
  type entry.2 <> "del" ->
  (readFile w (path entry.2) = Throw e \/
   exists content, readFile w (path entry.2) = Ok content /\ JSON_parse content = Throw e) ->
  readAndIndexFile JSON_parse db archive w (path entry.2) s =
    (Ok None, s, [Emit (index_error (url archive +:+ path entry.2) e)]) /\
  exists rs1 s1 t1 rs2 s2 t2,
    applyUpdates JSON_parse db archive w before s = (Ok rs1, s1, t1) /\
    applyUpdates JSON_parse db archive w after s1 = (Ok rs2, s2, t2) /\
    applyUpdates JSON_parse db archive w (before ++ after) s =
      (Ok (rs1 ++ rs2), s2, t1 ++ t2) /\
    applyUpdates JSON_parse db archive w (before ++ entry :: after) s =
      (Ok (rs1 ++ None :: rs2), s2,
       t1 ++ Emit (index_error (url archive +:+ path entry.2) e) :: t2).
Proof.
  intros Htype Hfail.
  assert (Hone : forall s0, readAndIndexFile JSON_parse db archive w (path entry.2) s0 =
    (Ok None, s0, [Emit (index_error (url archive +:+ path entry.2) e)])).
  { intros s0. unfold readAndIndexFile, try_catch, bind, await, emit, tell, ret.
    destruct Hfail as [->|(content & -> & ->)]; done. }
  split; [apply Hone|].
  destruct (applyUpdates_run w before s) as (rs1 & s1 & t1 & H1 & _ & _).
  destruct (applyUpdates_run w after s1) as (rs2 & s2 & t2 & H2 & _ & _).
  exists rs1, s1, t1, rs2, s2, t2. split; [done|]. split; [done|].
  split; [by eapply applyUpdates_app|].
  eapply applyUpdates_app; [exact H1|].
  change (Emit (index_error (url archive +:+ path entry.2) e) :: t2)
    with ([Emit (index_error (url archive +:+ path entry.2) e)] ++ t2).
  eapply applyUpdates_cons; [|exact H2].
  unfold applyUpdate. apply String.eqb_neq in Htype. rewrite Htype. apply Hone.
Qed.

End BatchTheorems.

(** ** Properties of the history scan *)

Section ScanFacts.

Context (db : Db).

Lemma obj_set_keys o k v x :
  x ∈ (obj_set o k v).*1 <-> x = k \/ x ∈ o.*1.
Proof.
  induction o as [|[k' v'] rest IH]; simpl.
  - rewrite elem_of_cons, elem_of_nil. tauto.
  - destruct (String.eqb k' k) eqn:E; simpl.
    + apply String.eqb_eq in E as ->. rewrite !elem_of_cons. tauto.
    + rewrite !elem_of_cons, IH. tauto.
Qed.

Lemma obj_set_NoDup o k v : NoDup o.*1 -> NoDup (obj_set o k v).*1.
Proof.
  induction o as [|[k' v'] rest IH]; simpl; intros Hnd.
  - apply NoDup_singleton.
  - apply NoDup_cons in Hnd as [Hk' Hrest].
    destruct (String.eqb k' k) eqn:E; simpl.
    + apply NoDup_cons. done.
    + apply NoDup_cons. split; [|auto].
      rewrite obj_set_keys. intros [->|?]; [|done].
      by rewrite String.eqb_refl in E.
Qed.

Lemma obj_set_entries o k v k0 u :
  NoDup o.*1 ->
  (k0, u) ∈ obj_set o k v ->
  (k0 = k /\ u = v) \/ (k0 <> k /\ (k0, u) ∈ o).
Proof.
  induction o as [|[k' v'] rest IH]; simpl; intros Hnd Hin.
  - apply list_elem_of_singleton in Hin. injection Hin as -> ->. by left.
  - apply NoDup_cons in Hnd as [Hk' Hrest].
    destruct (String.eqb k' k) eqn:E.
    + apply String.eqb_eq in E as ->.
      apply elem_of_cons in Hin as [Hin|Hin].
      * injection Hin as -> ->. by left.
      * right. split; [|apply elem_of_cons; by right].
        intros ->. apply Hk'. apply list_elem_of_fmap. by exists (k, u).
    + apply String.eqb_neq in E.
      apply elem_of_cons in Hin as [Hin|Hin].
      * injection Hin as -> ->. right. split; [done|apply elem_of_cons; by left].
      * destruct (IH Hrest Hin) as [?|[? ?]]; [by left|].
        right. split; [done|apply elem_of_cons; by right].
Qed.

Lemma latest_in_snoc_other h u x :
  latest_in h u -> path x <> path u -> latest_in (h ++ [x]) u.
Proof.
  intros (earlier & later & -> & Hlater) Hne.
  exists earlier, (later ++ [x]). split.
  - by rewrite <- app_assoc.
  - apply Forall_app. split; [done|]. by apply Forall_singleton.
Qed.

Lemma latest_in_snoc h x : latest_in (h ++ [x]) x.
Proof. exists h, []. split; [done|constructor]. Qed.

Lemma keepUpdate_retained h updates x :
  retained db h updates -> retained db (h ++ [x]) (keepUpdate db updates x).
Proof.
  intros (Hnd & Hsound & Hcomplete). unfold keepUpdate, assign.
  destruct (tableFilePatterns db (path x)) eqn:Hpat;
    [destruct (String.eqb (path x) "__proto__") eqn:Hproto|].
  - (* the prototype is set, the own entries stay *)
    apply String.eqb_eq in Hproto.
    split; [done|]. split.
    + intros k u Hin. destruct (Hsound k u Hin) as (-> & ? & ? & ?).
      repeat split; try done. apply latest_in_snoc_other; [done|congruence].
    + intros u Hin Hu Hnp. apply elem_of_app in Hin as [Hin|Hin]; [by apply Hcomplete|].
      apply list_elem_of_singleton in Hin as ->. done.
  - (* the entry of the path is written *)
    apply String.eqb_neq in Hproto.
    split; [by apply obj_set_NoDup|]. split.
    + intros k u Hin.
      destruct (obj_set_entries _ _ _ _ _ Hnd Hin) as [[-> ->]|[Hne Hold]].
      * repeat split; try done. apply latest_in_snoc.
      * destruct (Hsound k u Hold) as (-> & ? & ? & ?).
        repeat split; try done. apply latest_in_snoc_other; [done|congruence].
    + intros u Hin Hu Hnp. apply obj_set_keys.
      apply elem_of_app in Hin as [Hin|Hin]; [right; by apply Hcomplete|].
      apply list_elem_of_singleton in Hin as ->. by left.
  - (* the path matches no pattern *)
    split; [done|]. split.
    + intros k u Hin. destruct (Hsound k u Hin) as (-> & ? & ? & ?).
      repeat split; try done. apply latest_in_snoc_other; [done|congruence].
    + intros u Hin Hu Hnp. apply elem_of_app in Hin as [Hin|Hin]; [by apply Hcomplete|].
      apply list_elem_of_singleton in Hin as ->. congruence.
Qed.

Lemma scan_retained h : retained db h (fold_left (keepUpdate db) h []).
Proof.
  induction h as [|x h IH] using rev_ind.
  - split; [constructor|]. split.
    + intros k u Hin. by apply elem_of_nil in Hin.
    + intros u Hin. by apply elem_of_nil in Hin.
  - rewrite fold_left_app. simpl. by apply keepUpdate_retained.
Qed.

End ScanFacts.

(** ** Properties of an indexing pass *)

Section PassFacts.

Context (JSON_parse : string -> Res Js.value) (db : Db) (archive : Archive).

Lemma emitIndexUpdated_run updatedTables v s :
  exists t, emitIndexUpdated archive updatedTables v s = (Ok tt, s, t) /\
    Forall (fun ev => exists n, ev = Emit (index_updated n (url archive) v)) t.
Proof.
  induction updatedTables as [|[n|] rest (t & IH & Ht)]; simpl.
  - exists []. split; [done|constructor].
  - destruct (String.eqb n ""); [by exists t|].
    exists (Emit (index_updated n (url archive) v) :: t).
    unfold bind, emit, tell. rewrite IH. split; [done|].
    apply Forall_cons. split; [by exists n|done].
  - by exists t.
Qed.

Lemma getIndexMeta_run w s :
  exists indexMeta,
    getIndexMeta archive w s = (Ok indexMeta, s, []) /\
    match indexMeta with
    | Some m => meta_version m
    | None => 0
    end = read_watermark w s (url archive).
Proof.
  unfold getIndexMeta, try_catch, bind, meta_get, ret, read_watermark, watermark.
  destruct (metaGetFault w (url archive)); [by exists None|].
  destruct (indexMetaLevel s !! url archive) as [m|]; [by exists (Some m)|by exists None].
Qed.

Lemma indexArchive_outcome w s :
  pass_outcome JSON_parse db archive w s (indexArchive JSON_parse db archive w s).
Proof.
  unfold indexArchive, bind, get_state.
  rewrite <- negb_orb.
  destruct (isOpen s || isBeingOpened s) eqn:Hready; simpl.
  2: { apply orb_false_elim in Hready as [? ?]. by apply pass_not_open. }
  destruct (hasLevel s) eqn:Hlevel; simpl; [|by apply pass_corrupted].
  destruct (getIndexMeta_run w s) as (indexMeta & -> & ->).
  unfold await, scanArchiveHistoryForUpdates, bind, await, ret.
  destruct (getInfo w) as [info|e] eqn:Hinfo; [|by apply pass_info_failed].
  destruct (Z.geb_spec (read_watermark w s (url archive)) (info_version info)) as [Hge|Hlt].
  { apply (pass_up_to_date _ _ _ _ _ info); [done|lia]. }
  destruct (history w _ _) as [h|e] eqn:Hhist; [|by eapply pass_history_failed].
  destruct (applyUpdates_run JSON_parse db archive w (fold_left (keepUpdate db) h []) s)
    as (rs & s1 & t1 & Happly & Hbook & _).
  rewrite Happly.
  unfold LevelUtil_update, bind, get_state, meta_put.
  destruct Hbook as (Hmeta & _).
  destruct (metaPutFault w (url archive)) as [e|] eqn:Hfault; simpl.
  { rewrite app_nil_r. by eapply pass_meta_failed. }
  rewrite Hmeta. fold (advanced_meta archive s (info_version info)).
  destruct (emitIndexUpdated_run (set_of [] rs) (info_version info)
    (set_indexMetaLevel (insert (url archive) (advanced_meta archive s (info_version info))) s1))
    as (t3 & Hemit & Ht3).
  rewrite Hemit. unfold emit, tell. simpl.
  by eapply (pass_advanced _ _ _ _ _ info h rs s1 t1 t3).
Qed.

End PassFacts.

Section PassTheorems.

Context (JSON_parse : string -> Res Js.value) (db : Db) (archive : Archive).

Lemma batch_event_no_meta updates ev :
  batch_event archive updates ev -> is_meta_write ev = false.
Proof.
  intros (entry & _ & [(e & ->)|[(i & v & ->)|(i & ->)]]); done.
Qed.

Lemma watermark_set_meta s m :
  watermark (set_indexMetaLevel (insert (url archive) m) s) (url archive) = meta_version m.
Proof. unfold watermark, set_indexMetaLevel; simpl. by rewrite lookup_insert_eq. Qed.

Lemma watermark_same_bookkeeping s s' u :
  same_bookkeeping s s' -> watermark s' u = watermark s u.
Proof. intros (Hmeta & _). unfold watermark. by rewrite Hmeta. Qed.

Lemma indexArchive_guarded w s :
  (isOpen s || isBeingOpened s) = false \/ hasLevel s = false ->
  indexArchive JSON_parse db archive w s = (Ok tt, s, []).
Proof.
  intros H. unfold indexArchive, bind, get_state. rewrite <- negb_orb.
  destruct (isOpen s || isBeingOpened s); simpl; [|done].
  destruct H as [H|H]; [done|by rewrite H].
Qed.

Lemma read_watermark_fine w s u :
  metaGetFault w u = None -> read_watermark w s u = watermark s u.
Proof. intros H. unfold read_watermark. by rewrite H. Qed.

Lemma read_watermark_zero w s u :
  watermark s u = 0 -> read_watermark w s u = 0.
Proof. intros H. unfold read_watermark. by destruct (metaGetFault w u). Qed.

Lemma indexArchive_up_to_date w s info :
  getInfo w = Ok info ->
  info_version info <= read_watermark w s (url archive) ->
  indexArchive JSON_parse db archive w s = (Ok tt, s, []).
Proof.
  intros Hinfo Hle. unfold indexArchive, bind, get_state.
  destruct (negb (isOpen s) && negb (isBeingOpened s)); [done|].
  destruct (negb (hasLevel s)); [done|].
  destruct (getIndexMeta_run archive w s) as (indexMeta & -> & ->).
  unfold await. rewrite Hinfo.
  destruct (Z.geb_spec (read_watermark w s (url archive)) (info_version info)); [done|lia].
Qed.

Lemma indexArchive_proceeds w s info h :
  (isOpen s || isBeingOpened s) = true ->
  hasLevel s = true ->
  getInfo w = Ok info ->
  read_watermark w s (url archive) < info_version info ->
  history w (read_watermark w s (url archive) + 1) (info_version info + 1) = Ok h ->
  exists rs s1 t1 t3,
    applyUpdates JSON_parse db archive w (fold_left (keepUpdate db) h []) s = (Ok rs, s1, t1) /\
    same_bookkeeping s s1 /\
    Forall (batch_event archive (fold_left (keepUpdate db) h [])) t1 /\
    Forall (fun ev => exists n, ev = Emit (index_updated n (url archive) (info_version info))) t3 /\
    indexArchive JSON_parse db archive w s =
      match metaPutFault w (url archive) with
      | Some e => (Throw e, s1, t1)
      | None =>
          (Ok tt,
           set_indexMetaLevel
             (insert (url archive) (advanced_meta archive s (info_version info))) s1,
           t1 ++ MetaPut (url archive) (advanced_meta archive s (info_version info))
              :: t3 ++ [Emit (indexes_updated (url archive) (info_version info))])
      end.
Proof.
  intros Hready Hlevel Hinfo Hlt Hhist.
  destruct (applyUpdates_run JSON_parse db archive w (fold_left (keepUpdate db) h []) s)
    as (rs & s1 & t1 & Happly & Hbook & Ht1).
  destruct (emitIndexUpdated_run archive (set_of [] rs) (info_version info)
    (set_indexMetaLevel (insert (url archive) (advanced_meta archive s (info_version info))) s1))
    as (t3 & Hemit & Ht3).
  exists rs, s1, t1, t3. repeat (split; [done|]).
  unfold indexArchive, bind, get_state. rewrite <- negb_orb, Hready, Hlevel. simpl.
  destruct (getIndexMeta_run archive w s) as (indexMeta & -> & ->).
  unfold await, scanArchiveHistoryForUpdates, bind, await, ret. rewrite Hinfo.
  destruct (Z.geb_spec (read_watermark w s (url archive)) (info_version info)); [lia|].
  rewrite Hhist, Happly.
  unfold LevelUtil_update, bind, get_state, meta_put.
  destruct Hbook as (Hmeta & _).
  destruct (metaPutFault w (url archive)) as [e|]; simpl.
  { by rewrite app_nil_r. }
  rewrite Hmeta. fold (advanced_meta archive s (info_version info)).
  rewrite Hemit. unfold emit, tell. done.
Qed.

(** The watermark after a pass: as before, or the version the archive
    reported, which was ahead of the watermark as the pass read it. *)
Lemma pass_watermark w s :
  watermark (state_of (indexArchive JSON_parse db archive w s)) (url archive)
    = watermark s (url archive) \/
  exists info, getInfo w = Ok info /\
    read_watermark w s (url archive) < info_version info /\
    watermark (state_of (indexArchive JSON_parse db archive w s)) (url archive)
      = info_version info.
Proof.
  destruct (indexArchive_outcome JSON_parse db archive w s)
    as [| | | | |info h rs s1 t1 e Hinfo Hlt Hhist Happly Hfault
        |info h rs s1 t1 t3 Hready Hlevel Hinfo Hlt Hhist Happly Hfault Ht3];
    try (by left).
  - left. destruct (applyUpdates_run JSON_parse db archive w (fold_left (keepUpdate db) h []) s)
      as (rs' & s1' & t1' & Happly' & Hbook & _).
    rewrite Happly in Happly'. injection Happly' as <- <- <-.
    by apply watermark_same_bookkeeping.
  - right. exists info. split; [done|]. split; [done|].
    unfold state_of; simpl. apply watermark_set_meta.
Qed.

Lemma passes_app ws1 ws2 s :
  passes JSON_parse db archive (ws1 ++ ws2) s =
  passes JSON_parse db archive ws2 (passes JSON_parse db archive ws1 s).
Proof. revert s. induction ws1 as [|w ws1 IH]; intros s; simpl; [done|apply IH]. Qed.

Lemma passes_monotone ws s :
  Forall (fun w => metaGetFault w (url archive) = None) ws ->
  watermark s (url archive) <= watermark (passes JSON_parse db archive ws s) (url archive).
Proof.
  intros Hws. revert s. induction Hws as [|w ws Hw _ IH]; intros s; simpl; [lia|].
  etrans; [|apply IH].
  destruct (pass_watermark w s) as [->|(info & _ & Hlt & ->)]; [lia|].
  rewrite read_watermark_fine in Hlt by done. lia.
Qed.

Lemma passes_ascend ws s v :
  watermark s (url archive) <= v ->
  versions_ascend v ws ->
  watermark s (url archive) <= watermark (passes JSON_parse db archive ws s) (url archive).
Proof.
  revert s v. induction ws as [|w ws IH]; intros s v Hs Hws; simpl; [lia|].
  simpl in Hws.
  destruct (pass_watermark w s) as [Heq|(info & Hinfo & _ & Heq)].
  - etrans; [|apply (IH _ (match getInfo w with
                           | Ok info => info_version info
                           | Throw _ => v
                           end))].
    + lia.
    + rewrite Heq. destruct (getInfo w); [lia|done].
    + destruct (getInfo w); [tauto|done].
  - rewrite Hinfo in Hws. destruct Hws as (Hv & Hws).
    etrans; [|apply (IH _ (info_version info))]; [lia|lia|done].
Qed.

Lemma passes_bounded ws s V :
  watermark s (url archive) <= V ->
  Forall (fun w => forall info, getInfo w = Ok info -> info_version info <= V) ws ->
  watermark (passes JSON_parse db archive ws s) (url archive) <= V.
Proof.
  intros Hs Hws. revert s Hs. induction Hws as [|w ws Hw _ IH]; intros s Hs; simpl; [done|].
  apply IH.
  destruct (pass_watermark w s) as [->|(info & Hinfo & _ & ->)]; [done|by apply Hw].
Qed.

Lemma filter_none {A} (f : A -> bool) l :
  Forall (fun x => f x = false) l -> List.filter f l = [].
Proof. induction 1 as [|x l Hx _ IH]; simpl; [done|by rewrite Hx]. Qed.

Lemma index_updated_no_write v t :
  Forall (fun ev => exists n, ev = Emit (index_updated n (url archive) v)) t ->
  Forall (fun ev => is_store_write ev = false) (t ++ [Emit (indexes_updated (url archive) v)]).
Proof.
  intros H. apply Forall_app. split.
  - eapply Forall_impl; [exact H|]. by intros ev (n & ->).
  - by apply Forall_singleton.
Qed.

Lemma store_write_split l :
  Forall (fun ev => is_store_write ev = false) l ->
  Forall (fun ev => is_table_write ev = false) l /\
  Forall (fun ev => is_meta_write ev = false) l.
Proof.
  intros H. split; (eapply Forall_impl; [exact H|]); intros ev Hev;
    unfold is_store_write in Hev; by apply orb_false_elim in Hev as [? ?].
Qed.

(** C1. Along every sequence of passes on an archive the watermark never
    decreases - when the passes read the stored watermark, and also when a
    read is rejected as long as the versions the archive reports start at or
    above the watermark and never go back - and it never exceeds the
    archive's current version [V] when it started at or below [V] and no pass
    was told a version above [V]. One pass writes the watermark at most once:
    either it writes no meta record and the watermark stays, or it resolves
    having written exactly one, the version the archive reported, and every
    table write of the pass precedes that write. A pass that finds the
    archive ahead of the watermark it read and whose reads and meta write
    succeed does write it. *)
Theorem watermark_discipline ws1 ws2 w s :
  (Forall (fun w' => metaGetFault w' (url archive) = None) ws2 \/
   versions_ascend (watermark (passes JSON_parse db archive ws1 s) (url archive)) ws2 ->
   watermark (passes JSON_parse db archive ws1 s) (url archive)
     <= watermark (passes JSON_parse db archive (ws1 ++ ws2) s) (url archive)) /\
  (forall V,
     watermark s (url archive) <= V ->
     Forall (fun w' => forall info, getInfo w' = Ok info -> info_version info <= V) ws1 ->
     watermark (passes JSON_parse db archive ws1 s) (url archive) <= V) /\
  ((List.filter is_meta_write (trace_of (indexArchive JSON_parse db archive w s)) = [] /\
    watermark (state_of (indexArchive JSON_parse db archive w s)) (url archive)
      = watermark s (url archive)) \/
   (exists info t1 t3,
      getInfo w = Ok info /\
      result_of (indexArchive JSON_parse db archive w s) = Ok tt /\
      trace_of (indexArchive JSON_parse db archive w s) =
        t1 ++ MetaPut (url archive) (advanced_meta archive s (info_version info)) :: t3 /\
      List.filter is_meta_write (trace_of (indexArchive JSON_parse db archive w s)) =
        [MetaPut (url archive) (advanced_meta archive s (info_version info))] /\
      Forall (fun ev => is_table_write ev = false) t3 /\
      watermark (state_of (indexArchive JSON_parse db archive w s)) (url archive)
        = info_version info)) /\
  (forall info h,
     (isOpen s || isBeingOpened s) = true ->
     hasLevel s = true ->
     getInfo w = Ok info ->
     read_watermark w s (url archive) < info_version info ->
     history w (read_watermark w s (url archive) + 1) (info_version info + 1) = Ok h ->
     metaPutFault w (url archive) = None ->
     result_of (indexArchive JSON_parse db archive w s) = Ok tt /\
     List.filter is_meta_write (trace_of (indexArchive JSON_parse db archive w s)) =
       [MetaPut (url archive) (advanced_meta archive s (info_version info))] /\
     watermark (state_of (indexArchive JSON_parse db archive w s)) (url archive)
       = info_version info).
Proof.
  assert (Hcount : forall info t1 t3,
    Forall (batch_event archive t1.1) t1.2 ->
    Forall (fun ev => exists n, ev = Emit (index_updated n (url archive) (info_version info))) t3 ->
    List.filter is_meta_write
      (t1.2 ++ MetaPut (url archive) (advanced_meta archive s (info_version info))
          :: t3 ++ [Emit (indexes_updated (url archive) (info_version info))]) =
      [MetaPut (url archive) (advanced_meta archive s (info_version info))]).
  { intros info t1 t3 Ht1 Ht3. rewrite List.filter_app. simpl.
    rewrite (filter_none is_meta_write t1.2).
    2: { eapply Forall_impl; [exact Ht1|]. intros ev. apply batch_event_no_meta. }
    rewrite (filter_none is_meta_write (t3 ++ _)); [done|].
    by apply store_write_split, index_updated_no_write. }
  split; [|split; [|split]].
  - rewrite passes_app. intros [Hfine|Hascend].
    + by apply passes_monotone.
    + eapply passes_ascend; [|exact Hascend]. lia.
  - intros V. apply passes_bounded.
  - destruct (indexArchive_outcome JSON_parse db archive w s)
      as [| | | | |info h rs s1 t1 e Hinfo Hlt Hhist Happly Hfault
          |info h rs s1 t1 t3 Hready Hlevel Hinfo Hlt Hhist Happly Hfault Ht3];
      try (by left).
    + left.
      destruct (applyUpdates_run JSON_parse db archive w (fold_left (keepUpdate db) h []) s)
        as (rs' & s1' & t1' & Happly' & Hbook & Ht1).
      rewrite Happly in Happly'. injection Happly' as <- <- <-.
      split; [|by apply watermark_same_bookkeeping].
      apply filter_none. eapply Forall_impl; [exact Ht1|].
      intros ev. apply batch_event_no_meta.
    + right.
      destruct (applyUpdates_run JSON_parse db archive w (fold_left (keepUpdate db) h []) s)
        as (rs' & s1' & t1' & Happly' & Hbook & Ht1).
      rewrite Happly in Happly'. injection Happly' as <- <- <-.
      exists info, t1, (t3 ++ [Emit (indexes_updated (url archive) (info_version info))]).
      split; [done|]. split; [done|]. split; [done|].
      split; [exact (Hcount info (_, t1) t3 Ht1 Ht3)|].
      split; [by apply store_write_split, index_updated_no_write|].
      apply watermark_set_meta.
  - intros info h Hready Hlevel Hinfo Hlt Hhist Hfault.
    destruct (indexArchive_proceeds w s info h Hready Hlevel Hinfo Hlt Hhist)
      as (rs & s1 & t1 & t3 & Happly & Hbook & Ht1 & Ht3 & ->).
    rewrite Hfault. split; [done|].
    split; [exact (Hcount info (_, t1) t3 Ht1 Ht3)|].
    apply watermark_set_meta.
Qed.


(** C5. A pass that has work to do scans the history slice from
    [watermark + 1] to [currentVersion + 1], with the watermark as the pass
    read it. The update set it computes has at most one update per path;
    each retained update matches the table file patterns and is the latest
    change to its path in the slice, and every matching path of the slice is
    retained. The pass dispatches each retained update once and nothing
    else: every table write of the pass goes to the key of a retained
    update, so no earlier change to a path is applied. *)
Theorem scan_keeps_latest w s info h :
  (isOpen s || isBeingOpened s) = true ->
  hasLevel s = true ->
  getInfo w = Ok info ->
  read_watermark w s (url archive) < info_version info ->
  history w (read_watermark w s (url archive) + 1) (info_version info + 1) = Ok h ->
  exists updates,
    scanArchiveHistoryForUpdates db w
      (read_watermark w s (url archive) + 1) (info_version info + 1) s = (Ok updates, s, []) /\
    NoDup updates.*1 /\
    (forall k u, (k, u) ∈ updates ->
       k = path u /\ tableFilePatterns db (path u) = true /\ latest_in h u) /\
    (forall u, u ∈ h -> tableFilePatterns db (path u) = true ->
       path u <> "__proto__" -> path u ∈ updates.*1) /\
    exists rs s1 t1 t2,
      applyUpdates JSON_parse db archive w updates s = (Ok rs, s1, t1) /\
      length rs = length updates /\
      trace_of (indexArchive JSON_parse db archive w s) = t1 ++ t2 /\
      Forall (batch_event archive updates) t1 /\
      Forall (fun ev => is_table_write ev = false) t2 /\
      levels (state_of (indexArchive JSON_parse db archive w s)) = levels s1.
Proof.
  intros Hready Hlevel Hinfo Hlt Hhist.
  exists (fold_left (keepUpdate db) h []).
  destruct (scan_retained db h) as (Hnd & Hsound & Hcomplete).
  split. { unfold scanArchiveHistoryForUpdates, bind, await, ret. by rewrite Hhist. }
  split; [done|]. split.
  { intros k u Hin. destruct (Hsound k u Hin) as (? & ? & ? & ?). done. }
  split; [done|].
  destruct (indexArchive_proceeds w s info h Hready Hlevel Hinfo Hlt Hhist)
    as (rs & s1 & t1 & t3 & Happly & Hbook & Ht1 & Ht3 & ->).
  assert (Hlen : length rs = length (fold_left (keepUpdate db) h [])).
  { clear -Happly. revert s rs s1 t1 Happly.
    induction (fold_left (keepUpdate db) h []) as [|entry rest IH]; intros s rs s1 t1 Happly.
    - by injection Happly as <- _ _.
    - destruct (dispatch_outcome_inv _ _ _ (applyUpdate_outcome JSON_parse db archive w entry s))
        as (r & sa & ta & Ha & _ & _).
      destruct (applyUpdates_run JSON_parse db archive w rest sa)
        as (rsb & sb & tb & Hb & _ & _).
      rewrite (applyUpdates_cons _ _ _ _ _ _ _ _ _ _ _ _ _ Ha Hb) in Happly.
      injection Happly as <- _ _. simpl. f_equal. by eapply IH. }
  destruct (metaPutFault w (url archive)) as [e|].
  - exists rs, s1, t1, []. rewrite app_nil_r. repeat (split; [done|]). done.
  - exists rs, s1, t1,
      (MetaPut (url archive) (advanced_meta archive s (info_version info))
         :: t3 ++ [Emit (indexes_updated (url archive) (info_version info))]).
    repeat (split; [done|]). split; [|done].
    apply Forall_cons. split; [done|].
    by apply store_write_split, index_updated_no_write.
Qed.

End PassTheorems.

(** ** Properties of the archive lifecycle *)

Section LifecycleFacts.

Context (JSON_parse : string -> Res Js.value) (db : Db) (archive : Archive).

Lemma watchArchive_run s :
  exists s',
    watchArchive archive s = (Ok tt, s', []) /\
    levels s' = levels s /\
    indexMetaLevel s' = indexMetaLevel s /\
    archives s' = archives s /\
    url archive ∈ fileEvents s'.
Proof.
  unfold watchArchive, bind, get_state, modify, ret.
  case_bool_decide as Hin; simpl.
  - exists s. by repeat split.
  - eexists. split; [reflexivity|]. repeat split; simpl. set_solver.
Qed.

Lemma indexArchive_quiet w s :
  Forall (fun ev => is_source_signal ev = false)
    (trace_of (indexArchive JSON_parse db archive w s)).
Proof.
  assert (Hbatch : forall updates t,
    Forall (batch_event archive updates) t ->
    Forall (fun ev => is_source_signal ev = false) t).
  { intros updates t Ht. eapply Forall_impl; [exact Ht|].
    by intros ev (entry & _ & [(e & ->)|[(i & v & ->)|(i & ->)]]). }
  destruct (indexArchive_outcome JSON_parse db archive w s)
    as [| | | | |info h rs s1 t1 e Hinfo Hlt Hhist Happly Hfault
        |info h rs s1 t1 t3 Hready Hlevel Hinfo Hlt Hhist Happly Hfault Ht3];
    try (by constructor).
  all: destruct (applyUpdates_run JSON_parse db archive w (fold_left (keepUpdate db) h []) s)
    as (rs' & s1' & t1' & Happly' & _ & Ht1).
  all: rewrite Happly in Happly'; injection Happly' as <- <- <-.
  all: unfold trace_of; simpl.
  - by eapply Hbatch.
  - apply Forall_app. split; [by eapply Hbatch|].
    apply Forall_cons. split; [done|].
    apply Forall_app. split; [|by apply Forall_singleton].
    eapply Forall_impl; [exact Ht3|]. by intros ev (n & ->).
Qed.

Lemma retryLoop_step t rest s :
  retryLoop JSON_parse db archive (t :: rest) s =
    if negb (isOpen (interference t s))
       || negb (bool_decide (url archive ∈ archives (interference t s)))
    then (Ok Stopped, interference t s, [Sleep 30000])
    else
      match indexArchive JSON_parse db archive (world t) (interference t s) with
      | (Ok _, s2, tr) => (Ok Made, s2, Sleep 30000 :: tr)
      | (Throw e, s2, tr) =>
          if negb (Js.isTimeout e) then (Ok Aborted, s2, Sleep 30000 :: tr)
          else
            match retryLoop JSON_parse db archive rest s2 with
            | (exit, s3, tr') => (exit, s3, Sleep 30000 :: tr ++ tr')
            end
      end.
Proof.
  simpl. unfold bind, tell, modify, get_state, try_catch, ret. simpl.
  destruct (negb (isOpen (interference t s)) || _); [done|].
  destruct (indexArchive _ _ _ _ _) as [[[[]|e] s2] tr]; simpl.
  - by rewrite !app_nil_r.
  - rewrite !app_nil_r. destruct (negb (Js.isTimeout e)); simpl.
    + by rewrite app_nil_r.
    + by destruct (retryLoop _ _ _ _ _) as [[exit s3] tr'].
Qed.

Lemma retryLoop_run ticks s :
  exists exit s' t,
    retryLoop JSON_parse db archive ticks s = (Ok exit, s', t) /\
    Forall (fun ev => is_source_signal ev = false) t.
Proof.
  revert s. induction ticks as [|t rest IH]; intros s.
  - exists Asleep, s, []. split; [done|constructor].
  - rewrite retryLoop_step.
    destruct (negb (isOpen (interference t s)) || _).
    { eexists _, _, _. split; [reflexivity|]. by apply Forall_singleton. }
    pose proof (indexArchive_quiet (world t) (interference t s)) as Hquiet.
    destruct (indexArchive _ _ _ _ _) as [[[[]|e] s2] tr]; unfold trace_of in Hquiet;
      simpl in Hquiet.
    { eexists _, _, _. split; [reflexivity|]. by apply Forall_cons. }
    destruct (negb (Js.isTimeout e)).
    { eexists _, _, _. split; [reflexivity|]. by apply Forall_cons. }
    destruct (IH s2) as (exit & s3 & tr' & -> & Htr').
    eexists _, _, _. split; [reflexivity|].
    apply Forall_cons. split; [done|]. by apply Forall_app.
Qed.

Lemma stored_delete_preserved s i key j key' :
  stored s i key = None ->
  stored (set_levels (alter (delete key') j) s) i key = None.
Proof.
  unfold stored, set_levels; simpl. intros H.
  destruct (decide (j = i)) as [->|Hne].
  - rewrite list_lookup_alter_eq. destruct (levels s !! i) as [m|]; simpl in *; [|done].
    apply lookup_delete_None. by right.
  - by rewrite list_lookup_alter_ne.
Qed.

Lemma delete_all_run w (ms : list (nat * string)) s :
  exists r s' t,
    promise_all (fun m => level_del w m.1 m.2) ms s = (r, s', t) /\
    same_bookkeeping s s' /\
    (forall i key, stored s i key = None -> stored s' i key = None) /\
    (forall rs, r = Ok rs -> forall i key, (i, key) ∈ ms -> stored s' i key = None).
Proof.
  revert s. induction ms as [|[j key'] rest IH]; intros s.
  - exists (Ok []), s, []. split; [done|]. split; [apply same_bookkeeping_refl|].
    split; [done|]. intros rs _ i key Hin. by apply elem_of_nil in Hin.
  - simpl. unfold level_del at 1. simpl.
    destruct (delFault w j key') as [e|].
    + destruct (IH s) as (r & s' & t & -> & Hbook & Hkeep & _).
      exists (Throw e), s', t. split; [done|]. split; [done|]. split; [done|].
      intros rs Hrs. discriminate.
    + destruct (IH (set_levels (alter (delete key') j) s))
        as (r & s' & t & -> & Hbook & Hkeep & Hall).
      destruct r as [rs|e].
      * eexists _, _, _. split; [reflexivity|].
        split. { eapply same_bookkeeping_trans; [apply same_bookkeeping_levels|exact Hbook]. }
        split. { intros i key Hnone. by apply Hkeep, stored_delete_preserved. }
        intros rs' _ i key Hin. apply elem_of_cons in Hin as [Heq|Hin].
        -- injection Heq as -> ->. apply Hkeep, stored_alter_delete.
        -- by eapply Hall.
      * eexists _, _, _. split; [reflexivity|].
        split. { eapply same_bookkeeping_trans; [apply same_bookkeeping_levels|exact Hbook]. }
        split. { intros i key Hnone. by apply Hkeep, stored_delete_preserved. }
        intros rs' Hrs. discriminate.
Qed.

Lemma list_all_run w (l : list nat) s :
  exists r,
    promise_all (listTable w) l s = (r, s, []) /\
    (forall rs, r = Ok rs ->
       forall i urls key, i ∈ l -> listRecordFiles w i = Ok urls -> key ∈ urls ->
         (i, key) ∈ concat rs).
Proof.
  induction l as [|j rest (r & IH & Hall)]; simpl.
  - exists (Ok []). split; [done|]. intros rs _ i urls key Hin. by apply elem_of_nil in Hin.
  - unfold listTable at 1, bind, await, ret.
    destruct (listRecordFiles w j) as [urls'|e] eqn:Hlist; rewrite IH.
    + destruct r as [rs|e].
      * eexists. split; [reflexivity|].
        intros rs' Hrs i urls key Hin Hurls Hkey. injection Hrs as <-.
        simpl. apply elem_of_app.
        apply elem_of_cons in Hin as [->|Hin].
        -- left. rewrite Hlist in Hurls. injection Hurls as ->.
           apply list_elem_of_fmap. by exists key.
        -- right. by eapply Hall.
      * eexists. split; [reflexivity|]. intros rs' Hrs. discriminate.
    + eexists. split; [reflexivity|]. intros rs' Hrs. discriminate.
Qed.

Lemma removeArchive_run w s :
  exists r s' t,
    removeArchive db archive w s = (r, s', t) /\
    archives s' = archives s /\
    isOpen s' = isOpen s /\
    (r = Ok tt ->
       indexMetaLevel s' !! url archive = None /\
       (url archive ∉ fileEvents s') /\
       forall i urls key,
         (i < length (tables db))%nat -> listRecordFiles w i = Ok urls -> key ∈ urls ->
         stored s' i key = None).
Proof.
  unfold removeArchive, unindexArchive, scanArchiveForRecords, unwatchArchive, bind.
  destruct (list_all_run w (seq 0 (length (tables db))) s) as (r & -> & Hlisted).
  destruct r as [rs|e].
  2: { eexists _, _, _. split; [reflexivity|]. repeat split; try done. }
  unfold ret. simpl.
  destruct (delete_all_run w (concat rs) s) as (r & s1 & t1 & -> & Hbook & _ & Hdeleted).
  destruct Hbook as (Hmeta & Harch & Hfe & Hopen & _).
  destruct r as [rs'|e].
  2: { eexists _, _, _. split; [reflexivity|]. repeat split; try done. }
  unfold meta_del, modify.
  destruct (metaDelFault w (url archive)) as [e|]; simpl.
  { eexists _, _, _. split; [reflexivity|]. repeat split; try done. }
  eexists _, _, _. split; [reflexivity|]. simpl.
  split; [done|]. split; [done|]. intros _.
  split; [apply lookup_delete_eq|]. split.
  { intros Hx. apply elem_of_difference in Hx as [_ Hx]. apply Hx. by apply elem_of_singleton. }
  intros i urls key Hi Hurls Hkey.
  assert (Hin : (i, key) ∈ concat rs).
  { eapply Hlisted; [done| |exact Hurls|exact Hkey].
    apply elem_of_seq. lia. }
  specialize (Hdeleted rs' eq_refl i key Hin).
  unfold stored in *. exact Hdeleted.
Qed.

End LifecycleFacts.

Section LifecycleTheorems.

Context (JSON_parse : string -> Res Js.value) (db : Db) (archive : Archive).

Lemma addArchive_run w ticks s info :
  getInfo w = Ok info ->
  metaPutFault w (url archive) = None ->
  let meta0 := mkMeta (url archive) 0 (Some (isOwner info)) (localPath archive) in
  let s0 := set_indexMetaLevel (insert (url archive) meta0) s in
  forall s1 t1,
    indexArchive JSON_parse db archive w s0 = (Ok tt, s1, t1) ->
    exists s2,
      addArchive JSON_parse db archive w ticks s =
        (Ok tt, s2, MetaPut (url archive) meta0 :: t1) /\
      levels s2 = levels s1 /\
      indexMetaLevel s2 = indexMetaLevel s1 /\
      url archive ∈ fileEvents s2.
Proof.
  intros Hinfo Hfault meta0 s0 s1 t1 Hpass.
  destruct (watchArchive_run archive s1) as (s2 & Hwatch & Hlevels & Hmeta & _ & Hfe).
  exists s2. split; [|done].
  unfold addArchive, bind, await, meta_put, try_catch.
  rewrite Hinfo, Hfault. fold meta0. fold s0. rewrite Hpass, Hwatch.
  by rewrite !app_nil_r.
Qed.

(** C7, as the code has it. Adding an archive that reports version 0 writes
    the IndexMeta record with version 0 and indexes nothing: the first pass
    finds the watermark level with the version and stops, so no table store
    is written. Adding an archive that reports a version above 0, whose
    history from version 1 on is one change - not a deletion - to a file that
    parses, is owned by a table and accepted by it, stores that record as the
    one entry of the table's empty store and leaves the reported version as
    IndexMeta.version. *)
Theorem addArchive_first_pass w ticks s :
  (forall info,
     getInfo w = Ok info ->
     info_version info = 0 ->
     metaPutFault w (url archive) = None ->
     result_of (addArchive JSON_parse db archive w ticks s) = Ok tt /\
     levels (state_of (addArchive JSON_parse db archive w ticks s)) = levels s /\
     watermark (state_of (addArchive JSON_parse db archive w ticks s)) (url archive) = 0 /\
     Forall (fun ev => is_table_write ev = false)
       (trace_of (addArchive JSON_parse db archive w ticks s))) /\
  (forall info u content r r' i table,
     (isOpen s || isBeingOpened s) = true ->
     hasLevel s = true ->
     getInfo w = Ok info ->
     0 < info_version info ->
     history w 1 (info_version info + 1) = Ok [u] ->
     type u <> "del" ->
     tableFilePatterns db (path u) = true ->
     path u <> "__proto__" ->
     readFile w (path u) = Ok content ->
     JSON_parse content = Ok r ->
     first_match db (path u) i table ->
     accepts table r ->
     preprocessed table r r' ->
     putFault w i (url archive +:+ path u) = None ->
     metaPutFault w (url archive) = None ->
     levels s !! i = Some ∅ ->
     result_of (addArchive JSON_parse db archive w ticks s) = Ok tt /\
     levels (state_of (addArchive JSON_parse db archive w ticks s)) !! i =
       Some {[ url archive +:+ path u :=
                 mkIndexed (url archive +:+ path u) (url archive) (now w (path u)) r' ]} /\
     watermark (state_of (addArchive JSON_parse db archive w ticks s)) (url archive)
       = info_version info).
Proof.
  split.
  - intros info Hinfo Hzero Hfault.
    pose (meta0 := mkMeta (url archive) 0 (Some (isOwner info)) (localPath archive)).
    pose (s0 := set_indexMetaLevel (insert (url archive) meta0) s).
    assert (Hpass : indexArchive JSON_parse db archive w s0 = (Ok tt, s0, [])).
    { apply (indexArchive_up_to_date _ _ _ _ _ info); [done|].
      rewrite read_watermark_zero; [lia|]. unfold s0. by rewrite watermark_set_meta. }
    destruct (addArchive_run w ticks s info Hinfo Hfault s0 [] Hpass)
      as (s2 & -> & Hlevels & Hmeta & _).
    unfold result_of, state_of, trace_of; simpl.
    split; [done|]. split; [by rewrite Hlevels|]. split.
    + unfold watermark. rewrite Hmeta. apply watermark_set_meta.
    + by apply Forall_singleton.
  - intros info u content r r' i table Hready Hlevel Hinfo Hpos Hhist Htype Hpat Hproto
      Hread Hparse Hfirst Hacc Hpre Hput Hfault Hempty.
    pose (meta0 := mkMeta (url archive) 0 (Some (isOwner info)) (localPath archive)).
    pose (s0 := set_indexMetaLevel (insert (url archive) meta0) s).
    assert (Hwm : read_watermark w s0 (url archive) = 0).
    { apply read_watermark_zero, watermark_set_meta. }
    destruct (indexArchive_proceeds JSON_parse db archive w s0 info [u])
      as (rs & s1 & t1 & t3 & Happly & _ & _ & _ & Hpass); try done.
    { rewrite Hwm. lia. }
    { by rewrite Hwm. }
    rewrite Hfault in Hpass.
    assert (Hone : applyUpdates JSON_parse db archive w (fold_left (keepUpdate db) [u] []) s0 =
      (Ok [Some (name table)],
       set_levels
         (alter (insert (url archive +:+ path u)
                   (mkIndexed (url archive +:+ path u) (url archive) (now w (path u)) r')) i) s0,
       [TablePut i (url archive +:+ path u)
          (mkIndexed (url archive +:+ path u) (url archive) (now w (path u)) r')])).
    { simpl. unfold keepUpdate, assign. rewrite Hpat.
      apply String.eqb_neq in Hproto. rewrite Hproto. simpl.
      unfold applyUpdates. simpl. unfold applyUpdate. simpl.
      apply String.eqb_neq in Htype. rewrite Htype.
      by rewrite (readAndIndexFile_put JSON_parse db archive w (path u) s0 content r r' i table). }
    rewrite Hone in Happly. injection Happly as <- <- <-.
    destruct (addArchive_run w ticks s info Hinfo Hfault _ _ Hpass)
      as (s2 & -> & Hlevels & Hmeta & _).
    unfold result_of, state_of; simpl.
    split; [done|]. split.
    + rewrite Hlevels. simpl. rewrite list_lookup_alter_eq, Hempty. simpl.
      by rewrite insert_empty.
    + unfold watermark. rewrite Hmeta. apply watermark_set_meta.
Qed.

(** C8. A first pass that failed with an error other than a timeout is
    reported by one [source-error] signal and never retried. After a timeout
    [source-missing] is emitted and the retry loop runs; the loop itself
    emits no source signal, and only when it made a pass [source-found]
    follows, as the last signal, with the watcher attached. Every wake-up
    comes after a wait of 30 seconds; a wake-up that finds the system closed
    or the archive no longer managed ends the loop there with no signal; a
    retry that resolves ends it as made, a retry that fails with another
    error than a timeout ends it silently, and a retry that times out goes on
    to the next wake-up. *)
Theorem resilience_loop e ticks t rest s :
  (Js.isTimeout e = false ->
     onFailInitialIndex JSON_parse db archive e ticks s =
       (Ok tt, s, [Emit (source_error (url archive) e)])) /\
  (Js.isTimeout e = true ->
     exists exit s1 t1,
       retryLoop JSON_parse db archive ticks s = (Ok exit, s1, t1) /\
       Forall (fun ev => is_source_signal ev = false) t1 /\
       (exit = Made ->
          result_of (onFailInitialIndex JSON_parse db archive e ticks s) = Ok tt /\
          trace_of (onFailInitialIndex JSON_parse db archive e ticks s) =
            Emit (source_missing (url archive)) :: t1 ++ [Emit (source_found (url archive))] /\
          url archive ∈ fileEvents (state_of (onFailInitialIndex JSON_parse db archive e ticks s))) /\
       (exit <> Made ->
          onFailInitialIndex JSON_parse db archive e ticks s =
            (Ok tt, s1, Emit (source_missing (url archive)) :: t1))) /\
  (isOpen (interference t s) = false \/ url archive ∉ archives (interference t s) ->
     retryLoop JSON_parse db archive (t :: rest) s =
       (Ok Stopped, interference t s, [Sleep 30000])) /\
  (isOpen (interference t s) = true ->
   url archive ∈ archives (interference t s) ->
     match indexArchive JSON_parse db archive (world t) (interference t s) with
     | (Ok _, s2, tr) =>
         retryLoop JSON_parse db archive (t :: rest) s = (Ok Made, s2, Sleep 30000 :: tr)
     | (Throw e', s2, tr) =>
         if Js.isTimeout e' then
           exists exit s3 tr',
             retryLoop JSON_parse db archive rest s2 = (Ok exit, s3, tr') /\
             retryLoop JSON_parse db archive (t :: rest) s =
               (Ok exit, s3, Sleep 30000 :: tr ++ tr')
         else
           retryLoop JSON_parse db archive (t :: rest) s =
             (Ok Aborted, s2, Sleep 30000 :: tr)
     end).
Proof.
  split; [|split; [|split]].
  - intros Hother. unfold onFailInitialIndex. by rewrite Hother.
  - intros Htimeout.
    destruct (retryLoop_run JSON_parse db archive ticks s) as (exit & s1 & t1 & Hloop & Ht1).
    exists exit, s1, t1. split; [done|]. split; [done|].
    unfold onFailInitialIndex. rewrite Htimeout.
    unfold bind, emit, tell. rewrite Hloop. split.
    + intros ->. destruct (watchArchive_run archive s1) as (s2 & Hwatch & _ & _ & _ & Hfe).
      rewrite Hwatch. unfold result_of, trace_of, state_of; simpl.
      by rewrite ?app_nil_r.
    + intros Hexit. destruct exit; try done; unfold ret; by rewrite ?app_nil_r.
  - intros Hgone. rewrite retryLoop_step.
    destruct Hgone as [->|Hgone]; [done|].
    rewrite (bool_decide_eq_false_2 _ Hgone). by rewrite orb_true_r.
  - intros Hopen Hmanaged. rewrite retryLoop_step, Hopen.
    rewrite (bool_decide_eq_true_2 _ Hmanaged). simpl.
    destruct (indexArchive _ _ _ _ _) as [[[[]|e'] s2] tr]; [done|].
    destruct (Js.isTimeout e'); simpl; [|done].
    destruct (retryLoop_run JSON_parse db archive rest s2) as (exit & s3 & tr' & -> & _).
    by exists exit, s3, tr'.
Qed.

(** C9. [removeArchive] never touches [db._archives], whatever the outcome.
    When it resolves, the archive's IndexMeta record and the stored records
    of the files its tables list are gone and the watcher is detached. So a
    retry loop that wakes up after nothing but a [removeArchive] still finds
    the archive managed and does not stop. *)
Theorem removeArchive_keeps_managed w w' s :
  archives (state_of (removeArchive db archive w s)) = archives s /\
  (result_of (removeArchive db archive w s) = Ok tt ->
     indexMetaLevel (state_of (removeArchive db archive w s)) !! url archive = None /\
     (url archive ∉ fileEvents (state_of (removeArchive db archive w s))) /\
     forall i urls key,
       (i < length (tables db))%nat ->
       listRecordFiles w i = Ok urls ->
       key ∈ urls ->
       stored (state_of (removeArchive db archive w s)) i key = None) /\
  (isOpen s = true ->
   url archive ∈ archives s ->
     result_of
       (retryLoop JSON_parse db archive
          [mkTick (fun s0 => state_of (removeArchive db archive w s0)) w'] s)
     <> Ok Stopped).
Proof.
  destruct (removeArchive_run db archive w s) as (r & s' & t & Hrun & Harch & Hopen & Hdone).
  split; [by rewrite Hrun|]. split; [by rewrite Hrun|].
  intros Hisopen Hmanaged. rewrite retryLoop_step. cbn [interference world].
  rewrite Hrun. unfold state_of. cbn [fst snd]. rewrite Hopen, Hisopen, Harch.
  rewrite (bool_decide_eq_true_2 _ Hmanaged). cbn [negb orb].
  destruct (indexArchive _ _ _ _ _) as [[[[]|e] s2] tr]; [done|].
  by destruct (negb (Js.isTimeout e)).
Qed.

End LifecycleTheorems.

(** ** The theorems on the concrete database *)

Section Checks.

Import Scenario.

Lemma foo_owns_file : first_match db file 0 foo.
Proof. exists [], []. repeat split. constructor. Defined.

Lemma dispatch_total_witness :
  result_of (readAndIndexFile JSON_parse db archive (online 1) "/dat.json" indexed) = Ok None /\
  unindexFile db archive (online 1) "/dat.json" indexed = (Ok None, indexed, []).
Proof.
  destruct (dispatch_total JSON_parse db archive (online 1) "/dat.json" indexed)
    as (_ & _ & Hno).
  destruct Hno as (Hread & _ & _ & Hun).
  - constructor; [reflexivity|constructor].
  - split; [exact Hread|exact Hun].
Defined.

Lemma foo_accepts_object : accepts foo (Js.object []).
Proof. right. exists is_object, (mkCall (Js.boolean true) (Js.object [])). repeat split. Defined.

Lemma foo_keeps_object : preprocessed foo (Js.object []) (Js.object []).
Proof. left. split; reflexivity. Defined.

Lemma foo_rejects_number : rejects foo (Js.number 1).
Proof. exists is_object, (mkCall (Js.boolean false) (Js.number 1)). repeat split. Defined.

Lemma readAndIndexFile_dispatch_witness :
  stored (state_of (readAndIndexFile JSON_parse db archive (online 1) file fresh)) 0 key
    = Some entry /\
  stored (state_of (readAndIndexFile JSON_parse db archive world_edited file indexed)) 0 key
    = None /\
  stored (state_of (readAndIndexFile JSON_parse (db_of marking) archive (online 1) file fresh))
         0 key
    = Some (mkIndexed key "dat://a" 1000 (Js.object [("checked", Js.boolean true)])).
Proof.
  split; [|split].
  - destruct (readAndIndexFile_dispatch JSON_parse db archive (online 1) file fresh
                "{}" (Js.object []) 0%nat foo eq_refl eq_refl foo_owns_file) as (_ & Hput).
    destruct (Hput (Js.object []) foo_accepts_object foo_keeps_object eq_refl)
      as (_ & Hstored).
    apply Hstored. exists ∅. reflexivity.
  - destruct (readAndIndexFile_dispatch JSON_parse db archive world_edited file indexed
                "1" (Js.number 1) 0%nat foo eq_refl eq_refl foo_owns_file) as (Hdel & _).
    destruct (Hdel foo_rejects_number eq_refl) as (_ & Hstored).
    exact Hstored.
  - assert (Hfirst : first_match (db_of marking) file 0 marking).
    { exists [], []. repeat split. constructor. }
    destruct (readAndIndexFile_dispatch JSON_parse (db_of marking) archive (online 1) file
                fresh "{}" (Js.object []) 0%nat marking eq_refl eq_refl Hfirst) as (_ & Hput).
    destruct (Hput (Js.object [("checked", Js.boolean true)])) as (_ & Hstored).
    + right. exists marks_checked,
        (mkCall (Js.boolean true) (Js.object [("checked", Js.boolean true)])).
      repeat split.
    + right. exists returns_nothing,
        (mkCall Js.undefined (Js.object [("checked", Js.boolean true)])).
      repeat split.
    + reflexivity.
    + apply Hstored. exists ∅. reflexivity.
Defined.

(** C4, as the specification words it: a preprocessor's result replaces the
    record when it is defined and not empty. The code tests the result for
    truth. A preprocessor that returns the empty object - defined, and
    empty - has its result stored in place of the parsed record [1]; one that
    returns [0] - defined, and not empty - has it dropped, and the parsed
    record [{}] is stored. *)
Lemma preprocess_result_tested_for_truth :
  JSON_parse "1" = Ok (Js.number 1) /\
  returns_empty (Js.number 1) = Ok (mkCall (Js.object []) (Js.number 1)) /\
  spec_defined_nonempty (Js.object []) = false /\
  stored (state_of (readAndIndexFile JSON_parse (db_of emptying) archive world_edited file
                      fresh)) 0 key
    = Some (mkIndexed key "dat://a" 2000 (Js.object [])) /\
  JSON_parse "{}" = Ok (Js.object []) /\
  returns_zero (Js.object []) = Ok (mkCall (Js.number 0) (Js.object [])) /\
  spec_defined_nonempty (Js.number 0) = true /\
  stored (state_of (readAndIndexFile JSON_parse (db_of zeroing) archive (online 1) file
                      fresh)) 0 key
    = Some (mkIndexed key "dat://a" 1000 (Js.object [])).
Proof. vm_compute. repeat split; reflexivity. Qed.

Lemma applyUpdate_by_type_witness :
  stored (state_of (applyUpdate JSON_parse db archive (world_deleted "del")
                      (file, mkUpdate file "del" 2) indexed)) 0 key = None /\
  applyUpdate JSON_parse db archive (online 1) (file, put1) fresh =
    readAndIndexFile JSON_parse db archive (online 1) file fresh /\
  stored (state_of (applyUpdate JSON_parse db archive read_down (file, put1) indexed)) 0 key
    = Some (mkIndexed key "dat://a" 5000 (Js.object [])).
Proof.
  split; [|split].
  - destruct (applyUpdate_by_type JSON_parse db archive (world_deleted "del")
                (file, mkUpdate file "del" 2) indexed) as (Hdel & _).
    destruct (Hdel eq_refl) as (_ & Hfirst).
    destruct (Hfirst 0%nat foo foo_owns_file eq_refl) as (_ & Hstored).
    exact Hstored.
  - destruct (applyUpdate_by_type JSON_parse db archive (online 1) (file, put1) fresh)
      as (_ & Hput).
    apply Hput. simpl. discriminate.
  - destruct (applyUpdate_by_type JSON_parse db archive read_down (file, put1) indexed)
      as (_ & Hput).
    assert (Hne : type (file, put1).2 <> "del") by (simpl; discriminate).
    destruct (Hput Hne) as (_ & Hover).
    destruct (Hover "{}" (Js.object []) (Js.object []) 0%nat foo eq_refl eq_refl
                foo_owns_file foo_accepts_object foo_keeps_object eq_refl) as (_ & Hstored).
    apply Hstored. eexists. reflexivity.
Defined.

(** C3, as the specification words it: the archive history contract types a
    deletion as [delete]. An update of that type is not compared equal to
    ["del"], so it is read and indexed: the read of the deleted file fails
    and the stored record stays. *)
Lemma delete_type_not_deleted :
  stored indexed 0 key = Some entry /\
  applyUpdate JSON_parse db archive (world_deleted "delete")
    (file, mkUpdate file "delete" 2) indexed =
    (Ok None, indexed, [Emit (index_error key not_found)]) /\
  stored (state_of (applyUpdate JSON_parse db archive (world_deleted "delete")
                      (file, mkUpdate file "delete" 2) indexed)) 0 key = Some entry.
Proof. vm_compute. repeat split; reflexivity. Qed.

Lemma failing_file_isolated_witness :
  exists rs1 s1 t1 rs2 s2 t2,
    applyUpdates JSON_parse db archive (online 1) [(file, put1)] fresh = (Ok rs1, s1, t1) /\
    applyUpdates JSON_parse db archive (online 1) [] s1 = (Ok rs2, s2, t2) /\
    applyUpdates JSON_parse db archive (online 1)
      ([(file, put1)] ++ ("/tables/foo/2.json", mkUpdate "/tables/foo/2.json" "put" 1) :: []) fresh =
      (Ok (rs1 ++ None :: rs2), s2,
       t1 ++ Emit (index_error "dat://a/tables/foo/2.json" not_found) :: t2).
Proof.
  destruct (failing_file_isolated JSON_parse db archive (online 1) [(file, put1)] []
              ("/tables/foo/2.json", mkUpdate "/tables/foo/2.json" "put" 1) not_found fresh)
    as (_ & rs1 & s1 & t1 & rs2 & s2 & t2 & H1 & H2 & _ & H3).
  - simpl. discriminate.
  - left. reflexivity.
  - exists rs1, s1, t1, rs2, s2, t2. repeat split; assumption.
Defined.

Lemma watermark_discipline_witness :
  watermark (passes JSON_parse db archive [online 1] fresh) "dat://a"
    <= watermark (passes JSON_parse db archive ([online 1] ++ [read_down_later]) fresh)
         "dat://a" /\
  watermark (passes JSON_parse db archive [online 1] fresh) "dat://a" <= 2 /\
  result_of (indexArchive JSON_parse db archive (online 1) fresh) = Ok tt /\
  List.filter is_meta_write (trace_of (indexArchive JSON_parse db archive (online 1) fresh)) =
    [MetaPut "dat://a" (mkMeta "dat://a" 1 None None)] /\
  watermark (state_of (indexArchive JSON_parse db archive (online 1) fresh)) "dat://a" = 1.
Proof.
  destruct (watermark_discipline JSON_parse db archive [online 1] [read_down_later]
              (online 1) fresh) as (Hmono & Hbound & _ & Hwrite).
  split; [|split].
  - apply Hmono. right. vm_compute. split; [discriminate|exact I].
  - apply Hbound.
    + vm_compute. discriminate.
    + constructor; [|constructor]. intros info Hinfo. injection Hinfo as <-.
      vm_compute. discriminate.
  - apply (Hwrite (mkInfo 1 true) [put1]); reflexivity.
Defined.



Lemma scan_keeps_latest_witness :
  exists updates,
    scanArchiveHistoryForUpdates db (world_deleted "del") 1 3 fresh = (Ok updates, fresh, []) /\
    NoDup updates.*1 /\
    (forall k u, (k, u) ∈ updates ->
       k = path u /\ tableFilePatterns db (path u) = true /\
       latest_in [put1; mkUpdate file "del" 2] u).
Proof.
  destruct (scan_keeps_latest JSON_parse db archive (world_deleted "del") fresh
              (mkInfo 2 true) [put1; mkUpdate file "del" 2])
    as (updates & Hscan & Hnd & Hlatest & _); try reflexivity.
  exists updates. repeat split; try assumption; apply (Hlatest k u); assumption.
Defined.

Lemma addArchive_first_pass_witness :
  levels (state_of (addArchive JSON_parse db archive (online 0) [] fresh)) = [∅] /\
  watermark (state_of (addArchive JSON_parse db archive (online 0) [] fresh)) "dat://a" = 0 /\
  levels (state_of (addArchive JSON_parse db archive (online 1) [] fresh)) !! 0%nat =
    Some {[ key := entry ]} /\
  watermark (state_of (addArchive JSON_parse db archive (online 1) [] fresh)) "dat://a" = 1.
Proof.
  destruct (addArchive_first_pass JSON_parse db archive (online 0) [] fresh) as (Hzero & _).
  destruct (Hzero (mkInfo 0 true) eq_refl eq_refl eq_refl) as (_ & Hlevels & Hwm & _).
  destruct (addArchive_first_pass JSON_parse db archive (online 1) [] fresh) as (_ & Hone).
  destruct (Hone (mkInfo 1 true) put1 "{}" (Js.object []) (Js.object []) 0%nat foo)
    as (_ & Hstore & Hwm1); try reflexivity.
  - simpl. discriminate.
  - simpl. discriminate.
  - exact foo_owns_file.
  - exact foo_accepts_object.
  - exact foo_keeps_object.
  - repeat split; assumption.
Defined.

(** C7, as the specification words it: the archive reports version 0 and
    holds [/tables/foo/1.json], valid against [foo]. After [addArchive] the
    store of [foo] has no entry under [archive.url + "/tables/foo/1.json"]:
    it is empty. IndexMeta.version is 0. *)
Lemma addArchive_version0_indexes_nothing :
  getInfo (online 0) = Ok (mkInfo 0 true) /\
  readFile (online 0) file = Ok "{}" /\
  accepts foo (Js.object []) /\
  result_of (addArchive JSON_parse db archive (online 0) [] fresh) = Ok tt /\
  stored (state_of (addArchive JSON_parse db archive (online 0) [] fresh)) 0 key = None /\
  levels (state_of (addArchive JSON_parse db archive (online 0) [] fresh)) = [∅] /\
  watermark (state_of (addArchive JSON_parse db archive (online 0) [] fresh)) "dat://a" = 0.
Proof.
  split; [reflexivity|]. split; [reflexivity|]. split; [exact foo_accepts_object|].
  vm_compute. repeat split; reflexivity.
Qed.

Lemma resilience_loop_witness :
  onFailInitialIndex JSON_parse db archive timeout [mkTick drop_source (online 1)] fresh =
    (Ok tt, drop_source fresh, [Emit (source_missing "dat://a"); Sleep 30000]) /\
  onFailInitialIndex JSON_parse db archive not_found [mkTick drop_source (online 1)] fresh =
    (Ok tt, fresh, [Emit (source_error "dat://a" not_found)]) /\
  result_of (retryLoop JSON_parse db archive [mkTick id (online 1)] fresh) = Ok Made.
Proof.
  destruct (resilience_loop JSON_parse db archive timeout [mkTick drop_source (online 1)]
              (mkTick drop_source (online 1)) [] fresh) as (_ & Htimeout & Hstop & _).
  destruct (resilience_loop JSON_parse db archive not_found [mkTick drop_source (online 1)]
              (mkTick drop_source (online 1)) [] fresh) as (Hother & _).
  destruct (resilience_loop JSON_parse db archive timeout [] (mkTick id (online 1)) [] fresh)
    as (_ & _ & _ & Hretry).
  split; [|split; [apply Hother; reflexivity|]].
  - destruct (Htimeout eq_refl) as (exit & s1 & t1 & Hloop & _ & _ & Hsilent).
    rewrite Hstop in Hloop.
    + injection Hloop as <- <- <-. apply Hsilent. discriminate.
    + right. apply (bool_decide_unpack _). vm_compute. exact I.
  - assert (Hmanaged : url archive ∈ archives (interference (mkTick id (online 1)) fresh)).
    { apply (bool_decide_unpack _). vm_compute. exact I. }
    specialize (Hretry eq_refl Hmanaged).
    destruct (indexArchive JSON_parse db archive (world (mkTick id (online 1)))
                (interference (mkTick id (online 1)) fresh)) as [[[[]|e'] s2] tr] eqn:Hpass.
    + rewrite Hretry. reflexivity.
    + vm_compute in Hpass. discriminate.
Defined.

Lemma removeArchive_keeps_managed_witness :
  archives (state_of (removeArchive db archive (online 1) indexed)) = {["dat://a"]} /\
  stored (state_of (removeArchive db archive (online 1) indexed)) 0 key = None /\
  result_of
    (retryLoop JSON_parse db archive
       [mkTick (fun s0 => state_of (removeArchive db archive (online 1) s0)) (online 1)]
       indexed) <> Ok Stopped.
Proof.
  destruct (removeArchive_keeps_managed JSON_parse db archive (online 1) (online 1) indexed)
    as (Harch & Hdone & Hloop).
  split; [exact Harch|]. split.
  - destruct (Hdone eq_refl) as (_ & _ & Hgone).
    apply (Hgone 0%nat [key] key); [simpl; lia|reflexivity|].
    apply elem_of_cons. left. reflexivity.
  - apply Hloop; [reflexivity|]. apply (bool_decide_unpack _). vm_compute. exact I.
Defined.

End Checks.

(** * Further properties *)

(** ** The dispatcher, case by case *)

Section DispatchCases.

Context (JSON_parse : string -> Res Js.value) (db : Db) (archive : Archive).

Lemma set_levels_id s : set_levels (fun l => l) s = s.
Proof. by destruct s. Qed.

Lemma at_clock_now w : at_clock w (now w) = w.
Proof. by destruct w. Qed.

Lemma save_cases w filepath i0 (n : string) r' :
  (exists e, forall clock s,
     (level_put (at_clock w clock) i0 (url archive +:+ filepath)
        (mkIndexed (url archive +:+ filepath) (url archive) (clock filepath) r') ;;
      ret (Some n)) s = (Throw e, s, [])) \/
  (forall clock s,
     (level_put (at_clock w clock) i0 (url archive +:+ filepath)
        (mkIndexed (url archive +:+ filepath) (url archive) (clock filepath) r') ;;
      ret (Some n)) s =
     (Ok (Some n),
      set_levels
        (alter (insert (url archive +:+ filepath)
                  (mkIndexed (url archive +:+ filepath) (url archive) (clock filepath) r'))
               i0) s,
      [TablePut i0 (url archive +:+ filepath)
         (mkIndexed (url archive +:+ filepath) (url archive) (clock filepath) r')])).
Proof.
  destruct (putFault w i0 (url archive +:+ filepath)) as [e|] eqn:Hf.
  - left. exists e. intros clock s. unfold bind, ret, level_put. simpl. by rewrite Hf.
  - right. intros clock s. unfold bind, ret, level_put. simpl. by rewrite Hf.
Qed.

Lemma indexOnFirstMatch_cases w filepath r ts i0 :
  (exists e, forall clock s,
     indexOnFirstMatch archive (at_clock w clock) filepath r ts i0 s = (Throw e, s, [])) \/
  (Forall (fun t => isRecordFile t filepath = false) ts /\
   forall clock s,
     indexOnFirstMatch archive (at_clock w clock) filepath r ts i0 s = (Ok None, s, [])) \/
  (exists before table after,
     ts = before ++ table :: after /\
     Forall (fun t => isRecordFile t filepath = false) before /\
     isRecordFile table filepath = true /\
     ((exists r', forall clock s,
         indexOnFirstMatch archive (at_clock w clock) filepath r ts i0 s =
           (Ok (Some (name table)),
            set_levels
              (alter (insert (url archive +:+ filepath)
                        (mkIndexed (url archive +:+ filepath) (url archive)
                           (clock filepath) r'))
                     (length before + i0)%nat) s,
            [TablePut (length before + i0)%nat (url archive +:+ filepath)
               (mkIndexed (url archive +:+ filepath) (url archive) (clock filepath) r')])) \/
      (forall clock s,
         indexOnFirstMatch archive (at_clock w clock) filepath r ts i0 s =
           (Ok (Some (name table)),
            set_levels (alter (delete (url archive +:+ filepath)) (length before + i0)%nat) s,
            [TableDel (length before + i0)%nat (url archive +:+ filepath)])))).
Proof.
  revert i0. induction ts as [|table rest IH]; intros i0.
  { right. left. split; [constructor|done]. }
  destruct (isRecordFile table filepath) eqn:Hm.
  2: { destruct (IH (S i0)) as [(e & He)|[(Hno & Hnone)|(before & t' & after & -> & Hb & Ht & Hrun)]].
       - left. exists e. intros clock s. simpl. rewrite Hm. apply He.
       - right. left. split; [by constructor|]. intros clock s. simpl. rewrite Hm. apply Hnone.
       - right. right. exists (table :: before), t', after.
         split; [done|]. split; [by constructor|]. split; [done|].
         simpl length. replace (S (length before) + i0)%nat with (length before + S i0)%nat by lia.
         destruct Hrun as [(r' & Hput)|Hdel].
         + left. exists r'. intros clock s. simpl. rewrite Hm. apply Hput.
         + right. intros clock s. simpl. rewrite Hm. apply Hdel. }
  assert (Hsave :
    (exists e, forall clock s,
       indexOnFirstMatch archive (at_clock w clock) filepath r (table :: rest) i0 s
         = (Throw e, s, [])) \/
    (exists r', forall clock s,
       indexOnFirstMatch archive (at_clock w clock) filepath r (table :: rest) i0 s =
       (Ok (Some (name table)),
        set_levels
          (alter (insert (url archive +:+ filepath)
                    (mkIndexed (url archive +:+ filepath) (url archive) (clock filepath) r'))
                 i0) s,
        [TablePut i0 (url archive +:+ filepath)
           (mkIndexed (url archive +:+ filepath) (url archive) (clock filepath) r')])) \/
    (forall clock s,
       indexOnFirstMatch archive (at_clock w clock) filepath r (table :: rest) i0 s =
       (Ok (Some (name table)),
        set_levels (alter (delete (url archive +:+ filepath)) i0) s,
        [TableDel i0 (url archive +:+ filepath)]))).
  { assert (Hstored : forall r1 r',
      (forall clock s,
         indexOnFirstMatch archive (at_clock w clock) filepath r (table :: rest) i0 s =
         match (level_put (at_clock w clock) i0 (url archive +:+ filepath)
                  (mkIndexed (url archive +:+ filepath) (url archive) (clock filepath) r') ;;
                ret (Some (name table))) s with
         | (x, s', t) => (x, s', r1 ++ t)
         end) ->
      r1 = [] ->
      (exists e, forall clock s,
         indexOnFirstMatch archive (at_clock w clock) filepath r (table :: rest) i0 s
           = (Throw e, s, [])) \/
      (exists r'', forall clock s,
         indexOnFirstMatch archive (at_clock w clock) filepath r (table :: rest) i0 s =
         (Ok (Some (name table)),
          set_levels
            (alter (insert (url archive +:+ filepath)
                      (mkIndexed (url archive +:+ filepath) (url archive)
                         (clock filepath) r'')) i0) s,
          [TablePut i0 (url archive +:+ filepath)
             (mkIndexed (url archive +:+ filepath) (url archive) (clock filepath) r'')]))).
    { intros r1 r' Hrun ->.
      destruct (save_cases w filepath i0 (name table) r') as [(e & He)|Hok].
      - left. exists e. intros clock s. by rewrite Hrun, He.
      - right. exists r'. intros clock s. by rewrite Hrun, Hok. }
    destruct (validator table) as [v|] eqn:Hv.
    - destruct (v r) as [call|e] eqn:Hcall.
      2: { left. exists e. intros clock s. simpl. rewrite Hm, Hv.
           unfold bind, await. by rewrite Hcall. }
      destruct (Js.truthy (returned call)) eqn:Ht.
      + destruct (preprocess table) as [p|] eqn:Hp.
        * destruct (p (Js.edited r (argument_after call))) as [call'|e] eqn:Hcall'.
          2: { left. exists e. intros clock s. simpl. rewrite Hm, Hv, Hp.
               unfold bind, await, ret. rewrite Hcall. simpl. rewrite Ht.
               by rewrite Hcall'. }
          destruct (Hstored []
                      (if Js.truthy (returned call') then returned call'
                       else Js.edited (Js.edited r (argument_after call))
                              (argument_after call')))
            as [He|Hok]; [|done|by left|by right; left].
          intros clock s. simpl. rewrite Hm, Hv, Hp.
          unfold bind, await, ret. rewrite Hcall. simpl. rewrite Ht, Hcall'. simpl.
          by destruct (level_put _ _ _ _ _) as [[[]]].
        * destruct (Hstored [] (Js.edited r (argument_after call)))
            as [He|Hok]; [|done|by left|by right; left].
          intros clock s. simpl. rewrite Hm, Hv, Hp.
          unfold bind, await, ret. rewrite Hcall. simpl. rewrite Ht. simpl.
          by destruct (level_put _ _ _ _ _) as [[[]]].
      + destruct (delFault w i0 (url archive +:+ filepath)) as [e|] eqn:Hf.
        * left. exists e. intros clock s. simpl. rewrite Hm, Hv.
          unfold bind, await, ret, level_del. rewrite Hcall. simpl. rewrite Ht. simpl.
          by rewrite Hf.
        * right. right. intros clock s. simpl. rewrite Hm, Hv.
          unfold bind, await, ret, level_del. rewrite Hcall. simpl. rewrite Ht. simpl.
          by rewrite Hf.
    - destruct (preprocess table) as [p|] eqn:Hp.
      + destruct (p r) as [call'|e] eqn:Hcall'.
        2: { left. exists e. intros clock s. simpl. rewrite Hm, Hv, Hp.
             unfold bind, await, ret. simpl. by rewrite Hcall'. }
        destruct (Hstored []
                    (if Js.truthy (returned call') then returned call'
                     else Js.edited r (argument_after call')))
          as [He|Hok]; [|done|by left|by right; left].
        intros clock s. simpl. rewrite Hm, Hv, Hp.
        unfold bind, await, ret. simpl. rewrite Hcall'. simpl.
        by destruct (level_put _ _ _ _ _) as [[[]]].
      + destruct (Hstored [] r) as [He|Hok]; [|done|by left|by right; left].
        intros clock s. simpl. rewrite Hm, Hv, Hp.
        unfold bind, await, ret. simpl.
        by destruct (level_put _ _ _ _ _) as [[[]]]. }
  destruct Hsave as [He|[Hp|Hd]]; [by left|right; right..].
  - exists [], table, rest. repeat (split; [done|]). by left.
  - exists [], table, rest. repeat (split; [done|]). by right.
Qed.

Lemma unindexOnFirstMatch_at_clock w clock filepath ts i :
  unindexOnFirstMatch archive (at_clock w clock) filepath ts i =
  unindexOnFirstMatch archive w filepath ts i.
Proof.
  revert i. induction ts as [|table rest IH]; intros i; simpl; [done|].
  by rewrite IH.
Qed.

Lemma unindexOnFirstMatch_cases w filepath ts i0 :
  (exists e, forall s, unindexOnFirstMatch archive w filepath ts i0 s = (Throw e, s, [])) \/
  (Forall (fun t => isRecordFile t filepath = false) ts /\
   forall s, unindexOnFirstMatch archive w filepath ts i0 s = (Ok None, s, [])) \/
  (exists before table after,
     ts = before ++ table :: after /\
     Forall (fun t => isRecordFile t filepath = false) before /\
     isRecordFile table filepath = true /\
     forall s,
       unindexOnFirstMatch archive w filepath ts i0 s =
         (Ok (Some (name table)),
          set_levels (alter (delete (url archive +:+ filepath)) (length before + i0)%nat) s,
          [TableDel (length before + i0)%nat (url archive +:+ filepath)])).
Proof.
  revert i0. induction ts as [|table rest IH]; intros i0.
  { right. left. split; [constructor|done]. }
  destruct (isRecordFile table filepath) eqn:Hm.
  - destruct (delFault w i0 (url archive +:+ filepath)) as [e|] eqn:Hf.
    + left. exists e. intros s. simpl. rewrite Hm. unfold bind, level_del. by rewrite Hf.
    + right. right. exists [], table, rest. repeat (split; [done|]).
      intros s. simpl. rewrite Hm. unfold bind, ret, level_del. by rewrite Hf.
  - destruct (IH (S i0)) as [(e & He)|[(Hno & Hnone)|(before & t' & after & -> & Hb & Ht & Hrun)]].
    + left. exists e. intros s. simpl. rewrite Hm. apply He.
    + right. left. split; [by constructor|]. intros s. simpl. rewrite Hm. apply Hnone.
    + right. right. exists (table :: before), t', after.
      split; [done|]. split; [by constructor|]. split; [done|].
      simpl length. replace (S (length before) + i0)%nat with (length before + S i0)%nat by lia.
      intros s. simpl. rewrite Hm. apply Hrun.
Qed.

Lemma first_match_here before table after filepath :
  tables db = before ++ table :: after ->
  Forall (fun t => isRecordFile t filepath = false) before ->
  isRecordFile table filepath = true ->
  first_match db filepath (length before + 0)%nat table.
Proof.
  intros Ht Hb Hm. exists before, after. repeat split; try done; lia.
Qed.

Lemma first_match_unique filepath i table i' table' :
  first_match db filepath i table ->
  first_match db filepath i' table' ->
  i = i' /\ table = table'.
Proof.
  intros (b & a & Ht & -> & Hb & Hm) (b' & a' & Ht' & -> & Hb' & Hm').
  rewrite Ht in Ht'. clear Ht.
  revert b' Hb' Ht'. induction Hb as [|t b Hno _ IH]; intros b' Hb' Heq.
  - destruct b' as [|t' b']; simpl in Heq.
    + by injection Heq as ->.
    + injection Heq as -> _. apply Forall_cons in Hb' as [Hno _]. congruence.
  - destruct b' as [|t' b']; simpl in Heq.
    + injection Heq as -> _. congruence.
    + injection Heq as -> Heq. apply Forall_cons in Hb' as [_ Hb'].
      destruct (IH b' Hb' Heq) as [Hlen ->]. simpl. by rewrite Hlen.
Qed.

Lemma first_match_no_match filepath i table :
  first_match db filepath i table -> no_match db filepath -> False.
Proof.
  intros (b & a & Ht & _ & _ & Hm) Hno. unfold no_match in Hno. rewrite Ht in Hno.
  apply Forall_app in Hno as [_ Hno]. apply Forall_cons in Hno as [Hno _]. congruence.
Qed.

Lemma readAndIndexFile_case w filepath :
  dispatch_case db archive filepath
    (fun clock => readAndIndexFile JSON_parse db archive (at_clock w clock) filepath).
Proof.
  destruct (readFile w filepath) as [content|e] eqn:Hread.
  2: { apply (case_error _ _ _ _ e). intros clock s.
       unfold readAndIndexFile, try_catch, bind, await, emit, tell, ret. simpl.
       by rewrite Hread. }
  destruct (JSON_parse content) as [r|e] eqn:Hparse.
  2: { apply (case_error _ _ _ _ e). intros clock s.
       unfold readAndIndexFile, try_catch, bind, await, emit, tell, ret. simpl.
       by rewrite Hread, Hparse. }
  assert (Hrun : forall clock s,
    readAndIndexFile JSON_parse db archive (at_clock w clock) filepath s =
    try_catch (indexOnFirstMatch archive (at_clock w clock) filepath r (tables db) 0)
      (fun e => emit (index_error (url archive +:+ filepath) e) ;; ret None) s).
  { intros clock s. unfold readAndIndexFile, try_catch, bind, await. simpl.
    rewrite Hread, Hparse.
    by destruct (indexOnFirstMatch _ _ _ _ _ _ _) as [[[]]]. }
  destruct (indexOnFirstMatch_cases w filepath r (tables db) 0)
    as [(e & He)|[(Hno & Hnone)|(before & table & after & Ht & Hb & Hm & [(r' & Hput)|Hdel])]].
  - apply (case_error _ _ _ _ e). intros clock s. rewrite Hrun. unfold try_catch.
    by rewrite He.
  - apply case_nothing. intros clock s. rewrite Hrun. unfold try_catch. by rewrite Hnone.
  - apply (case_put _ _ _ _ (length before + 0)%nat table r');
      [by apply (first_match_here before table after)|].
    intros clock s. rewrite Hrun. unfold try_catch. by rewrite Hput.
  - apply (case_del _ _ _ _ (length before + 0)%nat table);
      [by apply (first_match_here before table after)|].
    intros clock s. rewrite Hrun. unfold try_catch. by rewrite Hdel.
Qed.

Lemma unindexFile_case w filepath :
  dispatch_case db archive filepath
    (fun clock => unindexFile db archive (at_clock w clock) filepath).
Proof.
  destruct (unindexOnFirstMatch_cases w filepath (tables db) 0)
    as [(e & He)|[(Hno & Hnone)|(before & table & after & Ht & Hb & Hm & Hdel)]].
  - apply case_nothing. intros clock s. unfold unindexFile, try_catch, ret.
    by rewrite unindexOnFirstMatch_at_clock, He.
  - apply case_nothing. intros clock s. unfold unindexFile, try_catch.
    by rewrite unindexOnFirstMatch_at_clock, Hnone.
  - apply (case_del _ _ _ _ (length before + 0)%nat table);
      [by apply (first_match_here before table after)|].
    intros clock s. unfold unindexFile, try_catch.
    by rewrite unindexOnFirstMatch_at_clock, Hdel.
Qed.

Lemma applyUpdate_case w entry :
  dispatch_case db archive (path entry.2)
    (fun clock => applyUpdate JSON_parse db archive (at_clock w clock) entry).
Proof.
  unfold applyUpdate. destruct (String.eqb _ _).
  - apply unindexFile_case.
  - apply readAndIndexFile_case.
Qed.

Lemma stored_alter_other (f : gmap string IndexedRecord -> gmap string IndexedRecord)
    i s j (k : string) :
  (forall m, f m !! k = m !! k) \/ j <> i ->
  stored (set_levels (alter f i) s) j k = stored s j k.
Proof.
  unfold stored, set_levels; simpl. intros H.
  destruct (decide (i = j)) as [->|Hne].
  - rewrite list_lookup_alter_eq. destruct H as [H|H]; [|done].
    destruct (levels s !! j); simpl; [apply H|done].
  - by rewrite list_lookup_alter_ne.
Qed.

Lemma touches_only_refl i key s : touches_only i key s s.
Proof. split; [apply same_bookkeeping_refl|done]. Qed.

Lemma touches_only_insert i key v s :
  touches_only i key s (set_levels (alter (insert key v) i) s).
Proof.
  split; [apply same_bookkeeping_levels|]. split.
  - simpl. apply length_alter.
  - intros j k Hjk. apply stored_alter_other.
    destruct (decide (j = i)) as [->|Hne]; [|by right].
    left. intros m. apply lookup_insert_ne. by destruct Hjk.
Qed.

Lemma touches_only_delete i key s :
  touches_only i key s (set_levels (alter (delete key) i) s).
Proof.
  split; [apply same_bookkeeping_levels|]. split.
  - simpl. apply length_alter.
  - intros j k Hjk. apply stored_alter_other.
    destruct (decide (j = i)) as [->|Hne]; [|by right].
    left. intros m. apply lookup_delete_ne. by destruct Hjk.
Qed.

Lemma dispatch_case_touches filepath run clock i table s :
  dispatch_case db archive filepath run ->
  first_match db filepath i table ->
  touches_only i (url archive +:+ filepath) s (state_of (run clock s)).
Proof.
  intros [Hrun|e Hrun|i' table' r' Hfirst Hrun|i' table' Hfirst Hrun] Hmine;
    rewrite Hrun; unfold state_of; simpl.
  - apply touches_only_refl.
  - apply touches_only_refl.
  - destruct (first_match_unique _ _ _ _ _ Hmine Hfirst) as [<- _].
    apply touches_only_insert.
  - destruct (first_match_unique _ _ _ _ _ Hmine Hfirst) as [<- _].
    apply touches_only_delete.
Qed.

(** X1. Path ownership. Whatever a call of [readAndIndexFile] or of
    [unindexFile] for a path does, it does to one place: the key
    [archive.url + filepath] of the first table that owns the path. Every
    other key of that table and every other table - a later table that owns
    the path too - is left as it was, and so are the meta store and the
    number of tables. *)
Theorem dispatch_touches_one_cell w filepath i table s :
  first_match db filepath i table ->
  touches_only i (url archive +:+ filepath) s
    (state_of (readAndIndexFile JSON_parse db archive w filepath s)) /\
  touches_only i (url archive +:+ filepath) s
    (state_of (unindexFile db archive w filepath s)).
Proof.
  intros Hfirst. split.
  - pose proof (dispatch_case_touches filepath _ (now w) i table s
                  (readAndIndexFile_case w filepath) Hfirst) as H.
    simpl in H. by rewrite at_clock_now in H.
  - pose proof (dispatch_case_touches filepath _ (now w) i table s
                  (unindexFile_case w filepath) Hfirst) as H.
    simpl in H. by rewrite at_clock_now in H.
Qed.

(** X2. What the dispatcher does when a collaborator fails after the file
    was read and parsed. In [readAndIndexFile] a validator or preprocessor
    that throws, and a put or delete the store rejects, all end the same
    way: the call resolves with [false], nothing is stored or deleted, and
    one [index-error] signal carries the file's URL and the error. In
    [unindexFile] a delete the store rejects is swallowed without a signal. *)
Theorem dispatch_failure_reported w filepath s content r i table e :
  readFile w filepath = Ok content ->
  JSON_parse content = Ok r ->
  first_match db filepath i table ->
  ((exists v, validator table = Some v /\ v r = Throw e) \/
   (accepts table r /\
    exists p, preprocess table = Some p /\ p (validated table r) = Throw e) \/
   (accepts table r /\ (exists r', preprocessed table r r') /\
    putFault w i (url archive +:+ filepath) = Some e) \/
   (rejects table r /\ delFault w i (url archive +:+ filepath) = Some e) ->
     readAndIndexFile JSON_parse db archive w filepath s =
       (Ok None, s, [Emit (index_error (url archive +:+ filepath) e)])) /\
  (delFault w i (url archive +:+ filepath) = Some e ->
     unindexFile db archive w filepath s = (Ok None, s, [])).
Proof.
  intros Hread Hparse Hfirst.
  pose proof Hfirst as (before & after & Htables & -> & Hbefore & Hmatch).
  split.
  - intros Hfail.
    rewrite (readAndIndexFile_first_match JSON_parse db archive _ _ _ _ _ _ _ _
               Hread Hparse Htables Hbefore).
    unfold try_catch. simpl. rewrite Hmatch.
    unfold preprocessed, validated in Hfail.
    unfold bind, await, ret, emit, tell, level_put, level_del.
    destruct Hfail as [(v & Hv & Hcall)|[(Hacc & p & Hp & Hcall)
                      |[(Hacc & (r' & Hpre) & Hput)
                       |((v & call & Hv & Hcall & Hfalsy) & Hdel)]]].
    + by rewrite Hv, Hcall.
    + destruct Hacc as [Hv|(v & call & Hv & Hcall' & Htruthy)];
        rewrite Hv in Hcall |- *; rewrite ?Hcall' in Hcall |- *; simpl;
        rewrite ?Htruthy, Hp, Hcall; done.
    + destruct Hacc as [Hv|(v & call & Hv & Hcall' & Htruthy)];
        rewrite Hv in Hpre |- *; rewrite ?Hcall' in Hpre |- *; simpl; rewrite ?Htruthy;
        destruct Hpre as [[Hp ->]|(p & call'' & Hp & Hcall'' & ->)];
        rewrite Hp, ?Hcall''; simpl; by rewrite Hput.
    + rewrite Hv, Hcall. simpl. by rewrite Hfalsy, Hdel.
  - intros Hdel. unfold unindexFile, try_catch. rewrite Htables.
    rewrite unindexOnFirstMatch_skip by done. simpl. rewrite Hmatch.
    unfold bind, ret, level_del.
    replace (length before + 0)%nat with (length before) by lia.
    by rewrite Hdel.
Qed.

(** X3. Retraction is unindexing. When the record of a file no longer passes
    its table's validator, [readAndIndexFile] leaves the database exactly as
    [unindexFile] for the same path leaves it and returns the same table
    name; when the store takes the delete the two calls are the same run,
    trace included. *)
Theorem retraction_is_unindexing w filepath s content r i table :
  readFile w filepath = Ok content ->
  JSON_parse content = Ok r ->
  first_match db filepath i table ->
  rejects table r ->
  state_of (readAndIndexFile JSON_parse db archive w filepath s) =
    state_of (unindexFile db archive w filepath s) /\
  (delFault w i (url archive +:+ filepath) = None ->
     readAndIndexFile JSON_parse db archive w filepath s =
       unindexFile db archive w filepath s).
Proof.
  intros Hread Hparse Hfirst Hrej.
  destruct (delFault w i (url archive +:+ filepath)) as [e|] eqn:Hdel.
  - split; [|done].
    pose proof Hfirst as (before & after & Htables & -> & Hbefore & Hmatch).
    destruct Hrej as (v & call & Hv & Hcall & Hfalsy).
    rewrite (readAndIndexFile_first_match JSON_parse db archive _ _ _ _ _ _ _ _
               Hread Hparse Htables Hbefore).
    unfold unindexFile, try_catch. rewrite Htables.
    rewrite unindexOnFirstMatch_skip by done. simpl. rewrite Hmatch.
    unfold bind, await, ret, emit, tell, level_del.
    replace (length before + 0)%nat with (length before) by lia.
    rewrite Hv, Hcall. simpl. by rewrite Hfalsy, Hdel.
  - rewrite (readAndIndexFile_del JSON_parse db archive w filepath s content r i table)
      by done.
    rewrite (unindexFile_first_match db archive w filepath i table s) by done.
    done.
Qed.

Lemma alter_delete_insert (l : list (gmap string IndexedRecord)) i key v :
  (forall m, l !! i = Some m -> m !! key = None) ->
  alter (delete key) i (alter (insert key v) i l) = l.
Proof.
  intros Hfree. apply list_eq. intros j.
  destruct (decide (i = j)) as [<-|Hne].
  - rewrite !list_lookup_alter_eq. destruct (l !! i) as [m|] eqn:Hm; simpl; [|done].
    f_equal. rewrite delete_insert_eq. apply delete_id. by apply Hfree.
  - by rewrite !list_lookup_alter_ne.
Qed.

(** X4. Index, then unindex. Storing the record of a file - the
    preprocessor's truthy result, or else the parsed record as the validator
    and the preprocessor leave it - and then unindexing the same path gives
    back the database there was before, when the key was free before. *)
Theorem index_then_unindex w w' filepath s content r r' i table :
  readFile w filepath = Ok content ->
  JSON_parse content = Ok r ->
  first_match db filepath i table ->
  accepts table r ->
  preprocessed table r r' ->
  putFault w i (url archive +:+ filepath) = None ->
  delFault w' i (url archive +:+ filepath) = None ->
  stored s i (url archive +:+ filepath) = None ->
  stored (state_of (readAndIndexFile JSON_parse db archive w filepath s))
         i (url archive +:+ filepath)
    = (fun _ => mkIndexed (url archive +:+ filepath) (url archive) (now w filepath) r')
        <$> levels s !! i /\
  state_of (unindexFile db archive w' filepath
              (state_of (readAndIndexFile JSON_parse db archive w filepath s))) = s.
Proof.
  intros Hread Hparse Hfirst Hacc Hpre Hput Hdel Hfree.
  rewrite (readAndIndexFile_put JSON_parse db archive w filepath s content r r' i table)
    by done.
  unfold state_of at 1 2; simpl. split.
  - rewrite stored_alter. destruct (levels s !! i); simpl; [|done].
    by rewrite lookup_insert_eq.
  - rewrite (unindexFile_first_match db archive w' filepath i table _ Hfirst Hdel).
    unfold state_of; simpl. destruct s as [l ? ? ? ? ? ?]; unfold set_levels; simpl.
    f_equal. apply alter_delete_insert. intros m Hm.
    unfold stored in Hfree. simpl in Hfree. by rewrite Hm in Hfree.
Qed.

End DispatchCases.

(** ** Batches and passes as replays of their table events *)

Section ReplayFacts.

Lemma replay_app t1 t2 l : replay (t1 ++ t2) l = replay t2 (replay t1 l).
Proof. revert l. induction t1 as [|ev t1 IH]; intros l; simpl; [done|apply IH]. Qed.

Lemma replay_event_shape {A} (x : A) ev l i :
  (fun _ => x) <$> replay_event ev l !! i = (fun _ => x) <$> l !! i.
Proof.
  destruct ev as [j k v|j k| | | |]; simpl; try done.
  all: destruct (decide (j = i)) as [->|Hne];
    [rewrite list_lookup_alter_eq; by destruct (l !! i)|by rewrite list_lookup_alter_ne].
Qed.

Lemma replay_shape {A} (x : A) t l i :
  (fun _ => x) <$> replay t l !! i = (fun _ => x) <$> l !! i.
Proof.
  revert l. induction t as [|ev t IH]; intros l; simpl; [done|].
  by rewrite IH, replay_event_shape.
Qed.

Lemma replay_length t l : length (replay t l) = length l.
Proof.
  revert l. induction t as [|ev t IH]; intros l; simpl; [done|].
  rewrite IH. destruct ev; simpl; try done; apply length_alter.
Qed.

Lemma cell_replay_event ev l i key :
  cell (replay_event ev l) i key =
    match write_of ev i key with
    | Some x => (fun _ => x) <$> l !! i
    | None => cell l i key
    end.
Proof.
  unfold cell. destruct ev as [j k v|j k| | | |]; simpl; try done.
  - destruct (Nat.eqb_spec j i) as [->|Hne]; simpl.
    + rewrite list_lookup_alter_eq.
      destruct (String.eqb_spec k key) as [->|Hk]; destruct (l !! i); simpl; try done.
      * by rewrite lookup_insert_eq.
      * by rewrite lookup_insert_ne.
    + by rewrite list_lookup_alter_ne.
  - destruct (Nat.eqb_spec j i) as [->|Hne]; simpl.
    + rewrite list_lookup_alter_eq.
      destruct (String.eqb_spec k key) as [->|Hk]; destruct (l !! i); simpl; try done.
      * by rewrite lookup_delete_eq.
      * by rewrite lookup_delete_ne.
    + by rewrite list_lookup_alter_ne.
Qed.

Lemma cell_replay t l i key :
  cell (replay t l) i key =
    match last_write t i key with
    | Some x => (fun _ => x) <$> l !! i
    | None => cell l i key
    end.
Proof.
  revert l. induction t as [|ev t IH]; intros l; simpl; [done|].
  rewrite IH. destruct (last_write t i key) as [x|].
  - apply replay_event_shape.
  - apply cell_replay_event.
Qed.

Lemma cell_ext l1 l2 :
  (forall i key, cell l1 i key = cell l2 i key) -> l1 = l2.
Proof.
  intros H. apply list_eq. intros i.
  destruct (l1 !! i) as [m1|] eqn:H1; destruct (l2 !! i) as [m2|] eqn:H2.
  - f_equal. apply map_eq. intros key. specialize (H i key).
    unfold cell in H. rewrite H1, H2 in H. simpl in H. congruence.
  - specialize (H i ""). unfold cell in H. by rewrite H1, H2 in H.
  - specialize (H i ""). unfold cell in H. by rewrite H1, H2 in H.
  - done.
Qed.

Lemma stored_cell s i key : stored s i key = cell (levels s) i key ≫= id.
Proof. unfold stored, cell. by destruct (levels s !! i). Qed.

Lemma last_write_put t i key r :
  last_write t i key = Some (Some r) -> TablePut i key r ∈ t.
Proof.
  induction t as [|ev t IH]; simpl; [done|].
  destruct (last_write t i key) as [x|].
  - intros Hx. apply elem_of_cons. right. by apply IH.
  - intros Hw. apply elem_of_cons. left.
    destruct ev as [j k v|j k| | | |]; simpl in Hw; try done.
    + destruct (Nat.eqb_spec j i) as [->|]; [|done].
      destruct (String.eqb_spec k key) as [->|]; [|done].
      simpl in Hw. congruence.
    + by destruct (Nat.eqb j i && String.eqb k key).
Qed.

Lemma prefix_append a b : String.prefix a (a +:+ b) = true.
Proof.
  induction a as [|c a IH]; simpl; [by destruct b|].
  by destruct (Ascii.ascii_dec c c).
Qed.

Lemma last_write_foreign archive clock t i key :
  Forall (own_event archive clock) t ->
  String.prefix (url archive) key = false ->
  last_write t i key = None.
Proof.
  intros Ht Hkey. induction Ht as [|ev t Hev _ IH]; simpl; [done|].
  rewrite IH. destruct ev as [j k v|j k| | | |]; simpl; try done.
  - destruct Hev as ((p & -> & _) & _).
    destruct (Nat.eqb j i); simpl; [|done].
    destruct (String.eqb_spec (url archive +:+ p) key) as [<-|]; [|done].
    by rewrite prefix_append in Hkey.
  - destruct Hev as (p & ->).
    destruct (Nat.eqb j i); simpl; [|done].
    destruct (String.eqb_spec (url archive +:+ p) key) as [<-|]; [|done].
    by rewrite prefix_append in Hkey.
Qed.

Lemma last_write_app t1 t2 i key :
  last_write (t1 ++ t2) i key =
    match last_write t2 i key with
    | Some x => Some x
    | None => last_write t1 i key
    end.
Proof.
  induction t1 as [|ev t1 IH]; simpl.
  - by destruct (last_write t2 i key).
  - rewrite IH. by destruct (last_write t2 i key).
Qed.

Lemma last_write_untimed t i key :
  last_write (untimed <$> t) i key =
    (fun x : option IndexedRecord => untimed_record <$> x) <$> last_write t i key.
Proof.
  induction t as [|ev t IH]; [done|].
  rewrite fmap_cons. cbn [last_write]. rewrite IH.
  destruct (last_write t i key) as [x|]; simpl; [done|].
  destruct ev as [j k v|j k| | | |]; simpl; try done.
  all: by destruct (Nat.eqb j i && String.eqb k key).
Qed.

Lemma untimed_same_cells t t' i key :
  untimed <$> t = untimed <$> t' ->
  last_write t i key = None -> last_write t' i key = None.
Proof.
  intros H Hnone.
  pose proof (last_write_untimed t i key) as Ht.
  pose proof (last_write_untimed t' i key) as Ht'.
  rewrite H, Ht', Hnone in Ht. by destruct (last_write t' i key).
Qed.

Lemma replay_absorbs t t' l :
  untimed <$> t = untimed <$> t' -> replay t' (replay t l) = replay t' l.
Proof.
  intros H. apply cell_ext. intros i key. rewrite !(cell_replay t').
  destruct (last_write t' i key) as [x|] eqn:Hlast.
  - apply replay_shape.
  - rewrite cell_replay. by rewrite (untimed_same_cells t' t i key).
Qed.

Lemma replay_content t t' l i key :
  untimed <$> t = untimed <$> t' ->
  (fun x : option IndexedRecord => content_of <$> x) <$> cell (replay t l) i key =
  (fun x : option IndexedRecord => content_of <$> x) <$> cell (replay t' l) i key.
Proof.
  intros H. rewrite !cell_replay.
  pose proof (last_write_untimed t i key) as Ht.
  pose proof (last_write_untimed t' i key) as Ht'.
  rewrite H, Ht' in Ht.
  destruct (last_write t i key) as [x|], (last_write t' i key) as [x'|];
    simpl in Ht; try done.
  injection Ht as Ht. destruct (l !! i); simpl; [|done]. f_equal.
  destruct x as [v|], x' as [v'|]; simpl in *; try done.
  injection Ht as H1 H2 H3. f_equal. unfold content_of. by rewrite H1, H2, H3.
Qed.

End ReplayFacts.

Section BatchReplay.

Context (JSON_parse : string -> Res Js.value) (db : Db) (archive : Archive).

Lemma first_match_table filepath i table :
  first_match db filepath i table -> table ∈ tables db.
Proof.
  intros (b & a & -> & _). apply elem_of_app. right. apply elem_of_cons. by left.
Qed.

Lemma dispatch_case_replay filepath run :
  dispatch_case db archive filepath run ->
  exists r t,
    (forall clock s, run clock s = (Ok r, set_levels (replay (t clock)) s, t clock)) /\
    (forall clock, Forall (own_event archive clock) (t clock)) /\
    (forall clock clock', untimed <$> t clock = untimed <$> t clock') /\
    (forall n, r = Some n -> exists table, table ∈ tables db /\ name table = n).
Proof.
  intros [Hrun|e Hrun|i table r' Hfirst Hrun|i table Hfirst Hrun].
  - exists None, (fun _ => []). split; [|split; [constructor|done]].
    intros clock s. rewrite Hrun. by destruct s.
  - exists None, (fun _ => [Emit (index_error (url archive +:+ filepath) e)]).
    split; [|split; [intros clock; by apply Forall_singleton|done]].
    intros clock s. rewrite Hrun. by destruct s.
  - exists (Some (name table)),
      (fun clock => [TablePut i (url archive +:+ filepath)
         (mkIndexed (url archive +:+ filepath) (url archive) (clock filepath) r')]).
    split; [exact Hrun|]. split; [|split; [done|]].
    + intros clock. apply Forall_singleton. simpl. split; [by eexists|done].
    + intros n [= <-]. exists table. split; [by eapply first_match_table|done].
  - exists (Some (name table)), (fun _ => [TableDel i (url archive +:+ filepath)]).
    split; [exact Hrun|]. split; [|split; [done|]].
    + intros clock. apply Forall_singleton. simpl. by eexists.
    + intros n [= <-]. exists table. split; [by eapply first_match_table|done].
Qed.

Lemma applyUpdates_replay_clock w updates :
  exists rs t,
    (forall clock s,
       applyUpdates JSON_parse db archive (at_clock w clock) updates s =
         (Ok rs, set_levels (replay (t clock)) s, t clock)) /\
    (forall clock, Forall (own_event archive clock) (t clock)) /\
    (forall clock clock', untimed <$> t clock = untimed <$> t clock') /\
    Forall (fun r => forall n, r = Some n ->
              exists table, table ∈ tables db /\ name table = n) rs.
Proof.
  induction updates as [|entry rest (rs & t2 & Hrest & Ht2 & Hsame2 & Hrs)].
  - exists [], (fun _ => []). split; [|split; [constructor|split; [done|constructor]]].
    intros clock s. by destruct s.
  - destruct (dispatch_case_replay _ _ (applyUpdate_case JSON_parse db archive w entry))
      as (r & t1 & Hone & Ht1 & Hsame1 & Hr).
    exists (r :: rs), (fun clock => t1 clock ++ t2 clock). split; [|split; [|split]].
    + intros clock s. unfold applyUpdates in *. simpl. rewrite Hone, Hrest.
      f_equal. f_equal. destruct s; unfold set_levels; simpl. by rewrite replay_app.
    + intros clock. by apply Forall_app.
    + intros clock clock'. rewrite !fmap_app. by rewrite (Hsame1 clock clock'), (Hsame2 clock clock').
    + by apply Forall_cons.
Qed.

Lemma applyUpdates_replay w updates :
  exists rs t,
    (forall s, applyUpdates JSON_parse db archive w updates s =
                 (Ok rs, set_levels (replay t) s, t)) /\
    Forall (own_event archive (now w)) t /\
    Forall (fun r => forall n, r = Some n ->
              exists table, table ∈ tables db /\ name table = n) rs.
Proof.
  destruct (applyUpdates_replay_clock w updates) as (rs & t & Hrun & Ht & _ & Hrs).
  exists rs, (t (now w)). split; [|by split].
  intros s. rewrite <- (Hrun (now w) s). by rewrite at_clock_now.
Qed.

(** X6. Applying a batch of updates again is absorbed. Applied a second
    time, later - the files, the tables and the stores answering as before,
    the clock showing anything - the batch returns the same results and
    leaves exactly the database that applying it once at the later time
    leaves. So against the database of the first application the second one
    changes no key and no record: only the [indexedAt] of the records it
    stores again follows the clock. *)
Theorem applyUpdates_again w clock updates s :
  applyUpdates JSON_parse db archive (at_clock w clock) updates
    (state_of (applyUpdates JSON_parse db archive w updates s)) =
  applyUpdates JSON_parse db archive (at_clock w clock) updates s /\
  result_of (applyUpdates JSON_parse db archive (at_clock w clock) updates s) =
    result_of (applyUpdates JSON_parse db archive w updates s) /\
  (forall i key,
     content_of <$> stored (state_of (applyUpdates JSON_parse db archive
                                        (at_clock w clock) updates s)) i key =
     content_of <$> stored (state_of (applyUpdates JSON_parse db archive w updates s)) i key).
Proof.
  destruct (applyUpdates_replay_clock w updates) as (rs & t & Hrun & _ & Hsame & _).
  assert (Hnow : forall s0, applyUpdates JSON_parse db archive w updates s0 =
                   (Ok rs, set_levels (replay (t (now w))) s0, t (now w))).
  { intros s0. rewrite <- (Hrun (now w) s0). by rewrite at_clock_now. }
  rewrite !Hrun, !Hnow. unfold state_of, result_of, trace_of; simpl.
  split; [|split; [done|]].
  - f_equal. f_equal. destruct s; unfold set_levels; simpl.
    by rewrite (replay_absorbs _ _ _ (Hsame (now w) clock)).
  - intros i key. rewrite !stored_cell. simpl.
    pose proof (replay_content (t clock) (t (now w)) (levels s) i key (Hsame clock (now w)))
      as Hcontent.
    destruct (cell (replay (t clock) (levels s)) i key) as [[v|]|],
             (cell (replay (t (now w)) (levels s)) i key) as [[v'|]|];
      simpl in *; congruence.
Qed.

Lemma indexArchive_levels w s :
  exists t,
    levels (state_of (indexArchive JSON_parse db archive w s)) = replay t (levels s) /\
    Forall (own_event archive (now w)) t /\
    (forall ev, ev ∈ trace_of (indexArchive JSON_parse db archive w s) ->
       is_table_write ev = true -> ev ∈ t).
Proof.
  destruct (indexArchive_outcome JSON_parse db archive w s)
    as [| | | | |info h rs s1 t1 e Hinfo Hlt Hhist Happly Hfault
        |info h rs s1 t1 t3 Hready Hlevel Hinfo Hlt Hhist Happly Hfault Ht3].
  1-5: exists []; split; [done|]; split; [constructor|];
       intros ev Hev; by apply elem_of_nil in Hev.
  all: destruct (applyUpdates_replay w (fold_left (keepUpdate db) h []))
    as (rs' & t & Hrun & Ht & _).
  all: rewrite Hrun in Happly; injection Happly as <- <- <-.
  all: exists t; split; [done|]; split; [done|].
  - by intros ev Hev _.
  - unfold trace_of; simpl. intros ev Hev Hwrite.
    apply elem_of_app in Hev as [Hev|Hev]; [done|].
    apply elem_of_cons in Hev as [->|Hev]; [by simpl in Hwrite|].
    apply elem_of_app in Hev as [Hev|Hev].
    + rewrite Forall_forall in Ht3. destruct (Ht3 _ Hev) as (n & ->).
      by simpl in Hwrite.
    + apply list_elem_of_singleton in Hev as ->. by simpl in Hwrite.
Qed.

(** X5. Stored records stay keyed by their own URL. If every record of the
    tables carries as [url] the key it is stored under, so it does after a
    pass; and every record a pass stores has the key as its [url], the
    archive as its [origin], a key that begins with the archive's URL, and
    as [indexedAt] the clock reading taken for its file. *)
Theorem pass_keeps_records_keyed w s :
  (records_keyed s ->
   records_keyed (state_of (indexArchive JSON_parse db archive w s))) /\
  (forall i key v,
     TablePut i key v ∈ trace_of (indexArchive JSON_parse db archive w s) ->
     rec_url v = key /\ origin v = url archive /\
     String.prefix (url archive) key = true /\
     exists filepath, key = url archive +:+ filepath /\ indexedAt v = now w filepath).
Proof.
  destruct (indexArchive_levels w s) as (t & Hlevels & Ht & Hin).
  split.
  - intros Hkeyed i key r. rewrite stored_cell, Hlevels, cell_replay.
    destruct (last_write t i key) as [x|] eqn:Hlast.
    + destruct (levels s !! i); simpl; [|done]. intros ->.
      apply last_write_put in Hlast.
      eapply Forall_forall in Ht; [|exact Hlast]. simpl in Ht. tauto.
    + rewrite <- stored_cell. apply Hkeyed.
  - intros i key v Hev. specialize (Hin _ Hev eq_refl).
    eapply Forall_forall in Ht; [|exact Hin]. simpl in Ht.
    destruct Ht as ((p & -> & Hat) & ? & ?). repeat split; try done.
    + apply prefix_append.
    + by exists p.
Qed.

(** X8. A pass stays with its archive. It leaves [db._archives], the
    watchers and the flags of the database as they are, keeps the number of
    tables, changes no IndexMeta record but the archive's own, and touches no
    stored record whose key does not begin with the archive's URL. *)
Theorem pass_frame w s :
  archives (state_of (indexArchive JSON_parse db archive w s)) = archives s /\
  fileEvents (state_of (indexArchive JSON_parse db archive w s)) = fileEvents s /\
  isOpen (state_of (indexArchive JSON_parse db archive w s)) = isOpen s /\
  isBeingOpened (state_of (indexArchive JSON_parse db archive w s)) = isBeingOpened s /\
  hasLevel (state_of (indexArchive JSON_parse db archive w s)) = hasLevel s /\
  length (levels (state_of (indexArchive JSON_parse db archive w s))) = length (levels s) /\
  (forall u, u <> url archive ->
     indexMetaLevel (state_of (indexArchive JSON_parse db archive w s)) !! u =
       indexMetaLevel s !! u) /\
  (forall i key, String.prefix (url archive) key = false ->
     stored (state_of (indexArchive JSON_parse db archive w s)) i key = stored s i key).
Proof.
  assert (Hbook :
    archives (state_of (indexArchive JSON_parse db archive w s)) = archives s /\
    fileEvents (state_of (indexArchive JSON_parse db archive w s)) = fileEvents s /\
    isOpen (state_of (indexArchive JSON_parse db archive w s)) = isOpen s /\
    isBeingOpened (state_of (indexArchive JSON_parse db archive w s)) = isBeingOpened s /\
    hasLevel (state_of (indexArchive JSON_parse db archive w s)) = hasLevel s /\
    (forall u, u <> url archive ->
       indexMetaLevel (state_of (indexArchive JSON_parse db archive w s)) !! u =
         indexMetaLevel s !! u)).
  { destruct (indexArchive_outcome JSON_parse db archive w s)
      as [| | | | |info h rs s1 t1 e Hinfo Hlt Hhist Happly Hfault
          |info h rs s1 t1 t3 Hready Hlevel Hinfo Hlt Hhist Happly Hfault Ht3];
      try done.
    all: destruct (applyUpdates_run JSON_parse db archive w (fold_left (keepUpdate db) h []) s)
      as (rs' & s1' & t1' & Happly' & (Hm & Ha & Hf & Ho & Hb & Hl) & _).
    all: rewrite Happly in Happly'; injection Happly' as <- <- <-.
    all: unfold state_of; simpl; repeat (split; [done|]).
    - intros u _. by rewrite Hm.
    - intros u Hu. rewrite lookup_insert_ne by done. by rewrite Hm. }
  destruct Hbook as (Ha & Hf & Ho & Hb & Hl & Hmeta).
  destruct (indexArchive_levels w s) as (t & Hlevels & Ht & _).
  repeat (split; [done|]). split; [|split; [done|]].
  - rewrite Hlevels. apply replay_length.
  - intros i key Hkey. rewrite !stored_cell, Hlevels, cell_replay.
    by rewrite (last_write_foreign archive (now w) t i key Ht Hkey).
Qed.

End BatchReplay.

Section PassExtras.

Context (JSON_parse : string -> Res Js.value) (db : Db) (archive : Archive).

Lemma set_of_spec seen rs :
  NoDup (set_of seen rs) /\
  forall x, x ∈ set_of seen rs <-> x ∈ rs /\ x ∉ seen.
Proof.
  revert seen. induction rs as [|r rs IH]; intros seen; simpl.
  - split; [constructor|]. intros x. rewrite elem_of_nil. tauto.
  - case_bool_decide as Hin.
    + destruct (IH seen) as (Hnd & Hiff). split; [done|].
      intros x. rewrite Hiff, elem_of_cons. split; [tauto|].
      intros ([->|?] & ?); tauto.
    + destruct (IH (r :: seen)) as (Hnd & Hiff). split.
      * apply NoDup_cons. split; [|done]. rewrite Hiff, elem_of_cons. tauto.
      * intros x. rewrite elem_of_cons, Hiff, !elem_of_cons.
        destruct (decide (x = r)) as [->|]; tauto.
Qed.

Lemma names_of_spec l :
  (forall n, n ∈ names_of l <-> Some n ∈ l /\ n <> "") /\
  (NoDup l -> NoDup (names_of l)).
Proof.
  assert (Hin : forall n, n ∈ names_of l <-> Some n ∈ l /\ n <> "").
  { intros n. unfold names_of. rewrite list_elem_of_omap. split.
    - intros ([m|] & Hm & Hf); [|done].
      destruct (String.eqb_spec m "") as [|Hne]; [done|]. by injection Hf as ->.
    - intros (Hm & Hne). exists (Some n). split; [done|].
      by destruct (String.eqb_spec n ""). }
  split; [done|]. clear Hin.
  induction l as [|r l IH]; intros Hnd; [constructor|].
  apply NoDup_cons in Hnd as (Hr & Hnd).
  destruct r as [n|]; simpl; [|by apply IH].
  destruct (String.eqb_spec n "") as [|Hne]; [by apply IH|].
  apply NoDup_cons. split; [|by apply IH].
  unfold names_of. rewrite list_elem_of_omap. intros ([m|] & Hm & Hf); [|done].
  destruct (String.eqb_spec m ""); [done|]. injection Hf as ->. done.
Qed.

Lemma emitIndexUpdated_exact updatedTables v s :
  emitIndexUpdated archive updatedTables v s =
    (Ok tt, s, (fun n => Emit (index_updated n (url archive) v)) <$> names_of updatedTables).
Proof.
  induction updatedTables as [|[n|] rest IH]; simpl; [done| |done].
  destruct (String.eqb n ""); [done|].
  unfold bind, emit, tell. by rewrite IH.
Qed.

Lemma indexArchive_advances w s info h rs s1 t1 :
  (isOpen s || isBeingOpened s) = true ->
  hasLevel s = true ->
  getInfo w = Ok info ->
  read_watermark w s (url archive) < info_version info ->
  history w (read_watermark w s (url archive) + 1) (info_version info + 1) = Ok h ->
  applyUpdates JSON_parse db archive w (fold_left (keepUpdate db) h []) s = (Ok rs, s1, t1) ->
  metaPutFault w (url archive) = None ->
  indexArchive JSON_parse db archive w s =
    (Ok tt,
     set_indexMetaLevel
       (insert (url archive) (advanced_meta archive s (info_version info))) s1,
     t1 ++ MetaPut (url archive) (advanced_meta archive s (info_version info))
        :: ((fun n => Emit (index_updated n (url archive) (info_version info)))
              <$> names_of (set_of [] rs))
        ++ [Emit (indexes_updated (url archive) (info_version info))]).
Proof.
  intros Hready Hlevel Hinfo Hlt Hhist Happly Hfault.
  destruct (applyUpdates_run JSON_parse db archive w (fold_left (keepUpdate db) h []) s)
    as (rs' & s1' & t1' & Happly' & (Hmeta & _) & _).
  rewrite Happly in Happly'. injection Happly' as <- <- <-.
  unfold indexArchive, bind, get_state. rewrite <- negb_orb, Hready, Hlevel. simpl.
  destruct (getIndexMeta_run archive w s) as (indexMeta & -> & ->).
  unfold await, scanArchiveHistoryForUpdates, bind, await, ret. rewrite Hinfo.
  destruct (Z.geb_spec (read_watermark w s (url archive)) (info_version info)); [lia|].
  rewrite Hhist, Happly.
  unfold LevelUtil_update, bind, get_state, meta_put. rewrite Hfault. simpl.
  rewrite Hmeta. fold (advanced_meta archive s (info_version info)).
  rewrite emitIndexUpdated_exact. unfold emit, tell. done.
Qed.

(** X9. The signals of a pass that advances. After the watermark write the
    pass emits [index-updated] once for each table name the dispatcher
    returned - no name twice, none for [false] or for an empty name - each a
    name of a table of [db.tables], and then [indexes-updated] once, as the
    last event, also when no table was touched. *)
Theorem pass_signals w s info h :
  (isOpen s || isBeingOpened s) = true ->
  hasLevel s = true ->
  getInfo w = Ok info ->
  read_watermark w s (url archive) < info_version info ->
  history w (read_watermark w s (url archive) + 1) (info_version info + 1) = Ok h ->
  metaPutFault w (url archive) = None ->
  exists rs t1 names,
    result_of (applyUpdates JSON_parse db archive w (fold_left (keepUpdate db) h []) s) = Ok rs /\
    trace_of (applyUpdates JSON_parse db archive w (fold_left (keepUpdate db) h []) s) = t1 /\
    trace_of (indexArchive JSON_parse db archive w s) =
      t1 ++ MetaPut (url archive) (advanced_meta archive s (info_version info))
         :: ((fun n => Emit (index_updated n (url archive) (info_version info))) <$> names)
         ++ [Emit (indexes_updated (url archive) (info_version info))] /\
    NoDup names /\
    (forall n, n ∈ names <-> Some n ∈ rs /\ n <> "") /\
    (forall n, n ∈ names -> exists table, table ∈ tables db /\ name table = n).
Proof.
  intros Hready Hlevel Hinfo Hlt Hhist Hfault.
  destruct (applyUpdates_replay JSON_parse db archive w (fold_left (keepUpdate db) h []))
    as (rs & t1 & Hrun & _ & Hrs).
  exists rs, t1, (names_of (set_of [] rs)).
  rewrite (indexArchive_advances w s info h rs _ t1 Hready Hlevel Hinfo Hlt Hhist (Hrun s) Hfault).
  rewrite Hrun. unfold result_of, trace_of; simpl.
  destruct (set_of_spec [] rs) as (Hnd & Hset).
  destruct (names_of_spec (set_of [] rs)) as (Hnames & Hnd').
  repeat (split; [done|]). split; [by apply Hnd'|]. split.
  - intros n. rewrite Hnames, Hset, elem_of_nil. tauto.
  - intros n Hn. apply Hnames in Hn as (Hn & _). apply Hset in Hn as (Hn & _).
    rewrite Forall_forall in Hrs. by apply (Hrs _ Hn).
Qed.

Lemma scan_no_match h :
  Forall (fun u => tableFilePatterns db (path u) = false) h ->
  fold_left (keepUpdate db) h [] = [].
Proof.
  induction h as [|u h IH] using rev_ind; [done|].
  intros H. apply Forall_app in H as (Hh & Hu). apply Forall_cons in Hu as (Hu & _).
  rewrite fold_left_app. simpl. rewrite (IH Hh). unfold keepUpdate. by rewrite Hu.
Qed.

(** X10. A range without a matching path. When no change of the scanned
    slice matches a table file pattern, the scan retains nothing, so no file
    is dispatched. The pass still advances the watermark to the reported
    version and emits [indexes-updated]: its whole trace is the meta write
    and that one signal, and it leaves every table as it was. It does so
    whatever the files of the archive hold, whatever the table stores would
    answer and whatever the clock shows. *)
Theorem pass_without_matching_change w s info h :
  (isOpen s || isBeingOpened s) = true ->
  hasLevel s = true ->
  getInfo w = Ok info ->
  read_watermark w s (url archive) < info_version info ->
  history w (read_watermark w s (url archive) + 1) (info_version info + 1) = Ok h ->
  Forall (fun u => tableFilePatterns db (path u) = false) h ->
  metaPutFault w (url archive) = None ->
  scanArchiveHistoryForUpdates db w
    (read_watermark w s (url archive) + 1) (info_version info + 1) s = (Ok [], s, []) /\
  indexArchive JSON_parse db archive w s =
    (Ok tt,
     set_indexMetaLevel
       (insert (url archive) (advanced_meta archive s (info_version info))) s,
     [MetaPut (url archive) (advanced_meta archive s (info_version info));
      Emit (indexes_updated (url archive) (info_version info))]) /\
  levels (state_of (indexArchive JSON_parse db archive w s)) = levels s /\
  (forall files puts dels clock,
     indexArchive JSON_parse db archive
       (mkWorld (getInfo w) (history w) files (listRecordFiles w) puts dels
                (metaGetFault w) (metaPutFault w) (metaDelFault w) clock) s =
     indexArchive JSON_parse db archive w s).
Proof.
  intros Hready Hlevel Hinfo Hlt Hhist Hnone Hfault.
  assert (Hpass : forall w',
    getInfo w' = Ok info ->
    read_watermark w' s (url archive) = read_watermark w s (url archive) ->
    history w' (read_watermark w s (url archive) + 1) (info_version info + 1) = Ok h ->
    metaPutFault w' (url archive) = None ->
    indexArchive JSON_parse db archive w' s =
      (Ok tt,
       set_indexMetaLevel
         (insert (url archive) (advanced_meta archive s (info_version info))) s,
       [MetaPut (url archive) (advanced_meta archive s (info_version info));
        Emit (indexes_updated (url archive) (info_version info))])).
  { intros w' Hinfo' Hread' Hhist' Hfault'.
    rewrite (indexArchive_advances w' s info h [] s [] Hready Hlevel Hinfo');
      rewrite ?Hread'; try done.
    by rewrite (scan_no_match h Hnone). }
  split; [|split; [|split]].
  - unfold scanArchiveHistoryForUpdates, bind, await, ret. rewrite Hhist.
    by rewrite (scan_no_match h Hnone).
  - by apply Hpass.
  - by rewrite (Hpass w).
  - intros files puts dels clock. rewrite (Hpass w) by done. by apply Hpass.
Qed.

Lemma indexOnFirstMatch_repaired w clock filepath r ts i :
  indexOnFirstMatch archive (repaired w clock) filepath r ts i =
  indexOnFirstMatch archive (at_clock w clock) filepath r ts i.
Proof.
  revert i. induction ts as [|table rest IH]; intros i; simpl; [done|].
  by rewrite IH.
Qed.

Lemma unindexOnFirstMatch_repaired w clock filepath ts i :
  unindexOnFirstMatch archive (repaired w clock) filepath ts i =
  unindexOnFirstMatch archive (at_clock w clock) filepath ts i.
Proof.
  revert i. induction ts as [|table rest IH]; intros i; simpl; [done|].
  by rewrite IH.
Qed.

Lemma applyUpdates_repaired w clock updates s :
  applyUpdates JSON_parse db archive (repaired w clock) updates s =
  applyUpdates JSON_parse db archive (at_clock w clock) updates s.
Proof.
  assert (Hone : forall entry s0,
    applyUpdate JSON_parse db archive (repaired w clock) entry s0 =
    applyUpdate JSON_parse db archive (at_clock w clock) entry s0).
  { intros entry s0. unfold applyUpdate. destruct (String.eqb _ _).
    - unfold unindexFile. by rewrite unindexOnFirstMatch_repaired.
    - unfold readAndIndexFile, try_catch, bind, await. cbn [readFile repaired at_clock].
      destruct (readFile w _) as [content|]; [|done].
      destruct (JSON_parse content); [|done].
      by rewrite indexOnFirstMatch_repaired. }
  revert s. unfold applyUpdates.
  induction updates as [|entry rest IH]; intros s; simpl; [done|].
  rewrite Hone. destruct (applyUpdate _ _ _ (at_clock w clock) entry s) as [[[r|e] s1] t1];
    by rewrite IH.
Qed.

(** X7. Repair after a failed watermark write. When a pass has applied its
    updates and the write of the watermark is rejected, the pass rejects
    with the watermark where it was; the tables are already those a pass
    without the failure leaves. The next pass - later, the archive, the
    tables and the stores answering as before, the meta store taking the
    write - scans the same range again and records the version. It leaves
    the tables a pass made at that time without any failure before it
    leaves: against the failed pass it changes no key and no record, only
    the [indexedAt] of the records it stores again. *)
Theorem repair_after_failed_watermark_write w clock s info h e :
  (isOpen s || isBeingOpened s) = true ->
  hasLevel s = true ->
  getInfo w = Ok info ->
  read_watermark w s (url archive) < info_version info ->
  history w (read_watermark w s (url archive) + 1) (info_version info + 1) = Ok h ->
  metaPutFault w (url archive) = Some e ->
  result_of (indexArchive JSON_parse db archive w s) = Throw e /\
  watermark (state_of (indexArchive JSON_parse db archive w s)) (url archive)
    = watermark s (url archive) /\
  levels (state_of (indexArchive JSON_parse db archive w s))
    = levels (state_of (indexArchive JSON_parse db archive (repaired w (now w)) s)) /\
  result_of (indexArchive JSON_parse db archive (repaired w clock)
               (state_of (indexArchive JSON_parse db archive w s))) = Ok tt /\
  levels (state_of (indexArchive JSON_parse db archive (repaired w clock)
                      (state_of (indexArchive JSON_parse db archive w s))))
    = levels (state_of (indexArchive JSON_parse db archive (repaired w clock) s)) /\
  (forall i key,
     content_of <$> stored (state_of (indexArchive JSON_parse db archive (repaired w clock)
                                        (state_of (indexArchive JSON_parse db archive w s))))
                           i key =
     content_of <$> stored (state_of (indexArchive JSON_parse db archive w s)) i key) /\
  watermark (state_of (indexArchive JSON_parse db archive (repaired w clock)
                         (state_of (indexArchive JSON_parse db archive w s))))
            (url archive)
    = info_version info.
Proof.
  intros Hready Hlevel Hinfo Hlt Hhist Hfault.
  destruct (applyUpdates_replay_clock JSON_parse db archive w (fold_left (keepUpdate db) h []))
    as (rs & t & Hrun & _ & Hsame & _).
  assert (Hnow : forall s0,
    applyUpdates JSON_parse db archive w (fold_left (keepUpdate db) h []) s0 =
      (Ok rs, set_levels (replay (t (now w))) s0, t (now w))).
  { intros s0. rewrite <- (Hrun (now w) s0). by rewrite at_clock_now. }
  destruct (indexArchive_proceeds JSON_parse db archive w s info h Hready Hlevel Hinfo Hlt Hhist)
    as (rs' & s1 & t1 & t3 & Happly & _ & _ & _ & Hfailed).
  rewrite Hnow in Happly. injection Happly as <- <- <-.
  rewrite Hfault in Hfailed. rewrite Hfailed.
  unfold result_of, state_of; simpl.
  assert (Hpass : forall c s0,
    isOpen s0 = isOpen s -> isBeingOpened s0 = isBeingOpened s -> hasLevel s0 = hasLevel s ->
    indexMetaLevel s0 = indexMetaLevel s ->
    indexArchive JSON_parse db archive (repaired w c) s0 =
      (Ok tt,
       set_indexMetaLevel
         (insert (url archive) (advanced_meta archive s (info_version info)))
         (set_levels (replay (t c)) s0),
       t c ++ MetaPut (url archive) (advanced_meta archive s (info_version info))
           :: ((fun n => Emit (index_updated n (url archive) (info_version info)))
                 <$> names_of (set_of [] rs))
           ++ [Emit (indexes_updated (url archive) (info_version info))])).
  { intros c s0 Ho Hb Hl Hm.
    assert (Hread : read_watermark (repaired w c) s0 (url archive)
                    = read_watermark w s (url archive)).
    { unfold read_watermark, watermark. simpl. by rewrite Hm. }
    assert (Hadv : advanced_meta archive s0 (info_version info)
                   = advanced_meta archive s (info_version info)).
    { unfold advanced_meta. by rewrite Hm. }
    rewrite (indexArchive_advances (repaired w c) s0 info h rs
               (set_levels (replay (t c)) s0) (t c)); rewrite ?Hread, ?Hadv; try done.
    - by rewrite Ho, Hb.
    - by rewrite Hl.
    - by rewrite applyUpdates_repaired, Hrun. }
  rewrite !Hpass by done. simpl.
  split; [done|]. split; [done|]. split; [done|]. split; [done|]. split; [|split].
  - by rewrite (replay_absorbs _ _ _ (Hsame (now w) clock)).
  - intros i key. rewrite !stored_cell. simpl.
    rewrite (replay_absorbs _ _ _ (Hsame (now w) clock)).
    pose proof (replay_content (t clock) (t (now w)) (levels s) i key (Hsame clock (now w)))
      as Hcontent.
    destruct (cell (replay (t clock) (levels s)) i key) as [[v|]|],
             (cell (replay (t (now w)) (levels s)) i key) as [[v'|]|];
      simpl in *; congruence.
  - apply watermark_set_meta.
Qed.

End PassExtras.

(** ** The lifecycle, further *)

Section LifecycleExtras.

Context (JSON_parse : string -> Res Js.value) (db : Db) (archive : Archive).

Lemma pass_after_pass w w' s :
  result_of (indexArchive JSON_parse db archive w s) = Ok tt ->
  getInfo w' = getInfo w ->
  metaGetFault w (url archive) = None ->
  metaGetFault w' (url archive) = None ->
  indexArchive JSON_parse db archive w'
    (state_of (indexArchive JSON_parse db archive w s)) =
  (Ok tt, state_of (indexArchive JSON_parse db archive w s), []).
Proof.
  intros Hok Hsame Hfine Hfine'.
  destruct (indexArchive_outcome JSON_parse db archive w s)
    as [Hopen Hbeing|Hlevel|e Hinfo|info Hinfo Hle|info e Hinfo Hlt Hhist
        |info h rs s1 t1 e Hinfo Hlt Hhist Happly Hfault
        |info h rs s1 t1 t3 Hready Hlevel Hinfo Hlt Hhist Happly Hfault Ht3];
    try discriminate; unfold state_of; simpl.
  - apply indexArchive_guarded. left. by rewrite Hopen, Hbeing.
  - apply indexArchive_guarded. by right.
  - apply (indexArchive_up_to_date _ _ _ _ _ info); [congruence|].
    rewrite read_watermark_fine in Hle by done. by rewrite read_watermark_fine.
  - apply (indexArchive_up_to_date _ _ _ _ _ info); [congruence|].
    rewrite read_watermark_fine by done.
    rewrite watermark_set_meta. simpl. lia.
Qed.

Lemma indexArchive_no_sleep w s :
  sleeps (trace_of (indexArchive JSON_parse db archive w s)) = 0%nat.
Proof.
  assert (Hown : forall t, Forall (own_event archive (now w)) t -> sleeps t = 0%nat).
  { intros t Ht. unfold sleeps. rewrite filter_none; [done|].
    eapply Forall_impl; [exact Ht|]. by intros [| | | | |]. }
  destruct (indexArchive_outcome JSON_parse db archive w s)
    as [| | | | |info h rs s1 t1 e Hinfo Hlt Hhist Happly Hfault
        |info h rs s1 t1 t3 Hready Hlevel Hinfo Hlt Hhist Happly Hfault Ht3];
    try done.
  all: destruct (applyUpdates_replay JSON_parse db archive w (fold_left (keepUpdate db) h []))
    as (rs' & t & Hrun & Ht & _).
  all: rewrite Hrun in Happly; injection Happly as <- <- <-.
  all: unfold trace_of; simpl.
  - by apply Hown.
  - unfold sleeps. rewrite List.filter_app, length_app. fold (sleeps t).
    rewrite (Hown t Ht). simpl. rewrite filter_none; [done|].
    apply Forall_app. split; [|by apply Forall_singleton].
    eapply Forall_impl; [exact Ht3|]. by intros ev (n & ->).
Qed.

(** X11. The ['changed'] listener reports, it does not retry. The listener
    always resolves. When its pass rejects - with a timeout as with any
    other error - the database is left as the pass left it and one
    [source-error] signal with the error ends the trace; no [source-missing]
    is emitted and no timer is set, unlike after a failed first pass. *)
Theorem changed_listener_reports w s e :
  result_of (indexArchive JSON_parse db archive w s) = Throw e ->
  onChanged JSON_parse db archive w s =
    (Ok tt,
     state_of (indexArchive JSON_parse db archive w s),
     trace_of (indexArchive JSON_parse db archive w s)
       ++ [Emit (source_error (url archive) e)]) /\
  sleeps (trace_of (onChanged JSON_parse db archive w s)) = 0%nat /\
  Emit (source_missing (url archive)) ∉ trace_of (onChanged JSON_parse db archive w s).
Proof.
  intros Hfail.
  pose proof (indexArchive_no_sleep w s) as Hsleep.
  pose proof (indexArchive_quiet JSON_parse db archive w s) as Hquiet.
  assert (Hrun : onChanged JSON_parse db archive w s =
    (Ok tt, state_of (indexArchive JSON_parse db archive w s),
     trace_of (indexArchive JSON_parse db archive w s)
       ++ [Emit (source_error (url archive) e)])).
  { unfold onChanged, try_catch, emit, tell.
    destruct (indexArchive _ _ _ _ _) as [[[[]|e'] s1] t1]; [done|].
    unfold result_of in Hfail. simpl in Hfail. by injection Hfail as ->. }
  split; [done|]. rewrite Hrun. unfold trace_of at 1 3; simpl. split.
  - unfold sleeps in *. rewrite List.filter_app, length_app, Hsleep. done.
  - intros Hin. apply elem_of_app in Hin as [Hin|Hin].
    + rewrite Forall_forall in Hquiet. by specialize (Hquiet _ Hin).
    + by apply list_elem_of_singleton in Hin.
Qed.

(** X12. A burst of ['changed'] events indexes once. When the listener for
    the first event made its pass, the listeners for the events that follow,
    to which the archive reports the same, write nothing and emit nothing,
    as long as the passes read the stored watermark: the burst leaves the
    database and the trace of its first listener. *)
Theorem changed_burst_indexes_once w ws s :
  result_of (indexArchive JSON_parse db archive w s) = Ok tt ->
  metaGetFault w (url archive) = None ->
  Forall (fun w' => getInfo w' = getInfo w /\ metaGetFault w' (url archive) = None) ws ->
  onChangedAll JSON_parse db archive (w :: ws) s =
    (Ok tt,
     state_of (indexArchive JSON_parse db archive w s),
     trace_of (indexArchive JSON_parse db archive w s)).
Proof.
  intros Hok Hfine Hws.
  assert (Hrest : onChangedAll JSON_parse db archive ws
                    (state_of (indexArchive JSON_parse db archive w s)) =
                  (Ok tt, state_of (indexArchive JSON_parse db archive w s), [])).
  { induction Hws as [|w' ws (Hw' & Hfine') _ IH]; [done|].
    simpl. unfold bind, onChanged, try_catch.
    rewrite (pass_after_pass w w' s Hok Hw' Hfine Hfine'). by rewrite IH. }
  simpl. unfold bind, onChanged at 1, try_catch.
  destruct (indexArchive JSON_parse db archive w s) as [[[[]|e] s1] t1] eqn:Hpass;
    [|done].
  unfold state_of, trace_of in *; simpl in *. rewrite Hrest. by rewrite app_nil_r.
Qed.

Lemma indexArchive_history_failed w s info e :
  (isOpen s || isBeingOpened s) = true ->
  hasLevel s = true ->
  getInfo w = Ok info ->
  read_watermark w s (url archive) < info_version info ->
  history w (read_watermark w s (url archive) + 1) (info_version info + 1) = Throw e ->
  indexArchive JSON_parse db archive w s = (Throw e, s, []).
Proof.
  intros Hready Hlevel Hinfo Hlt Hhist.
  unfold indexArchive, bind, get_state. rewrite <- negb_orb, Hready, Hlevel. simpl.
  destruct (getIndexMeta_run archive w s) as (indexMeta & -> & ->).
  unfold await, scanArchiveHistoryForUpdates, bind, await, ret. rewrite Hinfo.
  destruct (Z.geb_spec (read_watermark w s (url archive)) (info_version info)); [lia|].
  by rewrite Hhist.
Qed.

(** X13. How [addArchive] fails. A [getInfo] that rejects, and a meta store
    that rejects the first write, make [addArchive] reject with nothing
    written and no signal: these two are outside the [catch]. A first pass
    that rejects is caught: [addArchive] goes on as [onFailInitialIndex]
    does, with the IndexMeta record at version 0 in place; for an error
    that is not a timeout it resolves after one [source-error] signal and
    attaches no watcher. *)
Theorem addArchive_failures w ticks s :
  (forall e, getInfo w = Throw e ->
     addArchive JSON_parse db archive w ticks s = (Throw e, s, [])) /\
  (forall info e,
     getInfo w = Ok info ->
     metaPutFault w (url archive) = Some e ->
     addArchive JSON_parse db archive w ticks s = (Throw e, s, [])) /\
  (forall info e,
     getInfo w = Ok info ->
     metaPutFault w (url archive) = None ->
     (isOpen s || isBeingOpened s) = true ->
     hasLevel s = true ->
     0 < info_version info ->
     history w 1 (info_version info + 1) = Throw e ->
     let meta0 := mkMeta (url archive) 0 (Some (isOwner info)) (localPath archive) in
     let s0 := set_indexMetaLevel (insert (url archive) meta0) s in
     addArchive JSON_parse db archive w ticks s =
       (result_of (onFailInitialIndex JSON_parse db archive e ticks s0),
        state_of (onFailInitialIndex JSON_parse db archive e ticks s0),
        MetaPut (url archive) meta0
          :: trace_of (onFailInitialIndex JSON_parse db archive e ticks s0)) /\
     (Js.isTimeout e = false ->
        addArchive JSON_parse db archive w ticks s =
          (Ok tt, s0, [MetaPut (url archive) meta0; Emit (source_error (url archive) e)]) /\
        fileEvents s0 = fileEvents s)).
Proof.
  split; [|split].
  - intros e Hinfo. unfold addArchive, bind, await. by rewrite Hinfo.
  - intros info e Hinfo Hfault. unfold addArchive, bind, await, meta_put.
    by rewrite Hinfo, Hfault.
  - intros info e Hinfo Hfault Hready Hlevel Hpos Hhist meta0 s0.
    assert (Hzero : read_watermark w s0 (url archive) = 0).
    { apply read_watermark_zero, watermark_set_meta. }
    assert (Hpass : indexArchive JSON_parse db archive w s0 = (Throw e, s0, [])).
    { apply (indexArchive_history_failed w s0 info e); rewrite ?Hzero; done. }
    assert (Hrun : addArchive JSON_parse db archive w ticks s =
      (result_of (onFailInitialIndex JSON_parse db archive e ticks s0),
       state_of (onFailInitialIndex JSON_parse db archive e ticks s0),
       MetaPut (url archive) meta0
         :: trace_of (onFailInitialIndex JSON_parse db archive e ticks s0))).
    { unfold addArchive, bind, await, meta_put, try_catch.
      rewrite Hinfo, Hfault. fold meta0. fold s0. rewrite Hpass.
      by destruct (onFailInitialIndex _ _ _ _ _ _) as [[r s'] t]. }
    split; [done|]. intros Hother. split; [|done].
    rewrite Hrun. unfold onFailInitialIndex. by rewrite Hother.
Qed.

Lemma list_all_ok w (l : list nat) s :
  (forall i, i ∈ l -> exists urls, listRecordFiles w i = Ok urls) ->
  exists rs, promise_all (listTable w) l s = (Ok rs, s, []).
Proof.
  induction l as [|j rest IH]; intros Hall; simpl; [by exists []|].
  destruct (Hall j) as (urls & Hj); [apply elem_of_cons; by left|].
  destruct IH as (rs & Hrest). { intros i Hi. apply Hall. apply elem_of_cons. by right. }
  unfold listTable at 1, bind, await, ret. rewrite Hj, Hrest. by eexists.
Qed.

Lemma list_all_throw w (l : list nat) s i e :
  i ∈ l -> listRecordFiles w i = Throw e ->
  exists e', promise_all (listTable w) l s = (Throw e', s, []).
Proof.
  intros Hi Hthrow. induction l as [|j rest IH]; [by apply elem_of_nil in Hi|].
  simpl. unfold listTable at 1, bind, await, ret.
  destruct (list_all_run w rest s) as (r & Hrest & _).
  destruct (listRecordFiles w j) as [urls|e0] eqn:Hj; rewrite Hrest.
  - apply elem_of_cons in Hi as [->|Hi]; [congruence|].
    destruct (IH Hi) as (e' & He'). rewrite Hrest in He'. injection He' as ->. by eexists.
  - by eexists.
Qed.

Lemma delete_all_faulty w (ms : list (nat * string)) s :
  exists r s' t,
    promise_all (fun m => level_del w m.1 m.2) ms s = (r, s', t) /\
    (forall i key e, (i, key) ∈ ms -> delFault w i key = Some e -> exists e', r = Throw e') /\
    (forall i key, (i, key) ∈ ms -> delFault w i key = None -> stored s' i key = None).
Proof.
  revert s. induction ms as [|[j key'] rest IH]; intros s.
  - exists (Ok []), s, []. split; [done|].
    split; intros i key; [intros e|]; intros Hin; by apply elem_of_nil in Hin.
  - simpl. unfold level_del at 1. simpl.
    destruct (delete_all_run w rest
                (match delFault w j key' with
                 | Some _ => s
                 | None => set_levels (alter (delete key') j) s
                 end)) as (r0 & s0 & t0 & Hrun0 & _ & Hkeep & _).
    destruct (delFault w j key') as [e|] eqn:Hf.
    + destruct (IH s) as (r & s' & t & Hrun & Hthrow & Hgone). rewrite Hrun.
      eexists _, _, _. split; [reflexivity|]. split.
      * intros i key e0 _ _. by eexists.
      * intros i key Hin Hnone. apply elem_of_cons in Hin as [Heq|Hin].
        -- injection Heq as -> ->. congruence.
        -- by apply Hgone.
    + destruct (IH (set_levels (alter (delete key') j) s))
        as (r & s' & t & Hrun & Hthrow & Hgone).
      rewrite Hrun in Hrun0. injection Hrun0 as <- <- <-. rewrite Hrun.
      assert (Hhere : stored s' j key' = None) by apply Hkeep, stored_alter_delete.
      destruct r as [rs|e].
      * eexists _, _, _. split; [reflexivity|]. split.
        -- intros i key e0 Hin Hfault. apply elem_of_cons in Hin as [Heq|Hin].
           ++ injection Heq as -> ->. congruence.
           ++ destruct (Hthrow i key e0 Hin Hfault) as (e' & He'). done.
        -- intros i key Hin Hnone. apply elem_of_cons in Hin as [Heq|Hin].
           ++ by injection Heq as -> ->.
           ++ by apply Hgone.
      * eexists _, _, _. split; [reflexivity|]. split.
        -- intros i key e0 _ _. by eexists.
        -- intros i key Hin Hnone. apply elem_of_cons in Hin as [Heq|Hin].
           ++ by injection Heq as -> ->.
           ++ by apply Hgone.
Qed.

(** X14. How [removeArchive] fails. When a table cannot list its record
    files, [removeArchive] rejects and nothing at all has changed. When the
    listing succeeds and the store rejects one of the deletions,
    [removeArchive] rejects as well, and it has neither deleted the
    IndexMeta record nor detached the watcher; the deletions the store did
    take have happened all the same. *)
Theorem removeArchive_failures w s :
  (forall i e,
     (i < length (tables db))%nat ->
     listRecordFiles w i = Throw e ->
     exists e', removeArchive db archive w s = (Throw e', s, [])) /\
  (forall i urls key e,
     (forall j, (j < length (tables db))%nat -> exists us, listRecordFiles w j = Ok us) ->
     (i < length (tables db))%nat ->
     listRecordFiles w i = Ok urls ->
     key ∈ urls ->
     delFault w i key = Some e ->
     (exists e', result_of (removeArchive db archive w s) = Throw e') /\
     indexMetaLevel (state_of (removeArchive db archive w s)) = indexMetaLevel s /\
     fileEvents (state_of (removeArchive db archive w s)) = fileEvents s /\
     forall j us k,
       (j < length (tables db))%nat ->
       listRecordFiles w j = Ok us ->
       k ∈ us ->
       delFault w j k = None ->
       stored (state_of (removeArchive db archive w s)) j k = None).
Proof.
  split.
  - intros i e Hi Hthrow.
    destruct (list_all_throw w (seq 0 (length (tables db))) s i e) as (e' & He'); try done.
    { apply elem_of_seq. lia. }
    exists e'. unfold removeArchive, unindexArchive, scanArchiveForRecords, bind.
    by rewrite He'.
  - intros i urls key e Hall Hi Hurls Hkey Hfault.
    destruct (list_all_ok w (seq 0 (length (tables db))) s) as (rs & Hlist).
    { intros j Hj. apply Hall. apply elem_of_seq in Hj. lia. }
    destruct (list_all_run w (seq 0 (length (tables db))) s) as (r & Hlist' & Hlisted).
    rewrite Hlist in Hlist'. injection Hlist' as <-.
    assert (Hin : forall j us k, (j < length (tables db))%nat ->
              listRecordFiles w j = Ok us -> k ∈ us -> (j, k) ∈ concat rs).
    { intros j us k Hj Hus Hk. eapply (Hlisted rs eq_refl j us k); try done.
      apply elem_of_seq. lia. }
    destruct (delete_all_faulty w (concat rs) s) as (r & s' & t & Hdel & Hthrow & Hgone).
    destruct (delete_all_run w (concat rs) s) as (r' & s'' & t' & Hdel' & Hbook & _).
    rewrite Hdel in Hdel'. injection Hdel' as <- <- <-.
    destruct (Hthrow i key e (Hin i urls key Hi Hurls Hkey) Hfault) as (e' & ->).
    assert (Hrun : removeArchive db archive w s = (Throw e', s', t)).
    { unfold removeArchive, unindexArchive, scanArchiveForRecords, bind.
      rewrite Hlist. unfold ret. simpl. by rewrite Hdel. }
    rewrite Hrun. unfold result_of, state_of; simpl.
    destruct Hbook as (Hmeta & _ & Hfe & _).
    split; [by eexists|]. split; [done|]. split; [done|].
    intros j us k Hj Hus Hk Hnone. apply Hgone; [|done]. by eapply Hin.
Qed.

End LifecycleExtras.

Section WatcherFacts.

Context (archive : Archive).


End WatcherFacts.

(** ** The retry loop's waits, the rebuild reset and the meta store *)

Section ResetFacts.

Context (JSON_parse : string -> Res Js.value) (db : Db) (archive : Archive).

Lemma no_sleep_forall t :
  sleeps t = 0%nat -> Forall (fun ev => forall ms, ev = Sleep ms -> ms = 30000) t.
Proof.
  induction t as [|ev t IH]; [constructor|].
  unfold sleeps. simpl. destruct ev; simpl; try discriminate.
  all: intros H; apply Forall_cons; split; [done|by apply IH].
Qed.

(** X17. The waits of the retry loop. Every timer the loop sets is one of
    30 seconds, the trace of a loop that woke up at all begins with such a
    wait, the loop waits at most once for each wake-up it is given, and a
    loop that is still asleep at the end has waited once for each of them. *)
Theorem retry_waits ticks s :
  Forall (fun ev => forall ms, ev = Sleep ms -> ms = 30000)
    (trace_of (retryLoop JSON_parse db archive ticks s)) /\
  (sleeps (trace_of (retryLoop JSON_parse db archive ticks s)) <= length ticks)%nat /\
  (ticks <> [] ->
     head (trace_of (retryLoop JSON_parse db archive ticks s)) = Some (Sleep 30000)) /\
  (result_of (retryLoop JSON_parse db archive ticks s) = Ok Asleep ->
     sleeps (trace_of (retryLoop JSON_parse db archive ticks s)) = length ticks).
Proof.
  split; [|split; [|split]].
  - revert s. induction ticks as [|t rest IH]; intros s; [constructor|].
    rewrite retryLoop_step.
    destruct (negb (isOpen (interference t s)) || _).
    { apply Forall_singleton. by intros ms [= <-]. }
    pose proof (indexArchive_no_sleep JSON_parse db archive (world t) (interference t s))
      as Hpass.
    apply no_sleep_forall in Hpass.
    destruct (indexArchive _ _ _ _ _) as [[[[]|e] s2] tr]; unfold trace_of in *; simpl in *.
    + apply Forall_cons. split; [by intros ms [= <-]|done].
    + destruct (negb (Js.isTimeout e)).
      * apply Forall_cons. split; [by intros ms [= <-]|done].
      * specialize (IH s2). destruct (retryLoop _ _ _ rest s2) as [[exit s3] tr'].
        apply Forall_cons. split; [by intros ms [= <-]|]. by apply Forall_app.
  - revert s. induction ticks as [|t rest IH]; intros s; [done|].
    rewrite retryLoop_step.
    destruct (negb (isOpen (interference t s)) || _); [unfold sleeps, trace_of; simpl; lia|].
    pose proof (indexArchive_no_sleep JSON_parse db archive (world t) (interference t s))
      as Hpass.
    destruct (indexArchive _ _ _ _ _) as [[[[]|e] s2] tr].
    + unfold sleeps, trace_of in *; simpl in *. lia.
    + destruct (negb (Js.isTimeout e)).
      * unfold sleeps, trace_of in *; simpl in *. lia.
      * specialize (IH s2). destruct (retryLoop _ _ _ rest s2) as [[exit s3] tr'].
        unfold sleeps, trace_of in *; simpl in *.
        rewrite List.filter_app, length_app. lia.
  - intros Hne. destruct ticks as [|t rest]; [done|]. rewrite retryLoop_step.
    destruct (negb (isOpen (interference t s)) || _); [done|].
    destruct (indexArchive _ _ _ _ _) as [[[[]|e] s2] tr]; [done|].
    destruct (negb (Js.isTimeout e)); [done|].
    by destruct (retryLoop _ _ _ rest s2) as [[exit s3] tr'].
  - revert s. induction ticks as [|t rest IH]; intros s; [done|].
    rewrite retryLoop_step.
    destruct (negb (isOpen (interference t s)) || _); [done|].
    pose proof (indexArchive_no_sleep JSON_parse db archive (world t) (interference t s))
      as Hpass.
    destruct (indexArchive _ _ _ _ _) as [[[[]|e] s2] tr]; [done|].
    destruct (negb (Js.isTimeout e)); [done|].
    specialize (IH s2). destruct (retryLoop _ _ _ rest s2) as [[exit s3] tr'].
    unfold result_of, trace_of in *; simpl in *. intros Hexit. specialize (IH Hexit).
    unfold sleeps in *; simpl in *. rewrite List.filter_app, length_app. lia.
Qed.

Lemma clearTables_run clearFault ts i0 s :
  (forall j, clearFault j = None) ->
  exists s' t,
    clearTables clearFault ts i0 s = (Ok tt, s', t) /\
    same_bookkeeping s s' /\
    length (levels s') = length (levels s) /\
    forall j,
      levels s' !! j =
        if bool_decide (i0 <= j < i0 + length ts)%nat
        then (fun _ => ∅) <$> levels s !! j
        else levels s !! j.
Proof.
  intros Hok. revert i0 s. induction ts as [|table rest IH]; intros i0 s.
  - exists s, []. split; [done|]. split; [apply same_bookkeeping_refl|]. split; [done|].
    intros j. simpl. case_bool_decide; [lia|done].
  - simpl. unfold bind, LevelUtil_clear. rewrite Hok.
    destruct (IH (S i0) (set_levels (alter (fun _ => ∅) i0) s))
      as (s' & t & Hrun & Hbook & Hlen & Hcells).
    rewrite Hrun. eexists _, _. split; [reflexivity|].
    split. { eapply same_bookkeeping_trans; [apply same_bookkeeping_levels|exact Hbook]. }
    split. { rewrite Hlen. simpl. apply length_alter. }
    intros j. rewrite Hcells. simpl.
    destruct (decide (j = i0)) as [->|Hne].
    + rewrite list_lookup_alter_eq.
      rewrite bool_decide_eq_false_2 by lia. by rewrite bool_decide_eq_true_2 by lia.
    + rewrite list_lookup_alter_ne by done.
      case_bool_decide; case_bool_decide; try done; lia.
Qed.

Lemma clearTables_meta clearFault ts i0 s :
  same_bookkeeping s (state_of (clearTables clearFault ts i0 s)).
Proof.
  revert i0 s. induction ts as [|table rest IH]; intros i0 s; simpl.
  - apply same_bookkeeping_refl.
  - unfold bind, LevelUtil_clear. destruct (clearFault i0).
    + apply same_bookkeeping_refl.
    + specialize (IH (S i0) (set_levels (alter (fun _ => ∅) i0) s)).
      destruct (clearTables _ _ _ _) as [[r s'] t]. unfold state_of in *; simpl in *.
      eapply same_bookkeeping_trans; [apply same_bookkeeping_levels|exact IH].
Qed.

Lemma reset_puts_run w (ms : list IndexMeta) s :
  (forall key, metaPutFault w key = None) ->
  exists rs,
    promise_all (fun m => meta_put w (meta_url m) (resetMeta m)) ms s =
      (Ok rs,
       set_indexMetaLevel
         (fun M => foldl (fun acc m => <[meta_url m := resetMeta m]> acc) M ms) s,
       (fun m => MetaPut (meta_url m) (resetMeta m)) <$> ms).
Proof.
  intros Hok. revert s. induction ms as [|m rest IH]; intros s.
  - exists []. simpl. unfold ret. by destruct s.
  - simpl. unfold meta_put at 1. rewrite Hok.
    destruct (IH (set_indexMetaLevel (insert (meta_url m) (resetMeta m)) s)) as (rs & ->).
    eexists. by destruct s.
Qed.

Lemma reset_fold_lookup (kvs : list (string * IndexMeta)) (acc : gmap string IndexMeta) key :
  NoDup kvs.*1 ->
  (forall k m, (k, m) ∈ kvs -> meta_url m = k) ->
  foldl (fun acc m => <[meta_url m := resetMeta m]> acc) acc kvs.*2 !! key =
    match (list_to_map kvs : gmap string IndexMeta) !! key with
    | Some m => Some (resetMeta m)
    | None => acc !! key
    end.
Proof.
  revert acc. induction kvs as [|[k0 m0] rest IH]; intros acc Hnd Hkeyed; simpl.
  - by rewrite lookup_empty.
  - apply NoDup_cons in Hnd as (Hk0 & Hnd).
    rewrite IH; [|done|].
    2: { intros k m Hin. apply Hkeyed. apply elem_of_cons. by right. }
    rewrite (Hkeyed k0 m0) by (apply elem_of_cons; by left).
    destruct (decide (k0 = key)) as [->|Hne].
    + rewrite lookup_insert_eq.
      rewrite (not_elem_of_list_to_map_1 rest key Hk0). by rewrite lookup_insert_eq.
    + rewrite !lookup_insert_ne by done. done.
Qed.

(** X15. The rebuild reset. With an empty list [resetOutdatedIndexes]
    returns [false] and touches nothing. With any other list - which tables
    it names makes no difference - and stores that take the writes, it
    returns [true], leaves every table empty and every IndexMeta record with
    version 0 and its other fields as they were; so the next pass on any
    archive starts from watermark 0. *)
Theorem resetOutdatedIndexes_resets w clearFault needed s :
  resetOutdatedIndexes db w clearFault [] s = (Ok false, s, []) /\
  (needed <> [] ->
   (forall j, clearFault j = None) ->
   (forall key, metaPutFault w key = None) ->
   well_keyed s ->
   length (levels s) = length (tables db) ->
     result_of (resetOutdatedIndexes db w clearFault needed s) = Ok true /\
     levels (state_of (resetOutdatedIndexes db w clearFault needed s)) =
       replicate (length (tables db)) ∅ /\
     indexMetaLevel (state_of (resetOutdatedIndexes db w clearFault needed s)) =
       resetMeta <$> indexMetaLevel s /\
     (forall u, watermark (state_of (resetOutdatedIndexes db w clearFault needed s)) u = 0) /\
     archives (state_of (resetOutdatedIndexes db w clearFault needed s)) = archives s /\
     fileEvents (state_of (resetOutdatedIndexes db w clearFault needed s)) = fileEvents s).
Proof.
  split; [done|].
  intros Hne Hclear Hput Hkeyed Hlen.
  destruct (clearTables_run clearFault (tables db) 0 s Hclear)
    as (s1 & t1 & Hrun1 & (Hmeta & Harch & Hfe & _) & Hlen1 & Hcells).
  destruct (reset_puts_run w (map_to_list (indexMetaLevel s1)).*2 s1 Hput) as (rs & Hrun2).
  assert (Hrun : resetOutdatedIndexes db w clearFault needed s =
    (Ok true,
     set_indexMetaLevel
       (fun M => foldl (fun acc m => <[meta_url m := resetMeta m]> acc) M
                   (map_to_list (indexMetaLevel s1)).*2) s1,
     t1 ++ ((fun m => MetaPut (meta_url m) (resetMeta m))
              <$> (map_to_list (indexMetaLevel s1)).*2))).
  { unfold resetOutdatedIndexes. destruct needed; [done|]. simpl.
    unfold bind, get_state. rewrite Hrun1, Hrun2. unfold ret. simpl.
    by rewrite !app_nil_r. }
  rewrite Hrun. unfold result_of, state_of; simpl.
  assert (Hreset : foldl (fun acc m => <[meta_url m := resetMeta m]> acc)
                     (indexMetaLevel s1) (map_to_list (indexMetaLevel s1)).*2 =
                   resetMeta <$> indexMetaLevel s).
  { rewrite Hmeta. apply map_eq. intros key.
    rewrite reset_fold_lookup.
    - rewrite list_to_map_to_list, lookup_fmap. by destruct (indexMetaLevel s !! key).
    - apply NoDup_fst_map_to_list.
    - intros k m Hin. apply elem_of_map_to_list in Hin. by apply Hkeyed. }
  split; [done|]. split; [|split; [done|split; [|done]]].
  - apply list_eq. intros j. rewrite Hcells. simpl.
    case_bool_decide as Hj.
    + destruct (lookup_lt_is_Some_2 (levels s) j) as (m & ->); [lia|].
      simpl. symmetry. apply lookup_replicate_2. lia.
    + rewrite lookup_ge_None_2 by lia. symmetry. apply lookup_replicate_None. lia.
  - intros u. unfold watermark; simpl. rewrite Hreset, lookup_fmap.
    by destruct (indexMetaLevel s !! u).
Qed.

Lemma meta_step_refl s : meta_step s s.
Proof. intros key m H. by right. Qed.

Lemma meta_step_trans s1 s2 s3 : meta_step s1 s2 -> meta_step s2 s3 -> meta_step s1 s3.
Proof.
  intros H12 H23 key m H. destruct (H23 key m H) as [?|H2]; [by left|]. by apply H12.
Qed.

Lemma meta_step_same s s' : indexMetaLevel s' = indexMetaLevel s -> meta_step s s'.
Proof. intros Heq key m H. right. by rewrite <- Heq. Qed.

Lemma meta_step_insert s m :
  meta_step s (set_indexMetaLevel (insert (meta_url m) m) s).
Proof.
  intros key m' H. simpl in H. destruct (decide (meta_url m = key)) as [<-|Hne].
  - rewrite lookup_insert_eq in H. injection H as <-. by left.
  - rewrite lookup_insert_ne in H by done. by right.
Qed.

Lemma meta_step_delete s key : meta_step s (set_indexMetaLevel (delete key) s).
Proof.
  intros k m H. simpl in H. right.
  destruct (decide (key = k)) as [->|Hne].
  - by rewrite lookup_delete_eq in H.
  - by rewrite lookup_delete_ne in H.
Qed.

Lemma meta_step_keyed s s' : meta_step s s' -> well_keyed s -> well_keyed s'.
Proof. intros Hstep Hk key m H. destruct (Hstep key m H) as [?|H0]; [done|by apply Hk]. Qed.

Lemma indexArchive_meta_step w s :
  meta_step s (state_of (indexArchive JSON_parse db archive w s)).
Proof.
  destruct (indexArchive_outcome JSON_parse db archive w s)
    as [| | | | |info h rs s1 t1 e Hinfo Hlt Hhist Happly Hfault
        |info h rs s1 t1 t3 Hready Hlevel Hinfo Hlt Hhist Happly Hfault Ht3];
    try apply meta_step_refl.
  all: destruct (applyUpdates_run JSON_parse db archive w (fold_left (keepUpdate db) h []) s)
    as (rs' & s1' & t1' & Happly' & (Hm & _) & _).
  all: rewrite Happly in Happly'; injection Happly' as <- <- <-.
  all: unfold state_of; simpl.
  - by apply meta_step_same.
  - eapply meta_step_trans; [by apply meta_step_same|].
    apply (meta_step_insert s1 (advanced_meta archive s (info_version info))).
Qed.

Lemma removeArchive_meta_step w s :
  meta_step s (state_of (removeArchive db archive w s)).
Proof.
  unfold removeArchive, unindexArchive, scanArchiveForRecords, unwatchArchive, bind.
  destruct (list_all_run w (seq 0 (length (tables db))) s) as (r & -> & _).
  destruct r as [rs|e]; [|apply meta_step_refl].
  unfold ret. simpl.
  destruct (delete_all_run w (concat rs) s) as (r & s1 & t1 & -> & (Hm & _) & _).
  destruct r as [rs'|e]; [|by apply meta_step_same].
  unfold meta_del, modify.
  destruct (metaDelFault w (url archive)); simpl; [by apply meta_step_same|].
  unfold state_of; simpl.
  eapply meta_step_trans; [by apply (meta_step_same s s1)|].
  intros key m H. simpl in H. apply (meta_step_delete s1 (url archive) key m H).
Qed.

Lemma reset_puts_meta_step w (ms : list IndexMeta) s :
  meta_step s
    (state_of (promise_all (fun m => meta_put w (meta_url m) (resetMeta m)) ms s)).
Proof.
  revert s. induction ms as [|m rest IH]; intros s; [apply meta_step_refl|].
  simpl. unfold meta_put at 1.
  destruct (metaPutFault w (meta_url m)).
  - specialize (IH s). destruct (promise_all _ rest s) as [[r s'] t]. exact IH.
  - specialize (IH (set_indexMetaLevel (insert (meta_url m) (resetMeta m)) s)).
    destruct (promise_all _ rest _) as [[[rs|e] s'] t]; unfold state_of in *; simpl in *.
    all: eapply meta_step_trans; [|exact IH].
    all: apply (meta_step_insert s (resetMeta m)).
Qed.

Lemma resetOutdatedIndexes_meta_step w clearFault needed s :
  meta_step s (state_of (resetOutdatedIndexes db w clearFault needed s)).
Proof.
  unfold resetOutdatedIndexes. destruct (Nat.eqb _ _); [apply meta_step_refl|].
  unfold bind, get_state.
  pose proof (clearTables_meta clearFault (tables db) 0 s) as (Hm & _).
  destruct (clearTables _ _ _ _) as [[[[]|e] s1] t1]; unfold state_of in *; simpl in *.
  2: { by apply meta_step_same. }
  pose proof (reset_puts_meta_step w (map_to_list (indexMetaLevel s1)).*2 s1) as Hputs.
  destruct (promise_all _ _ s1) as [[[rs|e] s2] t2]; unfold state_of in *; simpl in *.
  all: eapply meta_step_trans; [by apply (meta_step_same s s1)|exact Hputs].
Qed.

Lemma retryLoop_keyed ticks s :
  Forall (fun t => forall s0, well_keyed s0 -> well_keyed (interference t s0)) ticks ->
  well_keyed s ->
  well_keyed (state_of (retryLoop JSON_parse db archive ticks s)).
Proof.
  intros Hticks. revert s. induction Hticks as [|t rest Ht _ IH]; intros s Hs; [done|].
  rewrite retryLoop_step.
  destruct (negb (isOpen (interference t s)) || _); [by apply Ht|].
  pose proof (indexArchive_meta_step (world t) (interference t s)) as Hpass.
  apply meta_step_keyed in Hpass; [|by apply Ht].
  destruct (indexArchive _ _ _ _ _) as [[[[]|e] s2] tr]; unfold state_of in *; simpl in *;
    [done|].
  destruct (negb (Js.isTimeout e)); [done|].
  specialize (IH s2 Hpass). by destruct (retryLoop _ _ _ rest s2) as [[exit s3] tr'].
Qed.

(** X16. IndexMeta records stay under their own URL. If every record of the
    meta store is stored under the [url] it carries - which is what the
    reset relies on when it puts each record back under [indexMeta.url] -
    then so it is after a pass, after [removeArchive], after
    [resetOutdatedIndexes] and after [addArchive], whatever their outcome,
    provided the rest of the system keeps it so while a retry loop sleeps. *)
Theorem meta_stays_keyed w clearFault needed ticks s :
  well_keyed s ->
  well_keyed (state_of (indexArchive JSON_parse db archive w s)) /\
  well_keyed (state_of (removeArchive db archive w s)) /\
  well_keyed (state_of (resetOutdatedIndexes db w clearFault needed s)) /\
  (Forall (fun t => forall s0, well_keyed s0 -> well_keyed (interference t s0)) ticks ->
   well_keyed (state_of (addArchive JSON_parse db archive w ticks s))).
Proof.
  intros Hs. split; [|split; [|split]].
  - eapply meta_step_keyed; [apply indexArchive_meta_step|done].
  - eapply meta_step_keyed; [apply removeArchive_meta_step|done].
  - eapply meta_step_keyed; [apply resetOutdatedIndexes_meta_step|done].
  - intros Hticks. unfold addArchive, bind, await, meta_put, try_catch.
    destruct (getInfo w) as [info|e]; [|done].
    destruct (metaPutFault w (url archive)); [done|].
    set (s0 := set_indexMetaLevel _ s).
    assert (Hs0 : well_keyed s0).
    { eapply meta_step_keyed; [|exact Hs].
      apply (meta_step_insert s (mkMeta (url archive) 0 (Some (isOwner info))
                                   (localPath archive))). }
    pose proof (indexArchive_meta_step w s0) as Hpass.
    apply meta_step_keyed in Hpass; [|done].
    destruct (indexArchive _ _ _ w s0) as [[[[]|e] s1] t1]; unfold state_of in *; simpl in *.
    + destruct (watchArchive_run archive s1) as (s2 & -> & _ & Hm & _). simpl.
      unfold well_keyed. by rewrite Hm.
    + unfold onFailInitialIndex. destruct (Js.isTimeout e); [|done].
      unfold bind, emit, tell.
      pose proof (retryLoop_keyed ticks s1 Hticks Hpass) as Hloop.
      destruct (retryLoop _ _ _ ticks s1) as [[[exit|e'] s2] t2];
        unfold state_of in *; simpl in *; [|done].
      destruct exit; try done.
      destruct (watchArchive_run archive s2) as (s3 & -> & _ & Hm & _). simpl.
      unfold well_keyed. by rewrite Hm.
Qed.

End ResetFacts.

(** ** What a pass leaves in the tables *)

Section PassEffect.

Context (JSON_parse : string -> Res Js.value) (db : Db) (archive : Archive).

Lemma last_write_other_keys t i key :
  Forall (fun ev => exists k, k <> key /\ dispatch_event k ev) t ->
  last_write t i key = None.
Proof.
  induction 1 as [|ev t (k & Hk & Hev) _ IH]; simpl; [done|].
  rewrite IH. destruct Hev as [(e & ->)|[(j & v & ->)|(j & ->)]]; simpl; [done| |].
  all: destruct (String.eqb_spec k key); [done|by rewrite andb_false_r].
Qed.

Lemma batch_other_keys (updates : list (string * Update)) t p :
  (forall entry, entry ∈ updates -> path entry.2 <> p) ->
  Forall (batch_event archive updates) t ->
  Forall (fun ev => exists k, k <> url archive +:+ p /\ dispatch_event k ev) t.
Proof.
  intros Hpaths Ht. eapply Forall_impl; [exact Ht|].
  intros ev (entry & Hin & Hev). exists (url archive +:+ path entry.2). split; [|done].
  intros Heq. apply append_inj_r in Heq. by apply (Hpaths entry).
Qed.

Lemma pass_levels w s info h :
  (isOpen s || isBeingOpened s) = true ->
  hasLevel s = true ->
  getInfo w = Ok info ->
  read_watermark w s (url archive) < info_version info ->
  history w (read_watermark w s (url archive) + 1) (info_version info + 1) = Ok h ->
  levels (state_of (indexArchive JSON_parse db archive w s)) =
    levels (state_of (applyUpdates JSON_parse db archive w (fold_left (keepUpdate db) h []) s)).
Proof.
  intros Hready Hlevel Hinfo Hlt Hhist.
  destruct (indexArchive_proceeds JSON_parse db archive w s info h Hready Hlevel Hinfo Hlt Hhist)
    as (rs & s1 & t1 & t3 & Happly & _ & _ & _ & ->).
  rewrite Happly. by destruct (metaPutFault w (url archive)).
Qed.

Lemma batch_cell w (updates : list (string * Update)) p u r ev i x s :
  NoDup updates.*1 ->
  (forall k u', (k, u') ∈ updates -> k = path u') ->
  (p, u) ∈ updates ->
  (forall s0, applyUpdate JSON_parse db archive w (p, u) s0 =
                (Ok r, set_levels (replay [ev]) s0, [ev])) ->
  write_of ev i (url archive +:+ p) = Some x ->
  cell (levels (state_of (applyUpdates JSON_parse db archive w updates s)))
       i (url archive +:+ p)
    = (fun _ => x) <$> levels s !! i.
Proof.
  intros Hnd Hkeys Hin Hone Hwrite.
  apply list_elem_of_split in Hin as (before & after & ->).
  destruct (applyUpdates_run JSON_parse db archive w before s)
    as (rs1 & s1 & t1 & H1 & _ & _).
  destruct (applyUpdates_run JSON_parse db archive w after (set_levels (replay [ev]) s1))
    as (rs2 & s3 & t2 & H2 & _ & Ht2).
  pose proof (applyUpdates_cons JSON_parse db archive w _ _ _ _ _ _ _ _ _ (Hone s1) H2) as H12.
  rewrite (applyUpdates_app JSON_parse db archive w _ _ _ _ _ _ _ _ _ H1 H12).
  destruct (applyUpdates_replay JSON_parse db archive w (before ++ (p, u) :: after))
    as (rs & t & Hrun & _).
  pose proof (Hrun s) as Hs.
  rewrite (applyUpdates_app JSON_parse db archive w _ _ _ _ _ _ _ _ _ H1 H12) in Hs.
  injection Hs as _ -> <-.
  unfold state_of; simpl. rewrite cell_replay.
  assert (Hafter : last_write t2 i (url archive +:+ p) = None).
  { apply last_write_other_keys. eapply batch_other_keys; [|exact Ht2].
    intros entry Hentry Hp.
    rewrite fmap_app, fmap_cons in Hnd. apply NoDup_app in Hnd as (_ & _ & Hnd).
    apply NoDup_cons in Hnd as (Hfresh & _). apply Hfresh.
    apply list_elem_of_fmap. exists entry. split; [|done].
    destruct entry as [k u']. simpl in *.
    rewrite (Hkeys k u'); [done|].
    apply elem_of_app. right. apply elem_of_cons. by right. }
  rewrite last_write_app. simpl. by rewrite Hafter, Hwrite.
Qed.

Lemma write_of_put i key v : write_of (TablePut i key v) i key = Some (Some v).
Proof. simpl. by rewrite Nat.eqb_refl, String.eqb_refl. Qed.

Lemma write_of_del i key : write_of (TableDel i key) i key = Some None.
Proof. simpl. by rewrite Nat.eqb_refl, String.eqb_refl. Qed.

(** X19. What a pass installs. After a pass that scanned a range - whether or
    not its watermark write succeeds - every retained update is reflected at
    the key [archive.url + path] of the first table that owns the path: a
    retained ['del'] has left no record there; a retained change of another
    type whose file parses has left no record there when the validator
    rejects it, and when the validator accepts it the entry with the
    preprocessor's truthy result or else the parsed record as the validator
    and the preprocessor leave it. The other updates of the batch do not get
    in its way. *)
Theorem pass_installs_retained w s info h p u i table :
  (isOpen s || isBeingOpened s) = true ->
  hasLevel s = true ->
  getInfo w = Ok info ->
  read_watermark w s (url archive) < info_version info ->
  history w (read_watermark w s (url archive) + 1) (info_version info + 1) = Ok h ->
  (p, u) ∈ fold_left (keepUpdate db) h [] ->
  first_match db p i table ->
  (type u = "del" ->
   delFault w i (url archive +:+ p) = None ->
     stored (state_of (indexArchive JSON_parse db archive w s)) i (url archive +:+ p) = None) /\
  (forall content r,
     type u <> "del" ->
     readFile w p = Ok content ->
     JSON_parse content = Ok r ->
     (rejects table r ->
      delFault w i (url archive +:+ p) = None ->
        stored (state_of (indexArchive JSON_parse db archive w s)) i (url archive +:+ p)
          = None) /\
     (forall r',
        accepts table r ->
        preprocessed table r r' ->
        putFault w i (url archive +:+ p) = None ->
        is_Some (levels s !! i) ->
        stored (state_of (indexArchive JSON_parse db archive w s)) i (url archive +:+ p)
          = Some (mkIndexed (url archive +:+ p) (url archive) (now w p) r'))).
Proof.
  intros Hready Hlevel Hinfo Hlt Hhist Hin Hfirst.
  destruct (scan_retained db h) as (Hnd & Hsound & _).
  assert (Hkeys : forall k u', (k, u') ∈ fold_left (keepUpdate db) h [] -> k = path u').
  { intros k u' Hk. by destruct (Hsound k u' Hk) as (? & _). }
  pose proof (Hkeys p u Hin) as Hp.
  assert (Hdel : forall r0,
    (forall s0, applyUpdate JSON_parse db archive w (p, u) s0 =
       (Ok r0, set_levels (replay [TableDel i (url archive +:+ p)]) s0,
        [TableDel i (url archive +:+ p)])) ->
    stored (state_of (indexArchive JSON_parse db archive w s)) i (url archive +:+ p) = None).
  { intros r0 Hone. rewrite stored_cell, (pass_levels w s info h) by done.
    rewrite (batch_cell w _ p u r0 _ i None s Hnd Hkeys Hin Hone (write_of_del _ _)).
    by destruct (levels s !! i). }
  split; [|intros content r Htype Hread Hparse; split].
  - intros Htype Hfault. apply (Hdel (Some (name table))). intros s0.
    unfold applyUpdate. simpl. rewrite Htype. simpl. rewrite <- Hp.
    by apply unindexFile_first_match.
  - intros Hrej Hfault. apply (Hdel (Some (name table))). intros s0.
    unfold applyUpdate. simpl. apply String.eqb_neq in Htype. rewrite Htype. rewrite <- Hp.
    by eapply readAndIndexFile_del.
  - intros r' Hacc Hpre Hfault (m & Hm).
    rewrite stored_cell, (pass_levels w s info h) by done.
    rewrite (batch_cell w _ p u (Some (name table))
               (TablePut i (url archive +:+ p)
                  (mkIndexed (url archive +:+ p) (url archive) (now w p) r'))
               i (Some (mkIndexed (url archive +:+ p) (url archive) (now w p) r'))
               s Hnd Hkeys Hin); [by rewrite Hm| |apply write_of_put].
    intros s0. unfold applyUpdate. simpl. apply String.eqb_neq in Htype. rewrite Htype.
    rewrite <- Hp. by eapply readAndIndexFile_put.
Qed.

(** X20. What a pass leaves alone. A path that has no retained update in the
    scanned range keeps whatever is stored for it: the pass changes the entry
    at [archive.url + path] in no table. *)
Theorem pass_leaves_unchanged_paths w s info h p i :
  (isOpen s || isBeingOpened s) = true ->
  hasLevel s = true ->
  getInfo w = Ok info ->
  read_watermark w s (url archive) < info_version info ->
  history w (read_watermark w s (url archive) + 1) (info_version info + 1) = Ok h ->
  p ∉ (fold_left (keepUpdate db) h []).*1 ->
  stored (state_of (indexArchive JSON_parse db archive w s)) i (url archive +:+ p) =
    stored s i (url archive +:+ p).
Proof.
  intros Hready Hlevel Hinfo Hlt Hhist Hout.
  destruct (scan_retained db h) as (_ & Hsound & _).
  rewrite !stored_cell, (pass_levels w s info h) by done.
  destruct (applyUpdates_replay JSON_parse db archive w (fold_left (keepUpdate db) h []))
    as (rs & t & Hrun & _).
  destruct (applyUpdates_run JSON_parse db archive w (fold_left (keepUpdate db) h []) s)
    as (rs' & s1 & t' & Hrun' & _ & Hbatch).
  rewrite Hrun in Hrun'. injection Hrun' as <- <- <-.
  rewrite Hrun. unfold state_of; simpl. rewrite cell_replay.
  rewrite last_write_other_keys; [done|].
  eapply batch_other_keys; [|exact Hbatch].
  intros [k u'] Hentry Hp. simpl in Hp. apply Hout.
  apply list_elem_of_fmap. exists (k, u'). split; [|done].
  simpl. destruct (Hsound k u' Hentry) as (-> & _). done.
Qed.

End PassEffect.

(** ** The further properties on the concrete database *)

Section FurtherChecks.

Import Scenario Cases.

Lemma fresh_records_keyed : records_keyed fresh.
Proof.
  intros i k r H. unfold stored, fresh in H. simpl in H.
  destruct i as [|i]; simpl in H; [|discriminate].
  rewrite lookup_empty in H. discriminate.
Defined.

Lemma fresh_well_keyed : well_keyed fresh.
Proof. intros k m H. unfold fresh in H. simpl in H. rewrite lookup_empty in H. discriminate. Defined.

Lemma indexed_well_keyed : well_keyed indexed.
Proof.
  intros k m H. unfold indexed in H. simpl in H.
  apply lookup_singleton_Some in H as [<- <-]. reflexivity.
Defined.

Lemma dispatch_touches_one_cell_witness :
  touches_only 0 key fresh
    (state_of (readAndIndexFile JSON_parse db archive (online 1) file fresh)).
Proof.
  exact (proj1 (dispatch_touches_one_cell JSON_parse db archive (online 1) file 0%nat foo
                  fresh foo_owns_file)).
Defined.

Lemma dispatch_failure_reported_witness :
  readAndIndexFile JSON_parse db archive put_down file fresh =
    (Ok None, fresh, [Emit (index_error key store_error)]) /\
  unindexFile db archive del_down file indexed = (Ok None, indexed, []).
Proof.
  split.
  - destruct (dispatch_failure_reported JSON_parse db archive put_down file fresh
                "{}" (Js.object []) 0%nat foo store_error eq_refl eq_refl foo_owns_file)
      as (Hread & _).
    apply Hread. right. right. left.
    split; [exact foo_accepts_object|]. split; [|reflexivity].
    exists (Js.object []). exact foo_keeps_object.
  - destruct (dispatch_failure_reported JSON_parse db archive del_down file indexed
                "{}" (Js.object []) 0%nat foo store_error eq_refl eq_refl foo_owns_file)
      as (_ & Hun).
    apply Hun. reflexivity.
Defined.

Lemma retraction_is_unindexing_witness :
  readAndIndexFile JSON_parse db archive world_edited file indexed =
    unindexFile db archive world_edited file indexed.
Proof.
  destruct (retraction_is_unindexing JSON_parse db archive world_edited file indexed
              "1" (Js.number 1) 0%nat foo eq_refl eq_refl foo_owns_file
              foo_rejects_number) as (_ & Hsame).
  apply Hsame. reflexivity.
Defined.

Lemma marking_owns_file : first_match (db_of marking) file 0 marking.
Proof. exists [], []. repeat split. constructor. Defined.

Lemma marking_accepts_object : accepts marking (Js.object []).
Proof.
  right. exists marks_checked,
    (mkCall (Js.boolean true) (Js.object [("checked", Js.boolean true)])).
  repeat split.
Defined.

Lemma marking_stores_checked :
  preprocessed marking (Js.object []) (Js.object [("checked", Js.boolean true)]).
Proof.
  right. exists returns_nothing,
    (mkCall Js.undefined (Js.object [("checked", Js.boolean true)])).
  repeat split.
Defined.

Lemma index_then_unindex_witness :
  stored (state_of (readAndIndexFile JSON_parse (db_of marking) archive (online 1) file fresh))
         0 key
    = Some (mkIndexed key "dat://a" 1000 (Js.object [("checked", Js.boolean true)])) /\
  state_of (unindexFile (db_of marking) archive (online 1) file
              (state_of (readAndIndexFile JSON_parse (db_of marking) archive (online 1) file
                           fresh))) = fresh.
Proof.
  exact (index_then_unindex JSON_parse (db_of marking) archive (online 1) (online 1) file
           fresh "{}" (Js.object []) (Js.object [("checked", Js.boolean true)]) 0%nat marking
           eq_refl eq_refl marking_owns_file marking_accepts_object marking_stores_checked
           eq_refl eq_refl eq_refl).
Defined.

Lemma applyUpdates_again_witness :
  applyUpdates JSON_parse db archive (at_clock (online 1) (fun _ => 7000)) [(file, put1)]
    (state_of (applyUpdates JSON_parse db archive (online 1) [(file, put1)] fresh)) =
  applyUpdates JSON_parse db archive (at_clock (online 1) (fun _ => 7000)) [(file, put1)] fresh.
Proof.
  exact (proj1 (applyUpdates_again JSON_parse db archive (online 1) (fun _ => 7000)
                  [(file, put1)] fresh)).
Defined.

Lemma pass_keeps_records_keyed_witness :
  records_keyed (state_of (indexArchive JSON_parse db archive (online 1) fresh)).
Proof.
  destruct (pass_keeps_records_keyed JSON_parse db archive (online 1) fresh) as (Hkeyed & _).
  apply Hkeyed. exact fresh_records_keyed.
Defined.

Lemma repair_after_failed_watermark_write_witness :
  result_of (indexArchive JSON_parse db archive meta_down fresh) = Throw store_error /\
  watermark (state_of (indexArchive JSON_parse db archive meta_down fresh)) "dat://a" = 0 /\
  levels (state_of (indexArchive JSON_parse db archive (repaired meta_down (fun _ => 7000))
                      (state_of (indexArchive JSON_parse db archive meta_down fresh))))
    = levels (state_of (indexArchive JSON_parse db archive (repaired meta_down (fun _ => 7000))
                          fresh)) /\
  watermark (state_of (indexArchive JSON_parse db archive (repaired meta_down (fun _ => 7000))
                         (state_of (indexArchive JSON_parse db archive meta_down fresh))))
            "dat://a" = 1.
Proof.
  destruct (repair_after_failed_watermark_write JSON_parse db archive meta_down
              (fun _ => 7000) fresh (mkInfo 1 true) [put1] store_error
              eq_refl eq_refl eq_refl eq_refl eq_refl eq_refl)
    as (Hfail & Hwm & _ & _ & Hlevels & _ & Hdone).
  split; [exact Hfail|]. split; [exact Hwm|]. split; [exact Hlevels|exact Hdone].
Defined.

Lemma pass_frame_witness :
  stored (state_of (indexArchive JSON_parse db archive (online 1) shared)) 0 other_key
    = Some other_entry /\
  indexMetaLevel (state_of (indexArchive JSON_parse db archive (online 1) shared)) !! "dat://b"
    = Some other_meta.
Proof.
  destruct (pass_frame JSON_parse db archive (online 1) shared)
    as (_ & _ & _ & _ & _ & _ & Hmeta & Hstored).
  split.
  - rewrite (Hstored 0%nat other_key); reflexivity.
  - rewrite (Hmeta "dat://b"); [reflexivity|discriminate].
Defined.

Lemma pass_signals_witness :
  exists names,
    NoDup names /\
    (forall n, n ∈ names -> exists table, table ∈ tables db /\ name table = n).
Proof.
  destruct (pass_signals JSON_parse db archive (online 1) fresh (mkInfo 1 true) [put1]
              eq_refl eq_refl eq_refl)
    as (rs & t1 & names & _ & _ & _ & Hnd & _ & Htables).
  - vm_compute. reflexivity.
  - reflexivity.
  - reflexivity.
  - exists names. split; [exact Hnd|exact Htables].
Defined.

Lemma pass_without_matching_change_witness :
  indexArchive JSON_parse db archive elsewhere fresh =
    (Ok tt,
     set_indexMetaLevel (insert "dat://a" (mkMeta "dat://a" 1 None None)) fresh,
     [MetaPut "dat://a" (mkMeta "dat://a" 1 None None);
      Emit (indexes_updated "dat://a" 1)]).
Proof.
  assert (Hnone : Forall (fun u => tableFilePatterns db (path u) = false)
                    [mkUpdate "/dat.json" "put" 1]).
  { constructor; [reflexivity|constructor]. }
  destruct (pass_without_matching_change JSON_parse db archive elsewhere fresh
              (mkInfo 1 true) [mkUpdate "/dat.json" "put" 1]
              eq_refl eq_refl eq_refl eq_refl eq_refl Hnone eq_refl) as (_ & Hpass & _).
  exact Hpass.
Defined.

Lemma changed_listener_reports_witness :
  onChanged JSON_parse db archive unreachable fresh =
    (Ok tt,
     state_of (indexArchive JSON_parse db archive unreachable fresh),
     trace_of (indexArchive JSON_parse db archive unreachable fresh)
       ++ [Emit (source_error "dat://a" timeout)]).
Proof.
  destruct (changed_listener_reports JSON_parse db archive unreachable fresh timeout eq_refl)
    as (Hrun & _).
  exact Hrun.
Defined.

Lemma changed_burst_indexes_once_witness :
  onChangedAll JSON_parse db archive [online 1; online 1; online 1] fresh =
    (Ok tt,
     state_of (indexArchive JSON_parse db archive (online 1) fresh),
     trace_of (indexArchive JSON_parse db archive (online 1) fresh)).
Proof.
  apply (changed_burst_indexes_once JSON_parse db archive (online 1) [online 1; online 1] fresh).
  - reflexivity.
  - reflexivity.
  - repeat constructor.
Defined.

Lemma addArchive_failures_witness :
  addArchive JSON_parse db archive unreachable [] fresh = (Throw timeout, fresh, []) /\
  addArchive JSON_parse db archive no_history [] fresh =
    (Ok tt,
     set_indexMetaLevel (insert "dat://a" (mkMeta "dat://a" 0 (Some true) None)) fresh,
     [MetaPut "dat://a" (mkMeta "dat://a" 0 (Some true) None);
      Emit (source_error "dat://a" not_found)]).
Proof.
  split.
  - destruct (addArchive_failures JSON_parse db archive unreachable [] fresh) as (Hinfo & _).
    apply Hinfo. reflexivity.
  - destruct (addArchive_failures JSON_parse db archive no_history [] fresh)
      as (_ & _ & Hpass).
    destruct (Hpass (mkInfo 1 true) not_found eq_refl eq_refl eq_refl eq_refl)
      as (_ & Hother).
    + vm_compute. reflexivity.
    + reflexivity.
    + destruct (Hother eq_refl) as (Hrun & _). exact Hrun.
Defined.

Lemma removeArchive_failures_witness :
  (exists e', removeArchive db archive no_listing indexed = (Throw e', indexed, [])) /\
  indexMetaLevel (state_of (removeArchive db archive del_down indexed))
    = indexMetaLevel indexed.
Proof.
  split.
  - destruct (removeArchive_failures db archive no_listing indexed) as (Hlist & _).
    apply (Hlist 0%nat store_error); [simpl; lia|reflexivity].
  - destruct (removeArchive_failures db archive del_down indexed) as (_ & Hdel).
    destruct (Hdel 0%nat [key] key store_error) as (_ & Hmeta & _).
    + intros j _. exists [key]. reflexivity.
    + simpl. lia.
    + reflexivity.
    + apply elem_of_cons. left. reflexivity.
    + reflexivity.
    + exact Hmeta.
Defined.

Lemma resetOutdatedIndexes_resets_witness :
  result_of (resetOutdatedIndexes db (online 1) (fun _ => None) ["foo"] indexed) = Ok true /\
  levels (state_of (resetOutdatedIndexes db (online 1) (fun _ => None) ["foo"] indexed))
    = [∅] /\
  watermark (state_of (resetOutdatedIndexes db (online 1) (fun _ => None) ["foo"] indexed))
            "dat://a" = 0.
Proof.
  destruct (resetOutdatedIndexes_resets db (online 1) (fun _ => None) ["foo"] indexed)
    as (_ & Hreset).
  destruct Hreset as (Hres & Hlevels & _ & Hwm & _).
  - discriminate.
  - reflexivity.
  - reflexivity.
  - exact indexed_well_keyed.
  - reflexivity.
  - split; [exact Hres|]. split; [exact Hlevels|apply Hwm].
Defined.

Lemma meta_stays_keyed_witness :
  well_keyed (state_of (indexArchive JSON_parse db archive (online 1) indexed)) /\
  well_keyed (state_of (addArchive JSON_parse db archive (online 1) [] fresh)).
Proof.
  split.
  - destruct (meta_stays_keyed JSON_parse db archive (online 1) (fun _ => None) [] []
                indexed indexed_well_keyed) as (Hpass & _).
    exact Hpass.
  - destruct (meta_stays_keyed JSON_parse db archive (online 1) (fun _ => None) [] []
                fresh fresh_well_keyed) as (_ & _ & _ & Hadd).
    apply Hadd. constructor.
Defined.

Lemma retry_waits_witness :
  sleeps (trace_of (retryLoop JSON_parse db archive
                      [mkTick id unreachable; mkTick id unreachable] fresh)) = 2%nat /\
  head (trace_of (retryLoop JSON_parse db archive
                    [mkTick drop_source (online 1)] fresh)) = Some (Sleep 30000).
Proof.
  split.
  - destruct (retry_waits JSON_parse db archive
                [mkTick id unreachable; mkTick id unreachable] fresh) as (_ & _ & _ & Hall).
    apply Hall. reflexivity.
  - destruct (retry_waits JSON_parse db archive [mkTick drop_source (online 1)] fresh)
      as (_ & _ & Hhead & _).
    apply Hhead. discriminate.
Defined.

Lemma pass_installs_retained_witness :
  stored (state_of (indexArchive JSON_parse db archive (world_deleted "del") indexed)) 0 key
    = None /\
  stored (state_of (indexArchive JSON_parse db archive (online 1) fresh)) 0 key
    = Some entry.
Proof.
  assert (Hdel_in : (file, mkUpdate file "del" 2)
                      ∈ fold_left (keepUpdate db) [mkUpdate file "del" 2] []).
  { apply elem_of_cons. left. reflexivity. }
  assert (Hput_in : (file, put1) ∈ fold_left (keepUpdate db) [put1] []).
  { apply elem_of_cons. left. reflexivity. }
  split.
  - destruct (pass_installs_retained JSON_parse db archive (world_deleted "del") indexed
                (mkInfo 2 true) [mkUpdate file "del" 2] file (mkUpdate file "del" 2) 0%nat foo
                eq_refl eq_refl eq_refl eq_refl eq_refl Hdel_in foo_owns_file)
      as (Hdel & _).
    exact (Hdel eq_refl eq_refl).
  - destruct (pass_installs_retained JSON_parse db archive (online 1) fresh
                (mkInfo 1 true) [put1] file put1 0%nat foo
                eq_refl eq_refl eq_refl eq_refl eq_refl Hput_in foo_owns_file)
      as (_ & Hput).
    assert (Hne : type put1 <> "del") by (simpl; discriminate).
    destruct (Hput "{}" (Js.object []) Hne eq_refl eq_refl) as (_ & Hstore).
    apply (Hstore (Js.object []) foo_accepts_object foo_keeps_object eq_refl).
    exists ∅. reflexivity.
Defined.

Lemma pass_leaves_unchanged_paths_witness :
  stored (state_of (indexArchive JSON_parse db archive second_file indexed)) 0 key
    = Some entry.
Proof.
  assert (Hout : file ∉ (fold_left (keepUpdate db)
                           [mkUpdate "/tables/foo/2.json" "put" 2] []).*1).
  { apply (bool_decide_unpack _). vm_compute. exact I. }
  exact (pass_leaves_unchanged_paths JSON_parse db archive second_file indexed
           (mkInfo 2 true) [mkUpdate "/tables/foo/2.json" "put" 2] file 0%nat
           eq_refl eq_refl eq_refl eq_refl eq_refl Hout).
Defined.


End FurtherChecks.
